(** * Schema-governed JSON transcoding (packages/types/lib/values.js)

    A shallow embedding of the value transcoder of [values.js]: the three
    entry points [fromJSON], [fromDefaultJSON] and [toJSON], the result
    accumulator [Builder] and the recursive dispatcher [Cloner].

    Modelling conventions.
    - JavaScript values are the inductive [value].  Numbers are integers
      (fractions and NaN are not represented), strings are sequences of
      code units below 256 (a string with a higher code unit is outside
      the model) and arrays are dense.
    - An object is the association list of its own enumerable properties
      in creation order; [ownKeys] applies the engine's enumeration order
      (array indices in ascending numeric order first, then the other
      keys as created).  The prototype of an object is not part of the
      value: what a read finds on the prototype chain is given by the
      platform, the section variable [inherited].
    - The type graph is a finite tree ([avtype]); the capabilities that
      [values.js] consumes from a type (validity predicate, logical-type
      hooks, branch resolution, record constructor) are function fields
      of the tree, and the comparison used for default elision is a
      section variable.
    - A JavaScript exception is the [Throw] result of the [outcome]
      monad; everything else is explicit value passing. *)

From Stdlib Require Import List String Ascii Strings.Byte ZArith NArith Bool Lia.
From Stdlib Require Import Permutation Sorted DecimalString DecimalN.
Import ListNotations.
Local Open Scope string_scope.
Local Open Scope list_scope.

Set Implicit Arguments.
Set Warnings "-register-all".

(* ------------------------------------------------------------------ *)
(** ** JavaScript values *)

(** Wrapper objects ([new Boolean(b)], [new Number(n)], [new String(s)]). *)
Inductive boxed : Type :=
| BBool (b : bool)
| BNum (n : Z)
| BStr (s : string).

Unset Elimination Schemes.
Inductive value : Type :=
| VUndefined
| VNull
| VBool (b : bool)
| VNum (n : Z)
| VStr (s : string)
| VBuf (bytes : list byte)
| VBoxed (p : boxed)
| VArr (items : list value)
| VObj (props : list (string * value))
| VFunction (name : string).
Set Elimination Schemes.

Definition isUndefined (v : value) : bool :=
  match v with VUndefined => true | _ => false end.

Definition isNull (v : value) : bool :=
  match v with VNull => true | _ => false end.

(** [!!v] *)
Definition truthy (v : value) : bool :=
  match v with
  | VUndefined | VNull => false
  | VBool b => b
  | VNum n => negb (Z.eqb n 0)
  | VStr s => negb (String.eqb s "")
  | VBuf _ | VBoxed _ | VArr _ | VObj _ | VFunction _ => true
  end.

(** [typeof v] *)
Definition typeof (v : value) : string :=
  match v with
  | VUndefined => "undefined"
  | VBool _ => "boolean"
  | VNum _ => "number"
  | VStr _ => "string"
  | VFunction _ => "function"
  | VNull | VBuf _ | VBoxed _ | VArr _ | VObj _ => "object"
  end.

(** Decimal rendering of a count or of an index ([String(n)]). *)
Definition string_of_N (n : N) : string := NilEmpty.string_of_uint (N.to_uint n).
Definition string_of_nat (n : nat) : string := string_of_N (N.of_nat n).

(** A property key is an array index when it is the canonical decimal
    rendering of an integer below 2^32 - 1. *)
Definition arrayIndex (k : string) : option N :=
  match NilEmpty.uint_of_string k with
  | Some u =>
      let n := N.of_uint u in
      if String.eqb (string_of_N n) k && N.ltb n 4294967295 then Some n else None
  | None => None
  end.

Fixpoint insertN (n : N) (l : list N) : list N :=
  match l with
  | [] => [n]
  | m :: l' => if N.leb n m then n :: l else m :: insertN n l'
  end.

Definition sortN (l : list N) : list N := fold_right insertN [] l.

Fixpoint indexKeysOf (ks : list string) : list N :=
  match ks with
  | [] => []
  | k :: ks' =>
      match arrayIndex k with
      | Some n => n :: indexKeysOf ks'
      | None => indexKeysOf ks'
      end
  end.

Definition isNamedKey (k : string) : bool :=
  match arrayIndex k with Some _ => false | None => true end.

(** Enumeration order of the own keys of an ordinary object whose
    properties were created in the order [ks]. *)
Definition enumerationOrder (ks : list string) : list string :=
  map string_of_N (sortN (indexKeysOf ks)) ++ filter isNamedKey ks.

Definition indexKeys (len : nat) : list string :=
  map string_of_nat (seq 0 len).

(** The enumerable own keys of a value, as [Object.keys] lists them. *)
Definition ownKeys (v : value) : list string :=
  match v with
  | VObj props => enumerationOrder (map fst props)
  | VArr items => indexKeys (List.length items)
  | VBuf bytes => indexKeys (List.length bytes)
  | VStr s | VBoxed (BStr s) => indexKeys (String.length s)
  | _ => []
  end.

Fixpoint assoc (k : string) (props : list (string * value)) : option value :=
  match props with
  | [] => None
  | (k', v) :: rest => if String.eqb k' k then Some v else assoc k rest
  end.

Definition charAt (s : string) (i : nat) : value :=
  match String.get i s with
  | Some ch => VStr (String ch EmptyString)
  | None => VUndefined
  end.

(** The own properties of an array-like value of length [len]: its
    positions and [length]. *)
Definition ownIndexed (k : string) (len : nat) : bool :=
  match arrayIndex k with
  | Some n => Nat.ltb (N.to_nat n) len
  | None => String.eqb k "length"
  end.

Definition indexed (k : string) (len : nat) (at_ : nat -> value) : value :=
  match arrayIndex k with
  | Some n => if Nat.ltb (N.to_nat n) len then at_ (N.to_nat n) else VUndefined
  | None => if String.eqb k "length" then VNum (Z.of_nat len) else VUndefined
  end.

(** Whether [o] has an own property under [k]. *)
Definition hasOwn (o : value) (k : string) : bool :=
  match o with
  | VObj props => match assoc k props with Some _ => true | None => false end
  | VArr items => ownIndexed k (List.length items)
  | VBuf bytes => ownIndexed k (List.length bytes)
  | VStr s | VBoxed (BStr s) => ownIndexed k (String.length s)
  | _ => false
  end.

(** [o[k]] where [k] is an own property of [o] (a key that [Object.keys]
    listed); [undefined] when there is none. *)
Definition getProp (o : value) (k : string) : value :=
  match o with
  | VObj props => match assoc k props with Some v => v | None => VUndefined end
  | VArr items => indexed k (List.length items) (fun i => nth i items VUndefined)
  | VBuf bytes =>
      indexed k (List.length bytes)
        (fun i => match nth_error bytes i with
                  | Some b => VNum (Z.of_N (Byte.to_N b))
                  | None => VUndefined
                  end)
  | VStr s | VBoxed (BStr s) => indexed k (String.length s) (charAt s)
  | _ => VUndefined
  end.

(** [o[k]] in general: the own property when there is one, else what the
    prototype chain of [o] holds under [k], which the platform gives
    ([undefined] when the chain holds nothing). *)
Definition readProp (inherited : value -> string -> value) (o : value)
  (k : string) : value :=
  if hasOwn o k then getProp o k else inherited o k.

(** Storing the own property [k]: an existing property keeps its place, a
    new one is created last. *)
Fixpoint storeProp (props : list (string * value)) (k : string) (v : value)
  : list (string * value) :=
  match props with
  | [] => [(k, v)]
  | (k', v') :: rest =>
      if String.eqb k' k then (k, v) :: rest else (k', v') :: storeProp rest k v
  end.

(** [o[k] = v] on an object that started as [{}] and was only assigned to:
    the own property [k] is stored, except for the key [__proto__], where
    the assignment runs the setter inherited from [Object.prototype] and
    no own property is created (for an object or [null] the setter
    replaces the prototype of [o], which the value does not record). *)
Definition setProp (props : list (string * value)) (k : string) (v : value)
  : list (string * value) :=
  if String.eqb k "__proto__" then props else storeProp props k v.

(** [Array.prototype.sort()] on strings: ascending by code units. *)
Fixpoint insertKey (k : string) (l : list string) : list string :=
  match l with
  | [] => [k]
  | k' :: l' => if String.leb k k' then k :: l else k' :: insertKey k l'
  end.

Definition sortKeys (l : list string) : list string := fold_right insertKey [] l.

(** [Array.prototype.join] *)
Fixpoint join (sep : string) (l : list string) : string :=
  match l with
  | [] => ""
  | [s] => s
  | s :: rest => s ++ sep ++ join sep rest
  end.

(* ------------------------------------------------------------------ *)
(** ** The type model consumed by the transcoder *)

Inductive primKind : Type :=
| KNull | KBoolean | KInt | KLong | KFloat | KDouble | KString
| KBytes | KFixed | KEnum.

(** Result of a logical-type hook: a value, or a raised error and its message. *)
Inductive hookResult : Type :=
| HReturn (v : value)
| HThrow (message : string).

Unset Elimination Schemes.
Inductive avtype : Type :=
| TPrim (kind : primKind) (name : option string) (isValid : value -> bool)
| TArray (itemsType : avtype)
| TMap (valuesType : avtype)
| TRecord (isError : bool) (name : option string) (fields : list field)
          (recordConstructor : list value -> value)
| TUnion (wrapped : bool) (types : list avtype)
         (branchType : value -> option avtype)
| TLogical (logicalName : string) (underlyingType : avtype)
           (_toValue _fromValue : value -> hookResult)
with field : Type :=
| Field (fieldName : string) (fieldType : avtype) (defaultValue : value).
Set Elimination Schemes.

Definition fname (f : field) : string :=
  match f with Field n _ _ => n end.
Definition ftype (f : field) : avtype :=
  match f with Field _ t _ => t end.
(** [field.defaultValue()]: [undefined] when the field declares no default. *)
Definition fdefault (f : field) : value :=
  match f with Field _ _ d => d end.

Definition primTypeName (k : primKind) : string :=
  match k with
  | KNull => "null" | KBoolean => "boolean" | KInt => "int" | KLong => "long"
  | KFloat => "float" | KDouble => "double" | KString => "string"
  | KBytes => "bytes" | KFixed => "fixed" | KEnum => "enum"
  end.

(** Modelled from the spec: [type.typeName], the category tag [clone]
    switches on. *)
Definition typeName (t : avtype) : string :=
  match t with
  | TPrim k _ _ => primTypeName k
  | TArray _ => "array"
  | TMap _ => "map"
  | TRecord isError _ _ _ => if isError then "error" else "record"
  | TUnion w _ _ => if w then "union:wrapped" else "union:unwrapped"
  | TLogical n _ _ _ => "logical:" ++ n
  end.

(** Modelled from the spec: [utils.isType(type, prefix...)], the category
    tag starts with one of the prefixes. *)
Definition isType (t : avtype) (prefixes : list string) : bool :=
  existsb (fun p => String.prefix p (typeName t)) prefixes.

(** Modelled from the spec: the branch name of a type (the type's own name
    when it has one, else its category tag; a logical type answers for its
    underlying type; a union has none). *)
Fixpoint branchName (t : avtype) : option string :=
  match t with
  | TPrim k (Some n) _ => Some n
  | TPrim k None _ => Some (primTypeName k)
  | TRecord _ (Some n) _ _ => Some n
  | TUnion _ _ _ => None
  | TLogical _ u _ _ => branchName u
  | _ => Some (typeName t)
  end.

(** A possibly undefined name used as a property key or printed with [%s]. *)
Definition nameText (n : option string) : string :=
  match n with Some s => s | None => "undefined" end.

Definition branchKey (t : avtype) : string := nameText (branchName t).

(** Modelled from the spec: [branchType.wrap(v)], the single-key object
    naming the branch. *)
Definition wrap (t : avtype) (v : value) : value := VObj [(branchKey t, v)].

(** The properties a generated record constructor stores: each positional
    value under its field name, the default of the field where the value
    is [undefined]. *)
Fixpoint construct (fields : list field) (args : list value)
  : list (string * value) :=
  match fields, args with
  | f :: fields, v :: args =>
      (fname f, if isUndefined v then fdefault f else v) :: construct fields args
  | _, _ => []
  end.

(** Modelled from the spec: [recordType.field(name)], the lookup of a
    declared field by name. *)
Fixpoint fieldByName (name : string) (fs : list field) : option field :=
  match fs with
  | [] => None
  | f :: rest => if String.eqb (fname f) name then Some f else fieldByName name rest
  end.

(* ------------------------------------------------------------------ *)
(** ** Paths, errors and the result accumulator *)

(** One step of a path: a field name or map key, or an array position. *)
Inductive pathStep : Type :=
| PKey (key : string)
| PIndex (i : nat).

Definition path := list pathStep.

(** The description handed to [addError]; [descText] below renders it. *)
Inductive errorDesc : Type :=
| DNotArray                              (* is not an array *)
| DNotValidObject                        (* is not a valid object *)
| DNotString                             (* is not a string *)
| DInvalidValue                          (* invalid value *)
| DUndeclaredFields (names : list string)
| DMissingFields (names : list string)
| DIsNull                                (* is null *)
| DNotFirstNull                          (* does not match first (null) *)
| DNotValidBranch                        (* is not a valid branch *)
| DNotObject                             (* is not an object *)
| DKeyCount (keys : list string)         (* has N keys (...) *)
| DUnknownBranch (key : string)
| DLogicalEncodingFailed (cause : option string)
| DLogicalDecodingFailed (cause : string).

(** The error object pushed by [addError]. *)
Record ValueError : Type := mkValueError {
  errDesc : errorDesc;
  errValue : value;
  errExpectedType : avtype;
  errPath : path
}.

Record Builder : Type := mkBuilder {
  bvalue : value;
  errors : list ValueError
}.

Definition newBuilder : Builder := mkBuilder VUndefined [].

Definition isOk (b : Builder) : bool :=
  match errors b with [] => true | _ :: _ => false end.

Definition setValue (b : Builder) (v : value) : Builder :=
  mkBuilder v (errors b).

Definition addError (b : Builder) (d : errorDesc) (val : value) (t : avtype)
  (p : path) : Builder :=
  mkBuilder (bvalue b) (errors b ++ [mkValueError d val t p]).

Definition copyErrorsFrom (b from : Builder) : Builder :=
  mkBuilder (bvalue b) (errors b ++ errors from).

(** What a call can raise. *)
Inductive exn : Type :=
| JsError (message : string)
| JsTypeError (message : string)
| IncompatibleValue (rootType : avtype) (errs : list ValueError).

Inductive outcome (A : Type) : Type :=
| Ok (a : A)
| Throw (e : exn).

Arguments Ok {A} a.
Arguments Throw {A} e.

Definition bind {A B : Type} (m : outcome A) (k : A -> outcome B) : outcome B :=
  match m with
  | Ok a => k a
  | Throw e => Throw e
  end.

Notation "x <- m ;; k" := (bind m (fun x => k))
  (at level 61, m at next level, right associativity).

(** [Object.keys(v)] *)
Definition Object_keys (v : value) : outcome (list string) :=
  match v with
  | VUndefined | VNull =>
      Throw (JsTypeError "Cannot convert undefined or null to object")
  | _ => Ok (ownKeys v)
  end.

(** Modelled from the spec: [utils.bufferFrom(s, 'binary')], one byte per
    code unit of the string, each code unit of a model string being below
    256 (of a higher code unit the platform keeps the low byte; such a
    string is outside the model). *)
Definition bufferFromBinary (s : string) : value := VBuf (list_byte_of_string s).

(** Modelled from the spec: [utils.bufferFrom(val)], the defensive copy of a
    byte sequence.  The validity predicate of a buffer kind accepts byte
    sequences; any other argument is outside that contract and is modelled
    as a raised [TypeError]. *)
Definition bufferFrom (val : value) : outcome value :=
  match val with
  | VBuf bytes => Ok (VBuf bytes)
  | _ => Throw (JsTypeError "The first argument must be a Buffer")
  end.

(** [v.toString('binary')] where [v] is [builder.value] of [_onPrimitive]:
    a buffer, or still [undefined], on which the property access raises. *)
Definition toStringBinary (v : value) : outcome value :=
  match v with
  | VBuf bytes => Ok (VStr (string_of_list_byte bytes))
  | _ => Throw (JsTypeError "Cannot read property 'toString' of undefined")
  end.

(* ------------------------------------------------------------------ *)
(** ** The transcoder *)

Inductive Mode : Type := TO_JSON | FROM_JSON | FROM_DEFAULT_JSON.

Definition isToJSON (m : Mode) : bool :=
  match m with TO_JSON => true | _ => false end.

Definition isFromDefaultJSON (m : Mode) : bool :=
  match m with FROM_DEFAULT_JSON => true | _ => false end.

Record Cloner : Type := mkCloner {
  _mode : Mode;
  _allowUndeclaredFields : bool;
  _omitDefaultValues : bool
}.

(** The [opts] argument of the entry points; an absent property is
    [VUndefined]. *)
Record Options : Type := mkOptions {
  allowUndeclaredFields : value;
  omitDefaultValues : value
}.

Definition noOptions : Options := mkOptions VUndefined VUndefined.

(** [new Cloner(mode, opts)] *)
Definition newCloner (mode : Mode) (opts : option Options) : outcome Cloner :=
  let opts := match opts with Some o => o | None => noOptions end in
  let this := mkCloner mode (truthy (allowUndeclaredFields opts))
                            (truthy (omitDefaultValues opts)) in
  if _omitDefaultValues this && negb (isToJSON (_mode this))
  then Throw (JsError "invalid cloner options")
  else Ok this.

(** A recursive call [this.clone(_, t, _)] at a fixed sub-type [t]. *)
Definition cloneAt := value -> path -> outcome Builder.

Section Transcoder.

(** The platform: [inherited o k] is what the prototype chain of [o] holds
    under [k] (a method of [Object.prototype], of [Array.prototype], of the
    prototype of a record instance, ...), [undefined] when it holds
    nothing. *)
Variable inherited : value -> string -> value.

(** [type.compare(a, b, {allowMaps: true})] of the type model. *)
Variable compare : avtype -> value -> value -> Z.

Variable this : Cloner.

(** [Cloner.prototype._onLogical] *)
Definition _onLogical (cloneUnderlying : cloneAt) (type : avtype)
  (toValue fromValue : value -> hookResult) (any : value) (path : path)
  : outcome Builder :=
  let builder := newBuilder in
  if isToJSON (_mode this) then
    match toValue any with
    | HThrow message =>
        Ok (addError builder (DLogicalEncodingFailed (Some message)) any type path)
    | HReturn VUndefined =>
        Ok (addError builder (DLogicalEncodingFailed None) any type path)
    | HReturn v => cloneUnderlying v path
    end
  else
    builder <- cloneUnderlying any path ;;
    if negb (isOk builder) then Ok builder
    else
      match fromValue (bvalue builder) with
      | HReturn v => Ok (setValue builder v)
      | HThrow message =>
          Ok (addError builder (DLogicalDecodingFailed message) any type path)
      end.

(** The second half of [_onPrimitive], from the validity check on. *)
Definition primitiveCheck (type : avtype) (isValid : value -> bool)
  (isBufferType : bool) (any val : value) (path : path) : outcome Builder :=
  let builder := newBuilder in
  builder <-
    (if isValid val then
       (if isBufferType
        then (copy <- bufferFrom val ;; Ok (setValue builder copy))
        else Ok (setValue builder val))
     else Ok (addError builder DInvalidValue any type path)) ;;
  if isToJSON (_mode this) && isBufferType then
    text <- toStringBinary (bvalue builder) ;;
    Ok (setValue builder text)
  else Ok builder.

(** [Cloner.prototype._onPrimitive] *)
Definition _onPrimitive (type : avtype) (isValid : value -> bool)
  (any : value) (path : path) : outcome Builder :=
  let builder := newBuilder in
  let isBufferType := isType type ["bytes"; "fixed"] in
  if isBufferType && negb (isToJSON (_mode this)) then
    match any with
    | VStr s =>
        primitiveCheck type isValid isBufferType any (bufferFromBinary s) path
    | _ => Ok (addError builder DNotString any type path)
    end
  else primitiveCheck type isValid isBufferType any any path.

(** The loop of [_onArray]: [builder] and [val] after the items from
    position [i] on. *)
Fixpoint arrayLoop (cloneItem : cloneAt) (path : path) (items : list value)
  (i : nat) (builder : Builder) (val : list value)
  : outcome (Builder * list value) :=
  match items with
  | [] => Ok (builder, val)
  | item :: rest =>
      itemBuilder <- cloneItem item (path ++ [PIndex i]) ;;
      let builder := copyErrorsFrom builder itemBuilder in
      let val := if isOk builder then val ++ [bvalue itemBuilder] else val in
      arrayLoop cloneItem path rest (S i) builder val
  end.

(** [Cloner.prototype._onArray] *)
Definition _onArray (cloneItem : cloneAt) (type : avtype) (any : value)
  (path : path) : outcome Builder :=
  let builder := newBuilder in
  match any with
  | VArr items =>
      st <- arrayLoop cloneItem path items 0 builder [] ;;
      let '(builder, val) := st in
      Ok (if isOk builder then setValue builder (VArr val) else builder)
  | _ => Ok (addError builder DNotArray any type path)
  end.

(** The loop of [_onMap] over the sorted keys; each key is an own key of
    [any], so [any[key]] reads the own property. *)
Fixpoint mapLoop (cloneValue : cloneAt) (any : value) (path : path)
  (keys : list string) (builder : Builder) (val : list (string * value))
  : outcome (Builder * list (string * value)) :=
  match keys with
  | [] => Ok (builder, val)
  | key :: rest =>
      let anyValue := getProp any key in
      valueBuilder <- cloneValue anyValue (path ++ [PKey key]) ;;
      let builder := copyErrorsFrom builder valueBuilder in
      let val := if isOk builder then setProp val key (bvalue valueBuilder) else val in
      mapLoop cloneValue any path rest builder val
  end.

(** The guard shared by [_onRecord] and [_onMap]:
    [!any || typeof any != 'object']. *)
Definition notAnObject (any : value) : bool :=
  negb (truthy any) || negb (String.eqb (typeof any) "object").

(** [_onMap] past its guard: the entries, by sorted key. *)
Definition mapEntries (cloneValue : cloneAt) (any : value) (path : path)
  : outcome Builder :=
  let builder := newBuilder in
  names <- Object_keys any ;;
  let keys := sortKeys names in
  st <- mapLoop cloneValue any path keys builder [] ;;
  let '(builder, val) := st in
  Ok (if isOk builder then setValue builder (VObj val) else builder).

(** [Cloner.prototype._onMap] *)
Definition _onMap (cloneValue : cloneAt) (type : avtype) (any : value)
  (path : path) : outcome Builder :=
  let builder := newBuilder in
  if notAnObject any then Ok (addError builder DNotValidObject any type path)
  else mapEntries cloneValue any path.

(** The keys of the input that name no declared field, in key order. *)
Definition undeclaredFields (fields : list field) (fieldNames : list string)
  : list string :=
  filter (fun fieldName =>
            match fieldByName fieldName fields with
            | Some _ => false
            | None => true
            end) fieldNames.

(** The state of the field loop of [_onRecord]: the accumulator, the
    missing field names, and the positional values handed on (the source
    keeps one placeholder in front of them for the constructor call). *)
Definition recordState : Type := (Builder * list string * list value)%type.

(** One iteration of the field loop of [_onRecord]. *)
Definition recordField (any : value) (path : path) (st : recordState)
  (fc : field * cloneAt) : outcome recordState :=
  let '(builder, missingFields, args) := st in
  let '(field, cloneField) := fc in
  let fieldAny := readProp inherited any (fname field) in
  let fieldPath := path ++ [PKey (fname field)] in
  let defaultVal := fdefault field in
  if isUndefined fieldAny && isUndefined defaultVal then
    Ok (builder, missingFields ++ [fname field], args ++ [VUndefined])
  else if isUndefined fieldAny then
    if isToJSON (_mode this) && negb (_omitDefaultValues this) then
      defaultBuilder <- cloneField defaultVal fieldPath ;;
      Ok (builder, missingFields, args ++ [bvalue defaultBuilder])
    else Ok (builder, missingFields, args ++ [VUndefined])
  else
    fieldValBuilder <- cloneField fieldAny fieldPath ;;
    let builder := copyErrorsFrom builder fieldValBuilder in
    let fieldVal :=
      if _omitDefaultValues this
         && isOk fieldValBuilder
         && negb (isUndefined defaultVal)
         && Z.eqb (compare (ftype field) fieldAny defaultVal) 0
      then VUndefined
      else bvalue fieldValBuilder in
    Ok (builder, missingFields, args ++ [fieldVal]).

Fixpoint recordLoop (any : value) (path : path)
  (fieldClones : list (field * cloneAt)) (st : recordState)
  : outcome recordState :=
  match fieldClones with
  | [] => Ok st
  | fc :: rest =>
      st <- recordField any path st fc ;;
      recordLoop any path rest st
  end.

(** The object built under [TO_JSON]: every field whose value is not
    [undefined], in field order. *)
Fixpoint recordObject (fields : list field) (args : list value)
  (obj : list (string * value)) : list (string * value) :=
  match fields, args with
  | field :: fields, fieldVal :: args =>
      recordObject fields args
        (if isUndefined fieldVal then obj else setProp obj (fname field) fieldVal)
  | _, _ => obj
  end.

(** [_onRecord] past its guard: the undeclared-field check, the field
    loop, the missing-field report and the construction of the value. *)
Definition recordFields (fieldClones : list (field * cloneAt)) (type : avtype)
  (recordConstructor : list value -> value) (any : value) (path : path)
  : outcome Builder :=
  let fields := map fst fieldClones in
  let builder := newBuilder in
  builder <-
    (if _allowUndeclaredFields this then Ok builder
     else
       fieldNames <- Object_keys any ;;
       match undeclaredFields fields fieldNames with
       | [] => Ok builder
       | extraFields =>
           Ok (addError builder (DUndeclaredFields extraFields) any type path)
       end) ;;
  st <- recordLoop any path fieldClones (builder, [], []) ;;
  let '(builder, missingFields, args) := st in
  let builder :=
    match missingFields with
    | [] => builder
    | _ => addError builder (DMissingFields missingFields) any type path
    end in
  Ok (if isOk builder then
        if isToJSON (_mode this)
        then setValue builder (VObj (recordObject fields args []))
        else setValue builder (recordConstructor args)
      else builder).

(** [Cloner.prototype._onRecord] *)
Definition _onRecord (fieldClones : list (field * cloneAt)) (type : avtype)
  (recordConstructor : list value -> value) (any : value) (path : path)
  : outcome Builder :=
  let builder := newBuilder in
  if notAnObject any then Ok (addError builder DNotValidObject any type path)
  else recordFields fieldClones type recordConstructor any path.

(** Modelled from the spec: [unionType.type(key)], the lookup of a branch
    by name; the branch comes with its recursive call. *)
Fixpoint branchByName (key : string) (branches : list (avtype * cloneAt))
  : option (avtype * cloneAt) :=
  match branches with
  | [] => None
  | b :: rest =>
      if String.eqb (branchKey (fst b)) key then Some b else branchByName key rest
  end.

Definition isNullType (t : avtype) : bool := String.eqb (typeName t) "null".

(** The mode-dependent head of [_onUnion] for a non-null input: either an
    early return ([inl]) or the value to go on with ([inr]). *)
Definition unionResolve (types : list avtype) (unionType : avtype)
  (isWrapped : bool) (branchTypeOf : value -> option avtype)
  (any : value) (path : path) : outcome (Builder + value) :=
  let builder := newBuilder in
  if isFromDefaultJSON (_mode this) then
    match types with
    | [] => Throw (JsTypeError "Cannot read property 'typeName' of undefined")
    | branchType :: _ =>
        if isNullType branchType
        then Ok (inl (addError builder DNotFirstNull any unionType path))
        else Ok (inr (wrap branchType any))
    end
  else if isToJSON (_mode this) && negb isWrapped then
    match branchTypeOf any with
    | None => Ok (inl (addError builder DNotValidBranch any unionType path))
    | Some branchType => Ok (inr (wrap branchType any))
    end
  else Ok (inr any).

(** The tail of [_onUnion]: the single-key object [any] names its branch
    (the key is an own key of [any], so [any[key]] reads the own
    property). *)
Definition unionBranch (branches : list (avtype * cloneAt)) (unionType : avtype)
  (isWrapped : bool) (any : value) (path : path) : outcome Builder :=
  let builder := newBuilder in
  if negb (String.eqb (typeof any) "object")
  then Ok (addError builder DNotObject any unionType path)
  else
    keys <- Object_keys any ;;
    match keys with
    | [key] =>
        match branchByName key branches with
        | None => Ok (addError builder (DUnknownBranch key) any unionType path)
        | Some (branchType, cloneBranch) =>
            branchBuilder <- cloneBranch (getProp any key) (path ++ [PKey key]) ;;
            let builder := copyErrorsFrom builder branchBuilder in
            Ok (if isOk branchBuilder then
                  if isToJSON (_mode this)
                  then setValue builder
                         (VObj (setProp [] (branchKey branchType)
                                  (bvalue branchBuilder)))
                  else if negb isWrapped
                  then setValue builder (bvalue branchBuilder)
                  else setValue builder (wrap branchType (bvalue branchBuilder))
                else builder)
        end
    | _ => Ok (addError builder (DKeyCount keys) any unionType path)
    end.

(** [Cloner.prototype._onUnion] *)
Definition _onUnion (branches : list (avtype * cloneAt)) (unionType : avtype)
  (branchTypeOf : value -> option avtype) (any : value) (path : path)
  : outcome Builder :=
  let types := map fst branches in
  let isWrapped := String.eqb (typeName unionType) "union:wrapped" in
  let builder := newBuilder in
  match any with
  | VNull =>
      Ok (if existsb isNullType types
          then setValue builder VNull
          else addError builder DIsNull any unionType path)
  | _ =>
      resolved <- unionResolve types unionType isWrapped branchTypeOf any path ;;
      match resolved with
      | inl early => Ok early
      | inr any => unionBranch branches unionType isWrapped any path
      end
  end.

(** [Cloner.prototype.clone]: dispatch on the category of the type.  The
    source first raises "not a type" for an argument that is no type; every
    [avtype] is one, so that branch has no counterpart here. *)
Fixpoint clone (type : avtype) {struct type} : cloneAt :=
  match type with
  | TArray itemsType => _onArray (clone itemsType) type
  | TMap valuesType => _onMap (clone valuesType) type
  | TRecord _ _ fields recordConstructor =>
      _onRecord (map (fun f => (f, clone (ftype f))) fields) type recordConstructor
  | TUnion _ types branchTypeOf =>
      _onUnion (map (fun t => (t, clone t)) types) type branchTypeOf
  | TLogical _ underlyingType toValue fromValue =>
      _onLogical (clone underlyingType) type toValue fromValue
  | TPrim _ _ isValid => _onPrimitive type isValid
  end.

End Transcoder.

(** [Builder.prototype.build]: the value, or the one aggregated failure. *)
Definition build (b : Builder) (type : avtype) : outcome value :=
  match errors b with
  | [] => Ok (bvalue b)
  | _ :: _ => Throw (IncompatibleValue type (errors b))
  end.

Section EntryPoints.

Variable inherited : value -> string -> value.
Variable compare : avtype -> value -> value -> Z.

(** The internal [clone(mode, any, type, opts)] of [values.js]:
    [new Cloner(mode, opts).clone(any, type, []).build(type)]. *)
Definition cloneRoot (mode : Mode) (any : value) (type : avtype)
  (opts : option Options) : outcome value :=
  cloner <- newCloner mode opts ;;
  builder <- clone inherited compare cloner type any [] ;;
  build builder type.

Definition fromJSON := cloneRoot FROM_JSON.
Definition fromDefaultJSON := cloneRoot FROM_DEFAULT_JSON.
Definition toJSON := cloneRoot TO_JSON.

End EntryPoints.

(* ------------------------------------------------------------------ *)
(** ** Messages *)

Definition newline : string := String (ascii_of_nat 10) EmptyString.
Definition tab : string := String (ascii_of_nat 9) EmptyString.

Section Messages.

Local Open Scope string_scope.

(** Formatting done by the platform ([util.format] and [isNaN]): the [%j]
    rendering of a value, the [%s] rendering of an array of keys, and
    whether a key converts to a number. *)
Variable formatJSON : value -> string.
Variable formatKeys : list string -> string.
Variable keyIsNaN : string -> bool.

(** [joinPath] *)
Fixpoint joinPath (parts : path) : string :=
  match parts with
  | [] => ""
  | PKey part :: rest =>
      (if keyIsNaN part then "." ++ part else "[" ++ part ++ "]") ++ joinPath rest
  | PIndex part :: rest => "[" ++ string_of_nat part ++ "]" ++ joinPath rest
  end.

(** [typeInfo] *)
Definition typeInfo (type : avtype) : string :=
  if isType type ["union"] then
    match type with
    | TUnion _ types _ =>
        let names :=
          map (fun t => match branchName t with Some n => n | None => "" end) types in
        "a type among " ++ join ", " names
    | _ => ""
    end
  else if isType type ["logical"] then
    "type " ++ typeName type ++ " (" ++ nameText (branchName type) ++ ")"
  else "type " ++ nameText (branchName type).

(** The text of a description, as the call sites of [addError] format it. *)
Definition descText (d : errorDesc) : string :=
  match d with
  | DNotArray => "is not an array"
  | DNotValidObject => "is not a valid object"
  | DNotString => "is not a string"
  | DInvalidValue => "invalid value"
  | DUndeclaredFields extraFields =>
      "contains " ++ string_of_nat (List.length extraFields)
      ++ " undeclared field(s) (" ++ join ", " extraFields ++ ")"
  | DMissingFields missingFields =>
      "is missing " ++ string_of_nat (List.length missingFields)
      ++ " field(s) (" ++ join "," missingFields ++ ")"
  | DIsNull => "is null"
  | DNotFirstNull => "does not match first (null)"
  | DNotValidBranch => "is not a valid branch"
  | DNotObject => "is not an object"
  | DKeyCount keys =>
      "has " ++ string_of_nat (List.length keys) ++ " keys (" ++ formatKeys keys ++ ")"
  | DUnknownBranch key => "contains an unknown branch (" ++ key ++ ")"
  | DLogicalEncodingFailed None => "logical type encoding failed"
  | DLogicalEncodingFailed (Some message) =>
      "logical type encoding failed (" ++ message ++ ")"
  | DLogicalDecodingFailed message =>
      "logical type decoding failed (" ++ message ++ ")"
  end.

(** [err.message] of an error pushed by [addError]. *)
Definition errorMessage (e : ValueError) : string :=
  "$" ++ joinPath (errPath e) ++ " has " ++ typeInfo (errExpectedType e)
  ++ " but " ++ descText (errDesc e) ++ ": " ++ formatJSON (errValue e).

(** [err.message] of the failure raised by [build]. *)
Definition incompatibleMessage (type : avtype) (errs : list ValueError) : string :=
  let details := map (fun e => tab ++ errorMessage e) errs in
  string_of_nat (List.length errs) ++ " error(s) when expecting "
  ++ typeInfo type ++ ":" ++ newline ++ join newline details.

(** [err.code], [err.message], [err.type] and [err.errors] of a raised error. *)
Definition exnCode (e : exn) : option string :=
  match e with
  | IncompatibleValue _ _ => Some "ERR_AVRO_INCOMPATIBLE_VALUE"
  | _ => None
  end.

Definition exnMessage (e : exn) : string :=
  match e with
  | JsError message | JsTypeError message => message
  | IncompatibleValue type errs => incompatibleMessage type errs
  end.

End Messages.

(* ------------------------------------------------------------------ *)
(** ** Sample types and values *)

Module Samples.

Definition isNum (v : value) : bool := match v with VNum _ => true | _ => false end.
Definition isStr (v : value) : bool := match v with VStr _ => true | _ => false end.
Definition isBuf (v : value) : bool := match v with VBuf _ => true | _ => false end.

Definition nullType : avtype := TPrim KNull None isNull.
Definition intType : avtype := TPrim KInt None isNum.
Definition stringType : avtype := TPrim KString None isStr.
Definition bytesType : avtype := TPrim KBytes None isBuf.

(** A comparison for the samples: numbers by difference, anything else
    differs. *)
Definition numCompare (_ : avtype) (a b : value) : Z :=
  match a, b with
  | VNum x, VNum y => x - y
  | _, _ => 1
  end.

Definition recordOf (name : string) (fields : list field) : avtype :=
  TRecord false (Some name) fields (fun args => VObj (construct fields args)).

Definition noBranch (_ : value) : option avtype := None.

(** A platform for the samples: every object inherits the methods of
    [Object.prototype] and the [__proto__] accessor, an array also some
    methods of [Array.prototype]. *)
Definition objectPrototype : list string :=
  ["constructor"; "hasOwnProperty"; "isPrototypeOf"; "propertyIsEnumerable";
   "toLocaleString"; "toString"; "valueOf"].

Definition arrayPrototype : list string :=
  ["concat"; "forEach"; "indexOf"; "join"; "map"; "pop"; "push"; "slice"].

Definition inherited (o : value) (k : string) : value :=
  match o with
  | VUndefined | VNull => VUndefined
  | _ =>
      if String.eqb k "__proto__" then VObj []
      else if existsb (String.eqb k) objectPrototype then VFunction k
      else
        match o with
        | VArr _ => if existsb (String.eqb k) arrayPrototype then VFunction k
                    else VUndefined
        | _ => VUndefined
        end
  end.

End Samples.

(* ------------------------------------------------------------------ *)
(** ** Induction over the type tree *)

Section AvtypeInduction.

Variable P : avtype -> Prop.
Hypothesis HPrim : forall kind name isValid, P (TPrim kind name isValid).
Hypothesis HArray : forall itemsType, P itemsType -> P (TArray itemsType).
Hypothesis HMap : forall valuesType, P valuesType -> P (TMap valuesType).
Hypothesis HRecord : forall isError name fields ctor,
  Forall (fun f => P (ftype f)) fields -> P (TRecord isError name fields ctor).
Hypothesis HUnion : forall wrapped types branchTypeOf,
  Forall P types -> P (TUnion wrapped types branchTypeOf).
Hypothesis HLogical : forall name underlying toValue fromValue,
  P underlying -> P (TLogical name underlying toValue fromValue).

Fixpoint avtype_ind (t : avtype) : P t :=
  match t with
  | TPrim kind name isValid => HPrim kind name isValid
  | TArray itemsType => HArray (avtype_ind itemsType)
  | TMap valuesType => HMap (avtype_ind valuesType)
  | TRecord isError name fields ctor =>
      HRecord isError name ctor
        ((fix each (fs : list field) : Forall (fun f => P (ftype f)) fs :=
            match fs with
            | [] => Forall_nil _
            | f :: rest =>
                Forall_cons f
                  (match f return P (ftype f) with
                   | Field _ t' _ => avtype_ind t'
                   end)
                  (each rest)
            end) fields)
  | TUnion wrapped types branchTypeOf =>
      HUnion wrapped branchTypeOf
        ((fix each (ts : list avtype) : Forall P ts :=
            match ts with
            | [] => Forall_nil _
            | t' :: rest => Forall_cons t' (avtype_ind t') (each rest)
            end) types)
  | TLogical name underlying toValue fromValue =>
      HLogical name toValue fromValue (avtype_ind underlying)
  end.

End AvtypeInduction.

Unset Implicit Arguments.

(* ------------------------------------------------------------------ *)
(** ** Notions used in the statements *)

Ltac ok_inv H := inversion H; subst; clear H.

Definition isBufferKind (k : primKind) : bool :=
  match k with KBytes | KFixed => true | _ => false end.

Definition isRecordOrMap (t : avtype) : bool :=
  match t with
  | TMap _ | TRecord _ _ _ _ => true
  | _ => false
  end.

(** The error lies at [p] or below it. *)
Definition underPath (p : path) (e : ValueError) : Prop :=
  exists suffix, errPath e = p ++ suffix.

(** The error lies strictly below [p]. *)
Definition belowPath (p : path) (e : ValueError) : Prop :=
  exists step suffix, errPath e = p ++ step :: suffix.

(** The recursive calls of a node report at or below the path they get. *)
Definition reportsUnder (c : cloneAt) : Prop :=
  forall v p b, c v p = Ok b -> Forall (underPath p) (errors b).

(** The order [sort()] puts keys in. *)
Definition keyLe (a b : string) : Prop := String.leb a b = true.


(** The object that successive assignments build from [acc]. *)
Definition assignAll (acc : list (string * value)) (kvs : list (string * value))
  : list (string * value) :=
  fold_left (fun acc kv => setProp acc (fst kv) (snd kv)) kvs acc.

(** The item at position [fst ix] transcodes to [ib]. *)
Definition itemResult (cloneItem : cloneAt) (path : path)
  (ix : nat * value) (ib : Builder) : Prop :=
  cloneItem (snd ix) (path ++ [PIndex (fst ix)]) = Ok ib.

(** The items of an array, each with its position. *)
Definition positioned (items : list value) : list (nat * value) :=
  combine (seq 0 (List.length items)) items.

(** The entry of [key] of the map input [any] transcodes to [vb]. *)
Definition entryResult (cloneValue : cloneAt) (any : value) (path : path)
  (key : string) (vb : Builder) : Prop :=
  cloneValue (getProp any key) (path ++ [PKey key]) = Ok vb.

(** What one field contributes: its errors, its name when it is missing,
    and the value handed on for it. *)
Definition fieldResult (inherited : value -> string -> value)
  (compare : avtype -> value -> value -> Z) (this : Cloner)
  (any : value) (path : path) (fc : field * cloneAt)
  (r : list ValueError * list string * value) : Prop :=
  let '(errs, missing, v) := r in
  recordField inherited compare this any path (newBuilder, [], []) fc
  = Ok (mkBuilder VUndefined errs, missing, [v]).

(* ------------------------------------------------------------------ *)
(** ** Round trip: what is assumed of the type model and of the value *)

(** [unionType.type(key)] on the types themselves. *)
Fixpoint typeByName (key : string) (types : list avtype) : option avtype :=
  match types with
  | [] => None
  | t :: rest => if String.eqb (branchKey t) key then Some t else typeByName key rest
  end.

Inductive optRel {A : Type} (R : A -> A -> Prop) : option A -> option A -> Prop :=
| optRel_None : optRel R None None
| optRel_Some : forall x y, R x y -> optRel R (Some x) (Some y).

(** Structural equality of values: arrays position by position, objects
    key by key, whatever the order their properties were created in. *)
Inductive structEq : value -> value -> Prop :=
| structEq_refl : forall v, structEq v v
| structEq_array : forall items items',
    Forall2 structEq items items' -> structEq (VArr items) (VArr items')
| structEq_object : forall props props',
    (forall k, optRel structEq (assoc k props) (assoc k props')) ->
    structEq (VObj props) (VObj props').

Section RoundTrip.

Variable inherited : value -> string -> value.

(** Whether records may hold undeclared fields: the option
    [allowUndeclaredFields] of the encoder. *)
Variable allow : bool.

(** A value that is valid under a type: a primitive its validity
    predicate accepts (a byte sequence for a buffer kind), an array or a
    map of valid values, an object that holds a valid value for every
    field, except that a field with a default may be absent, and whose
    keys are declared fields unless undeclared fields are allowed, a
    value of a branch of the union (wrapped under the branch name for a
    wrapped union, resolved by the type model for an unwrapped one), or a
    value whose logical encoding is valid under the underlying type.  A
    map with the key [__proto__] is left out: the transcoder loses that
    entry (see [setProp]). *)
Inductive valid : avtype -> value -> Prop :=
| valid_primitive : forall kind name isValid v,
    isBufferKind kind = false -> isValid v = true ->
    valid (TPrim kind name isValid) v
| valid_buffer : forall kind name isValid bytes,
    isBufferKind kind = true -> isValid (VBuf bytes) = true ->
    valid (TPrim kind name isValid) (VBuf bytes)
| valid_array : forall itemsType items,
    Forall (valid itemsType) items ->
    valid (TArray itemsType) (VArr items)
| valid_map : forall valuesType props,
    NoDup (map fst props) ->
    ~ In "__proto__" (map fst props) ->
    Forall (fun kv => valid valuesType (snd kv)) props ->
    valid (TMap valuesType) (VObj props)
| valid_record : forall isError name fields ctor props,
    NoDup (map fst props) ->
    (allow = false ->
     forall k, In k (map fst props) -> In k (map fname fields)) ->
    (forall f, In f fields ->
       let x := readProp inherited (VObj props) (fname f) in
       (x = VUndefined -> fdefault f <> VUndefined)
       /\ (x <> VUndefined -> valid (ftype f) x)) ->
    valid (TRecord isError name fields ctor) (VObj props)
| valid_union_null : forall wrapped types branchTypeOf,
    existsb isNullType types = true ->
    valid (TUnion wrapped types branchTypeOf) VNull
| valid_union_wrapped : forall types branchTypeOf key branch v,
    typeByName key types = Some branch ->
    valid branch v ->
    valid (TUnion true types branchTypeOf) (VObj [(key, v)])
| valid_union_unwrapped : forall types branchTypeOf resolved branch v,
    v <> VNull ->
    branchTypeOf v = Some resolved ->
    typeByName (branchKey resolved) types = Some branch ->
    valid branch v ->
    valid (TUnion false types branchTypeOf) v
| valid_logical : forall name underlying toValue fromValue v u,
    toValue v = HReturn u -> u <> VUndefined ->
    valid underlying u ->
    valid (TLogical name underlying toValue fromValue) v.

(** A value in which every record holds exactly the declared fields: it
    lacks none and holds no undeclared one. *)
Inductive complete : avtype -> value -> Prop :=
| complete_primitive : forall kind name isValid v,
    complete (TPrim kind name isValid) v
| complete_array : forall itemsType items,
    Forall (complete itemsType) items ->
    complete (TArray itemsType) (VArr items)
| complete_map : forall valuesType props,
    Forall (fun kv => complete valuesType (snd kv)) props ->
    complete (TMap valuesType) (VObj props)
| complete_record : forall isError name fields ctor props,
    (forall k, In k (map fst props) -> In k (map fname fields)) ->
    (forall f, In f fields ->
       let x := readProp inherited (VObj props) (fname f) in
       x <> VUndefined /\ complete (ftype f) x) ->
    complete (TRecord isError name fields ctor) (VObj props)
| complete_union_null : forall wrapped types branchTypeOf,
    complete (TUnion wrapped types branchTypeOf) VNull
| complete_union_wrapped : forall types branchTypeOf key branch v,
    typeByName key types = Some branch ->
    complete branch v ->
    complete (TUnion true types branchTypeOf) (VObj [(key, v)])
| complete_union_unwrapped : forall types branchTypeOf resolved branch v,
    v <> VNull ->
    branchTypeOf v = Some resolved ->
    typeByName (branchKey resolved) types = Some branch ->
    complete branch v ->
    complete (TUnion false types branchTypeOf) v
| complete_logical : forall name underlying toValue fromValue v,
    complete (TLogical name underlying toValue fromValue) v.

Variable compare : avtype -> value -> value -> Z.

(** Whether the encoder was asked to omit default values. *)
Variable omit : bool.

(** The encoder leaves this field out when its input value is [x]. *)
Definition elided (f : field) (x : value) : bool :=
  omit && negb (isUndefined (fdefault f))
  && Z.eqb (compare (ftype f) x (fdefault f)) 0.

(** [agrees type v v']: [v'] is [v], up to the order of object keys, with
    the default of the field in place of every record field that [v]
    lacks or that the encoder leaves out, and without the undeclared
    fields of the records of [v]. *)
Inductive agrees : avtype -> value -> value -> Prop :=
| agrees_primitive : forall kind name isValid v,
    agrees (TPrim kind name isValid) v v
| agrees_array : forall itemsType items items',
    Forall2 (agrees itemsType) items items' ->
    agrees (TArray itemsType) (VArr items) (VArr items')
| agrees_map : forall valuesType props props',
    (forall k, optRel (agrees valuesType) (assoc k props) (assoc k props')) ->
    agrees (TMap valuesType) (VObj props) (VObj props')
| agrees_record : forall isError name fields ctor props props',
    map fst props' = map fname fields ->
    (forall f, In f fields ->
       let x := readProp inherited (VObj props) (fname f) in
       let x' := getProp (VObj props') (fname f) in
       (x = VUndefined -> omit = true -> x' = fdefault f)
       /\ (x = VUndefined -> omit = false -> agrees (ftype f) (fdefault f) x')
       /\ (x <> VUndefined -> elided f x = true -> x' = fdefault f)
       /\ (x <> VUndefined -> elided f x = false -> agrees (ftype f) x x')) ->
    agrees (TRecord isError name fields ctor) (VObj props) (VObj props')
| agrees_union_null : forall wrapped types branchTypeOf,
    agrees (TUnion wrapped types branchTypeOf) VNull VNull
| agrees_union_wrapped : forall types branchTypeOf key branch v v',
    typeByName key types = Some branch ->
    agrees branch v v' ->
    agrees (TUnion true types branchTypeOf) (VObj [(key, v)]) (VObj [(key, v')])
| agrees_union_unwrapped : forall types branchTypeOf resolved branch v v',
    v <> VNull ->
    branchTypeOf v = Some resolved ->
    typeByName (branchKey resolved) types = Some branch ->
    agrees branch v v' ->
    agrees (TUnion false types branchTypeOf) v v'
| agrees_logical : forall name underlying toValue fromValue v,
    agrees (TLogical name underlying toValue fromValue) v v.

(** What the round trip assumes of the type model.  Of a record: field
    names are distinct, none is [__proto__] or a property that plain
    objects inherit, the record constructor is the generated one
    ([construct]), and every declared default is a valid value of its
    field.  Of a union: no branch is named [__proto__].  Of a logical
    type: its hooks are inverse of each other. *)
Inductive wellFormed : avtype -> Prop :=
| wellFormed_primitive : forall kind name isValid,
    wellFormed (TPrim kind name isValid)
| wellFormed_array : forall itemsType,
    wellFormed itemsType -> wellFormed (TArray itemsType)
| wellFormed_map : forall valuesType,
    wellFormed valuesType -> wellFormed (TMap valuesType)
| wellFormed_record : forall isError name fields ctor,
    NoDup (map fname fields) ->
    (forall f, In f fields -> fname f <> "__proto__") ->
    (forall f props, In f fields -> inherited (VObj props) (fname f) = VUndefined) ->
    (forall args, ctor args = VObj (construct fields args)) ->
    (forall f, In f fields ->
       fdefault f <> VUndefined -> valid (ftype f) (fdefault f)) ->
    (forall f, In f fields -> wellFormed (ftype f)) ->
    wellFormed (TRecord isError name fields ctor)
| wellFormed_union : forall wrapped types branchTypeOf,
    (forall t, In t types -> branchKey t <> "__proto__") ->
    (forall t, In t types -> wellFormed t) ->
    wellFormed (TUnion wrapped types branchTypeOf)
| wellFormed_logical : forall name underlying toValue fromValue,
    wellFormed underlying ->
    (forall v u u',
       toValue v = HReturn u -> valid underlying u -> agrees underlying u u' ->
       fromValue u' = HReturn v) ->
    wellFormed (TLogical name underlying toValue fromValue).

End RoundTrip.

(** The call [c] turns [v] into the error-free result [j], at any path. *)
Definition yields (c : cloneAt) (v j : value) : Prop :=
  forall p, c v p = Ok (mkBuilder j []).

Section RoundTripNotions.

Variable inherited : value -> string -> value.
Variable compare : avtype -> value -> value -> Z.
Variable omit : bool.
Variables allowE allowD : bool.

(** The transcoder of [toJSON] and the one of [fromJSON]. *)
Definition encoder : Cloner := mkCloner TO_JSON allowE omit.
Definition decoder : Cloner := mkCloner FROM_JSON allowD false.

Definition valueOf (r : outcome Builder) : value :=
  match r with
  | Ok b => bvalue b
  | Throw _ => VUndefined
  end.

Definition encoded (t : avtype) (v : value) : value :=
  valueOf (clone inherited compare encoder t v []).

Definition decoded (t : avtype) (j : value) : value :=
  valueOf (clone inherited compare decoder t j []).

(** Encoding a valid value succeeds, decoding the encoding succeeds, and
    the decoded value agrees with the one encoded. *)
Definition roundTrips (t : avtype) : Prop :=
  forall v, valid inherited allowE t v ->
    exists j v',
      yields (clone inherited compare encoder t) v j
      /\ yields (clone inherited compare decoder t) j v'
      /\ agrees inherited compare omit t v v'.

End RoundTripNotions.

(** The flags [new Cloner] reads off the options. *)
Definition omitOf (opts : option Options) : bool :=
  match opts with
  | Some o => truthy (omitDefaultValues o)
  | None => false
  end.

Definition allowOf (opts : option Options) : bool :=
  match opts with
  | Some o => truthy (allowUndeclaredFields o)
  | None => false
  end.

(* ------------------------------------------------------------------ *)
(** ** Sample inputs *)

(** A record whose only field defaults to a string where an int is
    expected. *)
Definition badDefaultRecord : avtype :=
  Samples.recordOf "R" [Field "a" Samples.intType (VStr "oops")].

(** A record with the fields [a : int] and [b : array of int], neither with
    a default. *)
Definition twoFieldRecord : avtype :=
  Samples.recordOf "R"
    [Field "a" Samples.intType VUndefined;
     Field "b" (TArray Samples.intType) VUndefined].

(** The input lacks [a], and the second item of [b] is a string. *)
Definition twoProblems : value := VObj [("b", VArr [VNum 1; VStr "x"])].

Definition twoProblemsErrors : list ValueError :=
  [mkValueError DInvalidValue (VStr "x") Samples.intType [PKey "b"; PIndex 1];
   mkValueError (DMissingFields ["a"]) twoProblems twoFieldRecord []].

(** A record whose only field is an int with the default 5. *)
Definition defaultedRecord : avtype :=
  Samples.recordOf "R" [Field "a" Samples.intType (VNum 5)].

(** A record whose only field is named [__proto__], an int with the
    default 5, and the value of [JSON.parse('{"__proto__": 7}')], an object
    with the own property [__proto__]. *)
Definition protoRecord : avtype :=
  Samples.recordOf "R" [Field "__proto__" Samples.intType (VNum 5)].

Definition protoValue : value := VObj [("__proto__", VNum 7)].

(** A record with a defaulted int, a map of ints and a bytes field. *)
Definition sampleFields : list field :=
  [Field "a" Samples.intType (VNum 5);
   Field "b" (TMap Samples.intType) VUndefined;
   Field "c" Samples.bytesType VUndefined].

Definition sampleRecord : avtype := Samples.recordOf "R" sampleFields.

Definition sampleValue : value :=
  VObj [("c", VBuf [x41; xff]);
        ("b", VObj [("y", VNum 1); ("x", VNum 2)]);
        ("a", VNum 5)].

(** The sample value without its defaulted field [a] and with the
    undeclared field [z]. *)
Definition looseSampleValue : value :=
  VObj [("z", VNum 0);
        ("c", VBuf [x41; xff]);
        ("b", VObj [("y", VNum 1); ("x", VNum 2)])].


(* ------------------------------------------------------------------ *)
(** ** Notions used to state what a call reports and returns *)

(** The error [e] with [p] put in front of its path; the same for every
    error of an accumulator, and for the accumulator a call returns. *)
Definition prefixError (p : path) (e : ValueError) : ValueError :=
  mkValueError (errDesc e) (errValue e) (errExpectedType e) (p ++ errPath e).

Definition prefixBuilder (p : path) (b : Builder) : Builder :=
  mkBuilder (bvalue b) (map (prefixError p) (errors b)).

Definition prefixOutcome (p : path) (r : outcome Builder) : outcome Builder :=
  match r with
  | Ok b => Ok (prefixBuilder p b)
  | Throw e => Throw e
  end.

(** A recursive call that reports relative to the path it is given. *)
Definition relocates (c : cloneAt) : Prop :=
  forall v p q, c v (p ++ q) = prefixOutcome p (c v q).

(** A recursive call that always returns an accumulator. *)
Definition returns (c : cloneAt) : Prop :=
  forall v p, exists b, c v p = Ok b.

(** The types on which no step of the transcoder can raise in [mode]: no
    buffer kind under [TO_JSON] (where [toString] is read off the value of
    the accumulator), no union without branches under [FROM_DEFAULT_JSON]
    (where the first branch is read). *)
Inductive neverRaises (mode : Mode) : avtype -> Prop :=
| neverRaises_primitive : forall kind name isValid,
    isToJSON mode = false \/ isBufferKind kind = false ->
    neverRaises mode (TPrim kind name isValid)
| neverRaises_array : forall itemsType,
    neverRaises mode itemsType -> neverRaises mode (TArray itemsType)
| neverRaises_map : forall valuesType,
    neverRaises mode valuesType -> neverRaises mode (TMap valuesType)
| neverRaises_record : forall isError name fields ctor,
    (forall f, In f fields -> neverRaises mode (ftype f)) ->
    neverRaises mode (TRecord isError name fields ctor)
| neverRaises_union : forall wrapped types branchTypeOf,
    (forall t, In t types -> neverRaises mode t) ->
    (isFromDefaultJSON mode = true -> types <> []) ->
    neverRaises mode (TUnion wrapped types branchTypeOf)
| neverRaises_logical : forall name underlying toValue fromValue,
    neverRaises mode underlying ->
    neverRaises mode (TLogical name underlying toValue fromValue).

(** No union occurs in the type. *)
Inductive unionFree : avtype -> Prop :=
| unionFree_primitive : forall kind name isValid,
    unionFree (TPrim kind name isValid)
| unionFree_array : forall itemsType,
    unionFree itemsType -> unionFree (TArray itemsType)
| unionFree_map : forall valuesType,
    unionFree valuesType -> unionFree (TMap valuesType)
| unionFree_record : forall isError name fields ctor,
    (forall f, In f fields -> unionFree (ftype f)) ->
    unionFree (TRecord isError name fields ctor)
| unionFree_logical : forall name underlying toValue fromValue,
    unionFree underlying ->
    unionFree (TLogical name underlying toValue fromValue).

(** The names [_onRecord] collects as missing: the fields, in field order,
    that the input lacks and that declare no default. *)
Definition missingNames (inherited : value -> string -> value) (any : value)
  (fields : list field) : list string :=
  map fname
    (filter (fun f => isUndefined (readProp inherited any (fname f))
                      && isUndefined (fdefault f))
       fields).

(** The fields the input has: those whose read is not [undefined]. *)
Definition presentFields (inherited : value -> string -> value) (any : value)
  (fields : list field) : list field :=
  filter (fun f => negb (isUndefined (readProp inherited any (fname f)))) fields.

(** The report of undeclared fields, when there is one. *)
Definition undeclaredReport (this : Cloner) (any : value) (type : avtype)
  (path : path) (fields : list field) : list ValueError :=
  if _allowUndeclaredFields this then []
  else
    match undeclaredFields fields (ownKeys any) with
    | [] => []
    | extraFields => [mkValueError (DUndeclaredFields extraFields) any type path]
    end.

(** The report of missing fields, when there is one. *)
Definition missingReport (inherited : value -> string -> value) (any : value)
  (type : avtype) (path : path) (fields : list field) : list ValueError :=
  match missingNames inherited any fields with
  | [] => []
  | names => [mkValueError (DMissingFields names) any type path]
  end.

(** A key under which an assignment creates an own property: any key but
    [__proto__]. *)
Definition assignable (k : string) : bool := negb (String.eqb k "__proto__").

(** The fields whose handed-on value is not [undefined] and whose name is
    assignable, with that value. *)
Fixpoint keptFields (fields : list field) (args : list value)
  : list (string * value) :=
  match fields, args with
  | f :: fields, v :: args =>
      if isUndefined v || negb (assignable (fname f)) then keptFields fields args
      else (fname f, v) :: keptFields fields args
  | _, _ => []
  end.

(** The type [t] occurs in a type: it is the type itself, or occurs in its
    item type, value type, a field type, a branch or the underlying type. *)
Inductive occursIn (t : avtype) : avtype -> Prop :=
| occursIn_here : occursIn t t
| occursIn_items : forall itemsType,
    occursIn t itemsType -> occursIn t (TArray itemsType)
| occursIn_values : forall valuesType,
    occursIn t valuesType -> occursIn t (TMap valuesType)
| occursIn_field : forall isError name fields ctor f,
    In f fields -> occursIn t (ftype f) ->
    occursIn t (TRecord isError name fields ctor)
| occursIn_branch : forall wrapped types branchTypeOf branch,
    In branch types -> occursIn t branch ->
    occursIn t (TUnion wrapped types branchTypeOf)
| occursIn_underlying : forall name underlying toValue fromValue,
    occursIn t underlying ->
    occursIn t (TLogical name underlying toValue fromValue).

(** The errors of a recursive call expect types that occur in [root]. *)
Definition expectsWithin (root : avtype) (c : cloneAt) : Prop :=
  forall v p b,
    c v p = Ok b -> Forall (fun e => occursIn (errExpectedType e) root) (errors b).

(** The value that [_onRecord] hands on for the field [f] of a record
    without errors: for a field the input lacks, the value of its encoded
    default ([TO_JSON] without [omitDefaultValues]) or [undefined]; for a
    field the input has, its transcoded value, or [undefined] when the
    field is elided. *)
Definition handedOn (inherited : value -> string -> value)
  (compare : avtype -> value -> value -> Z) (this : Cloner)
  (any : value) (path : path) (f : field) (v : value) : Prop :=
  let fieldAny := readProp inherited any (fname f) in
  let fieldPath := path ++ [PKey (fname f)] in
  (fieldAny = VUndefined ->
   fdefault f <> VUndefined
   /\ if isToJSON (_mode this) && negb (_omitDefaultValues this)
      then exists db,
             clone inherited compare this (ftype f) (fdefault f) fieldPath = Ok db
             /\ v = bvalue db
      else v = VUndefined)
  /\ (fieldAny <> VUndefined ->
      exists fb,
        clone inherited compare this (ftype f) fieldAny fieldPath = Ok fb
        /\ errors fb = []
        /\ v = if _omitDefaultValues this
                  && negb (isUndefined (fdefault f))
                  && Z.eqb (compare (ftype f) fieldAny (fdefault f)) 0
               then VUndefined
               else bvalue fb).

(** The field [f] of the input transcodes to [fb], at the path extended
    by the field name. *)
Definition fieldCall (inherited : value -> string -> value)
  (compare : avtype -> value -> value -> Z) (this : Cloner)
  (any : value) (path : path) (f : field) (fb : Builder) : Prop :=
  clone inherited compare this (ftype f) (readProp inherited any (fname f))
    (path ++ [PKey (fname f)]) = Ok fb.

(** The value a union goes on with once its branch is resolved: under
    [FROM_DEFAULT_JSON] the input wrapped under the first branch, under
    [TO_JSON] for an unwrapped union the input wrapped under the branch the
    type model resolves, the input itself otherwise. *)
Inductive unionInput (this : Cloner) (wrapped : bool) (types : list avtype)
  (branchTypeOf : value -> option avtype) (any : value) : value -> Prop :=
| unionInput_first : forall first rest,
    isFromDefaultJSON (_mode this) = true ->
    types = first :: rest -> isNullType first = false ->
    unionInput this wrapped types branchTypeOf any (wrap first any)
| unionInput_resolved : forall branchType,
    isToJSON (_mode this) = true -> wrapped = false ->
    branchTypeOf any = Some branchType ->
    unionInput this wrapped types branchTypeOf any (wrap branchType any)
| unionInput_same :
    isFromDefaultJSON (_mode this) = false ->
    isToJSON (_mode this) = false \/ wrapped = true ->
    unionInput this wrapped types branchTypeOf any any.

Section Accumulation.

Variable inherited : value -> string -> value.
Variable compare : avtype -> value -> value -> Z.
Variable this : Cloner.

(** [accumulates type any path errs]: [errs] is what the node of [type]
    has to report for the input [any] at [path], given what its children
    report: its own errors lie at [path], and the errors of the children
    follow in the order the children are visited (items by position, map
    entries by sorted key, fields in field order between the report of
    undeclared fields and the report of missing fields, the branch of a
    union, the underlying type of a logical type). *)
Inductive accumulates : avtype -> value -> path -> list ValueError -> Prop :=
| accumulates_not_array : forall itemsType any path,
    (forall items, any <> VArr items) ->
    accumulates (TArray itemsType) any path
      [mkValueError DNotArray any (TArray itemsType) path]
| accumulates_items : forall itemsType items path ibs,
    Forall2 (itemResult (clone inherited compare this itemsType) path)
      (positioned items) ibs ->
    accumulates (TArray itemsType) (VArr items) path
      (List.concat (map errors ibs))
| accumulates_not_map : forall valuesType any path,
    notAnObject any = true ->
    accumulates (TMap valuesType) any path
      [mkValueError DNotValidObject any (TMap valuesType) path]
| accumulates_entries : forall valuesType any path vbs,
    notAnObject any = false ->
    Forall2 (entryResult (clone inherited compare this valuesType) any path)
      (sortKeys (ownKeys any)) vbs ->
    accumulates (TMap valuesType) any path (List.concat (map errors vbs))
| accumulates_not_record : forall isError name fields ctor any path,
    notAnObject any = true ->
    accumulates (TRecord isError name fields ctor) any path
      [mkValueError DNotValidObject any (TRecord isError name fields ctor) path]
| accumulates_fields : forall isError name fields ctor any path fbs,
    notAnObject any = false ->
    Forall2 (fieldCall inherited compare this any path)
      (presentFields inherited any fields) fbs ->
    accumulates (TRecord isError name fields ctor) any path
      (undeclaredReport this any (TRecord isError name fields ctor) path fields
       ++ List.concat (map errors fbs)
       ++ missingReport inherited any (TRecord isError name fields ctor) path
            fields)
| accumulates_null : forall wrapped types branchTypeOf path,
    existsb isNullType types = true ->
    accumulates (TUnion wrapped types branchTypeOf) VNull path []
| accumulates_is_null : forall wrapped types branchTypeOf path,
    existsb isNullType types = false ->
    accumulates (TUnion wrapped types branchTypeOf) VNull path
      [mkValueError DIsNull VNull (TUnion wrapped types branchTypeOf) path]
| accumulates_first_null : forall wrapped types branchTypeOf any path first rest,
    any <> VNull ->
    isFromDefaultJSON (_mode this) = true ->
    types = first :: rest -> isNullType first = true ->
    accumulates (TUnion wrapped types branchTypeOf) any path
      [mkValueError DNotFirstNull any (TUnion wrapped types branchTypeOf) path]
| accumulates_no_branch : forall types branchTypeOf any path,
    any <> VNull ->
    isToJSON (_mode this) = true ->
    branchTypeOf any = None ->
    accumulates (TUnion false types branchTypeOf) any path
      [mkValueError DNotValidBranch any (TUnion false types branchTypeOf) path]
| accumulates_not_object : forall wrapped types branchTypeOf any path any',
    any <> VNull ->
    unionInput this wrapped types branchTypeOf any any' ->
    typeof any' <> "object" ->
    accumulates (TUnion wrapped types branchTypeOf) any path
      [mkValueError DNotObject any' (TUnion wrapped types branchTypeOf) path]
| accumulates_key_count : forall wrapped types branchTypeOf any path any',
    any <> VNull ->
    unionInput this wrapped types branchTypeOf any any' ->
    typeof any' = "object" ->
    (forall key, ownKeys any' <> [key]) ->
    accumulates (TUnion wrapped types branchTypeOf) any path
      [mkValueError (DKeyCount (ownKeys any')) any'
         (TUnion wrapped types branchTypeOf) path]
| accumulates_unknown_branch : forall wrapped types branchTypeOf any path any' key,
    any <> VNull ->
    unionInput this wrapped types branchTypeOf any any' ->
    typeof any' = "object" ->
    ownKeys any' = [key] ->
    typeByName key types = None ->
    accumulates (TUnion wrapped types branchTypeOf) any path
      [mkValueError (DUnknownBranch key) any'
         (TUnion wrapped types branchTypeOf) path]
| accumulates_branch : forall wrapped types branchTypeOf any path any' key branch bb,
    any <> VNull ->
    unionInput this wrapped types branchTypeOf any any' ->
    typeof any' = "object" ->
    ownKeys any' = [key] ->
    typeByName key types = Some branch ->
    clone inherited compare this branch (getProp any' key) (path ++ [PKey key])
      = Ok bb ->
    accumulates (TUnion wrapped types branchTypeOf) any path (errors bb)
| accumulates_encoding_raised : forall name underlying toValue fromValue any path
                                       message,
    isToJSON (_mode this) = true ->
    toValue any = HThrow message ->
    accumulates (TLogical name underlying toValue fromValue) any path
      [mkValueError (DLogicalEncodingFailed (Some message)) any
         (TLogical name underlying toValue fromValue) path]
| accumulates_encoding_undefined : forall name underlying toValue fromValue any path,
    isToJSON (_mode this) = true ->
    toValue any = HReturn VUndefined ->
    accumulates (TLogical name underlying toValue fromValue) any path
      [mkValueError (DLogicalEncodingFailed None) any
         (TLogical name underlying toValue fromValue) path]
| accumulates_encoded : forall name underlying toValue fromValue any path u ub,
    isToJSON (_mode this) = true ->
    toValue any = HReturn u -> u <> VUndefined ->
    clone inherited compare this underlying u path = Ok ub ->
    accumulates (TLogical name underlying toValue fromValue) any path (errors ub)
| accumulates_underlying : forall name underlying toValue fromValue any path ub,
    isToJSON (_mode this) = false ->
    clone inherited compare this underlying any path = Ok ub ->
    errors ub <> [] ->
    accumulates (TLogical name underlying toValue fromValue) any path (errors ub)
| accumulates_decoding_raised : forall name underlying toValue fromValue any path
                                       ub message,
    isToJSON (_mode this) = false ->
    clone inherited compare this underlying any path = Ok ub ->
    errors ub = [] ->
    fromValue (bvalue ub) = HThrow message ->
    accumulates (TLogical name underlying toValue fromValue) any path
      [mkValueError (DLogicalDecodingFailed message) any
         (TLogical name underlying toValue fromValue) path]
| accumulates_decoded : forall name underlying toValue fromValue any path ub v,
    isToJSON (_mode this) = false ->
    clone inherited compare this underlying any path = Ok ub ->
    errors ub = [] ->
    fromValue (bvalue ub) = HReturn v ->
    accumulates (TLogical name underlying toValue fromValue) any path []
| accumulates_not_string : forall kind name isValid any path,
    isBufferKind kind = true ->
    isToJSON (_mode this) = false ->
    (forall s, any <> VStr s) ->
    accumulates (TPrim kind name isValid) any path
      [mkValueError DNotString any (TPrim kind name isValid) path]
| accumulates_invalid_bytes : forall kind name isValid s path,
    isBufferKind kind = true ->
    isToJSON (_mode this) = false ->
    isValid (bufferFromBinary s) = false ->
    accumulates (TPrim kind name isValid) (VStr s) path
      [mkValueError DInvalidValue (VStr s) (TPrim kind name isValid) path]
| accumulates_bytes : forall kind name isValid s path,
    isBufferKind kind = true ->
    isToJSON (_mode this) = false ->
    isValid (bufferFromBinary s) = true ->
    accumulates (TPrim kind name isValid) (VStr s) path []
| accumulates_encoded_bytes : forall kind name isValid any path,
    isBufferKind kind = true ->
    isToJSON (_mode this) = true ->
    isValid any = true ->
    accumulates (TPrim kind name isValid) any path []
| accumulates_invalid : forall kind name isValid any path,
    isBufferKind kind = false ->
    isValid any = false ->
    accumulates (TPrim kind name isValid) any path
      [mkValueError DInvalidValue any (TPrim kind name isValid) path]
| accumulates_valid : forall kind name isValid any path,
    isBufferKind kind = false ->
    isValid any = true ->
    accumulates (TPrim kind name isValid) any path [].

End Accumulation.

(* ------------------------------------------------------------------ *)
(** ** Keys and properties *)

Lemma arrayIndex_canonical (k : string) (n : N) :
  arrayIndex k = Some n -> string_of_N n = k.
Proof.
  unfold arrayIndex.
  destruct (NilEmpty.uint_of_string k) as [u|]; [|discriminate].
  destruct (String.eqb (string_of_N (N.of_uint u)) k) eqn:E; simpl; [|discriminate].
  destruct (N.ltb (N.of_uint u) 4294967295); [|discriminate].
  intros H; inversion H; subst. now apply String.eqb_eq.
Qed.

Lemma enumerationOrder_single (k : string) : enumerationOrder [k] = [k].
Proof.
  unfold enumerationOrder, isNamedKey. simpl.
  destruct (arrayIndex k) as [n|] eqn:E; simpl; [|reflexivity].
  now rewrite (arrayIndex_canonical _ _ E).
Qed.

Lemma ownKeys_single (k : string) (v : value) : ownKeys (VObj [(k, v)]) = [k].
Proof. apply enumerationOrder_single. Qed.

Lemma getProp_single (k : string) (v : value) : getProp (VObj [(k, v)]) k = v.
Proof. simpl. now rewrite String.eqb_refl. Qed.

Lemma isOk_true (b : Builder) : isOk b = true <-> errors b = [].
Proof. unfold isOk. destruct (errors b); split; congruence. Qed.

Lemma isOk_false (b : Builder) : isOk b = false <-> errors b <> [].
Proof. unfold isOk. destruct (errors b); split; congruence. Qed.

Lemma errors_record_result (b : Builder) (c : bool) (v1 v2 : value) :
  errors (if isOk b then if c then setValue b v1 else setValue b v2 else b)
  = errors b.
Proof. now destruct (isOk b), c. Qed.

Lemma isOk_errors (b : Builder) : isOk b = true <-> errors b = [].
Proof. unfold isOk. destruct (errors b); split; congruence. Qed.

Lemma app_nil_both {A : Type} (l l' : list A) : l ++ l' = [] -> l = [] /\ l' = [].
Proof. now destruct l, l'. Qed.

(* ------------------------------------------------------------------ *)
(** ** Transcoder options *)

(** C5. A transcoder asked to omit default values in a mode other than
    [TO_JSON] is refused at construction: [fromJSON] and [fromDefaultJSON]
    raise the configuration error whatever the value and the type are, and
    the same options construct a transcoder under [TO_JSON]. *)
Theorem omitDefaultValues_only_to_json :
  forall inherited compare (any : value) (type : avtype) (opts : Options),
    truthy (omitDefaultValues opts) = true ->
    fromJSON inherited compare any type (Some opts) = Throw (JsError "invalid cloner options")
    /\ fromDefaultJSON inherited compare any type (Some opts)
       = Throw (JsError "invalid cloner options")
    /\ newCloner TO_JSON (Some opts)
       = Ok (mkCloner TO_JSON (truthy (allowUndeclaredFields opts)) true).
Proof.
  intros inherited compare any type opts Homit.
  unfold fromJSON, fromDefaultJSON, cloneRoot, newCloner; simpl.
  rewrite Homit; simpl. repeat split.
Qed.

Lemma omitDefaultValues_only_to_json_witness :
  let opts := mkOptions VUndefined (VBool true) in
  fromJSON Samples.inherited Samples.numCompare (VNum 1) Samples.intType (Some opts)
    = Throw (JsError "invalid cloner options")
  /\ fromDefaultJSON Samples.inherited Samples.numCompare (VNum 1) Samples.intType (Some opts)
    = Throw (JsError "invalid cloner options")
  /\ newCloner TO_JSON (Some opts) = Ok (mkCloner TO_JSON false true).
Proof.
  exact (@omitDefaultValues_only_to_json Samples.inherited Samples.numCompare (VNum 1) Samples.intType
           (mkOptions VUndefined (VBool true)) eq_refl).
Defined.

(* ------------------------------------------------------------------ *)
(** ** Unions *)

Lemma branchByName_head inherited compare this (first : avtype) (rest : list avtype) :
  branchByName (branchKey first)
    (map (fun t => (t, clone inherited compare this t)) (first :: rest))
  = Some (first, clone inherited compare this first).
Proof. simpl. now rewrite String.eqb_refl. Qed.

Lemma map_fst_branches (types : list avtype) (alt : avtype -> cloneAt) :
  map fst (map (fun t => (t, alt t)) types) = types.
Proof. rewrite map_map. simpl. apply map_id. Qed.

Lemma unionBranch_single this (branches : list (avtype * cloneAt))
  (unionType : avtype) (isWrapped : bool) (key : string) (v : value) (path : path) :
  unionBranch this branches unionType isWrapped (VObj [(key, v)]) path =
    match branchByName key branches with
    | None =>
        Ok (addError newBuilder (DUnknownBranch key) (VObj [(key, v)]) unionType path)
    | Some (branchType, cloneBranch) =>
        branchBuilder <- cloneBranch v (path ++ [PKey key]) ;;
        Ok (if isOk branchBuilder then
              if isToJSON (_mode this)
              then setValue (copyErrorsFrom newBuilder branchBuilder)
                     (VObj (setProp [] (branchKey branchType)
                              (bvalue branchBuilder)))
              else if negb isWrapped
              then setValue (copyErrorsFrom newBuilder branchBuilder)
                     (bvalue branchBuilder)
              else setValue (copyErrorsFrom newBuilder branchBuilder)
                     (wrap branchType (bvalue branchBuilder))
            else copyErrorsFrom newBuilder branchBuilder)
    end.
Proof.
  unfold unionBranch.
  change (negb (String.eqb (typeof (VObj [(key, v)])) "object")) with false.
  cbv iota. unfold Object_keys. rewrite ownKeys_single. unfold bind at 1.
  now rewrite getProp_single.
Qed.

Lemma value_is_null (v : value) : v = VNull \/ v <> VNull.
Proof. destruct v; (now left) || (right; discriminate). Qed.

Lemma typeByName_Some (key : string) (types : list avtype) (t : avtype) :
  typeByName key types = Some t -> In t types /\ branchKey t = key.
Proof.
  induction types as [|t0 rest IH]; simpl; [discriminate|].
  destruct (String.eqb (branchKey t0) key) eqn:E.
  - intros H; ok_inv H. split; [now left | now apply String.eqb_eq].
  - intros H. destruct (IH H). split; [now right | assumption].
Qed.

Lemma branchByName_typeByName (key : string) (types : list avtype)
  (c : avtype -> cloneAt) :
  branchByName key (map (fun t => (t, c t)) types)
  = match typeByName key types with
    | Some t => Some (t, c t)
    | None => None
    end.
Proof.
  induction types as [|t rest IH]; simpl; [reflexivity|].
  now destruct (String.eqb (branchKey t) key).
Qed.

Lemma onUnion_not_null this (branches : list (avtype * cloneAt)) unionType
  branchTypeOf (any : value) (p : path) :
  any <> VNull ->
  _onUnion this branches unionType branchTypeOf any p
  = (resolved <- unionResolve this (map fst branches) unionType
                   (String.eqb (typeName unionType) "union:wrapped")
                   branchTypeOf any p ;;
     match resolved with
     | inl early => Ok early
     | inr any' =>
         unionBranch this branches unionType
           (String.eqb (typeName unionType) "union:wrapped") any' p
     end).
Proof. intros Hany. destruct any; try reflexivity. now elim Hany. Qed.

(** C7. Against a union, in every mode, the literal [null] yields the value
    [null] when some branch is the null type and the single error "is null"
    otherwise; the answer is the same whatever the recursive calls of the
    branches would do, so no branch is entered. *)
Theorem union_null_input :
  forall inherited compare this wrapped types branchTypeOf (path : path),
    let unionType := TUnion wrapped types branchTypeOf in
    let answer :=
      if existsb isNullType types
      then mkBuilder VNull []
      else mkBuilder VUndefined [mkValueError DIsNull VNull unionType path] in
    clone inherited compare this unionType VNull path = Ok answer
    /\ (forall alt : avtype -> cloneAt,
          _onUnion this (map (fun t => (t, alt t)) types) unionType branchTypeOf
            VNull path = Ok answer)
    /\ (existsb isNullType types = true
        <-> exists t, In t types /\ typeName t = "null").
Proof.
  intros inherited compare this wrapped types branchTypeOf path unionType answer.
  assert (Halt : forall alt : avtype -> cloneAt,
             _onUnion this (map (fun t => (t, alt t)) types) unionType branchTypeOf
               VNull path = Ok answer).
  { intros alt. unfold _onUnion. rewrite map_fst_branches.
    subst answer. now destruct (existsb isNullType types). }
  split; [exact (Halt (clone inherited compare this))|].
  split; [exact Halt|].
  rewrite existsb_exists. unfold isNullType.
  split; intros [t [Hin Ht]]; exists t; split; auto; now apply String.eqb_eq.
Qed.

(** C8. Under [FROM_DEFAULT_JSON] a non-null input against a union is
    decoded with the first declared branch, whatever the input is: when
    that branch is the null type the single error "does not match first
    (null)" is accumulated and no value is produced; otherwise the result
    is the one of the first branch on the input, at the path extended by
    the branch name. *)
Theorem union_default_uses_first_branch :
  forall inherited compare allow omit wrapped first rest branchTypeOf (any : value) (path : path),
    any <> VNull ->
    let this := mkCloner FROM_DEFAULT_JSON allow omit in
    let unionType := TUnion wrapped (first :: rest) branchTypeOf in
    clone inherited compare this unionType any path =
      if isNullType first
      then Ok (mkBuilder VUndefined
                 [mkValueError DNotFirstNull any unionType path])
      else
        branchBuilder <-
          clone inherited compare this first any (path ++ [PKey (branchKey first)]) ;;
        Ok (if isOk branchBuilder
            then mkBuilder (if wrapped then wrap first (bvalue branchBuilder)
                            else bvalue branchBuilder) []
            else mkBuilder VUndefined (errors branchBuilder)).
Proof.
  intros inherited compare allow omit wrapped first rest branchTypeOf any path Hnull this unionType.
  assert (Hgo :
    (resolved <- unionResolve this (first :: rest) unionType
                   (String.eqb (typeName unionType) "union:wrapped")
                   branchTypeOf any path ;;
     match resolved with
     | inl early => Ok early
     | inr any' =>
         unionBranch this (map (fun t => (t, clone inherited compare this t)) (first :: rest))
           unionType (String.eqb (typeName unionType) "union:wrapped") any' path
     end)
    = if isNullType first
      then Ok (mkBuilder VUndefined [mkValueError DNotFirstNull any unionType path])
      else
        branchBuilder <-
          clone inherited compare this first any (path ++ [PKey (branchKey first)]) ;;
        Ok (if isOk branchBuilder
            then mkBuilder (if wrapped then wrap first (bvalue branchBuilder)
                            else bvalue branchBuilder) []
            else mkBuilder VUndefined (errors branchBuilder))).
  { unfold unionResolve. simpl isFromDefaultJSON. cbv iota.
    destruct (isNullType first) eqn:Hfirst; [reflexivity|].
    unfold bind at 1. unfold wrap at 1. rewrite unionBranch_single.
    rewrite branchByName_head.
    destruct (clone inherited compare this first any (path ++ [PKey (branchKey first)]))
      as [bb|e]; [|reflexivity].
    unfold bind, copyErrorsFrom, setValue. simpl.
    destruct (isOk bb) eqn:Hok.
    - apply isOk_true in Hok. rewrite Hok. now destruct wrapped.
    - reflexivity. }
  destruct any; try exact Hgo. now elim Hnull.
Qed.

Lemma union_default_uses_first_branch_witness :
  clone Samples.inherited Samples.numCompare (mkCloner FROM_DEFAULT_JSON false false)
    (TUnion false [Samples.intType; Samples.stringType] Samples.noBranch)
    (VNum 3) []
  = Ok (mkBuilder (VNum 3) []).
Proof.
  rewrite (@union_default_uses_first_branch Samples.inherited Samples.numCompare false false false
             Samples.intType [Samples.stringType] Samples.noBranch (VNum 3) []);
    [reflexivity | discriminate].
Defined.

(* ------------------------------------------------------------------ *)
(** ** Primitives and buffers *)

Lemma isType_buffer (k : primKind) (name : option string) (isValid : value -> bool) :
  isType (TPrim k name isValid) ["bytes"; "fixed"] = isBufferKind k.
Proof. now destruct k. Qed.

(** Outside [TO_JSON], and for every kind that is not a buffer kind, a
    value the validity predicate rejects is reported as "invalid value". *)
Lemma invalid_value_accumulated inherited compare this (k : primKind) name isValid
  (any : value) (path : path) :
  isValid any = false ->
  isBufferKind k = false ->
  clone inherited compare this (TPrim k name isValid) any path
  = Ok (mkBuilder VUndefined
          [mkValueError DInvalidValue any (TPrim k name isValid) path]).
Proof.
  intros Hinvalid Hkind. simpl. unfold _onPrimitive.
  rewrite isType_buffer, Hkind. simpl. unfold primitiveCheck.
  rewrite Hinvalid. simpl. now rewrite andb_false_r.
Qed.

Lemma invalid_buffer_accumulated_on_decode inherited compare this (k : primKind) name
  isValid (s : string) (path : path) :
  _mode this <> TO_JSON ->
  isBufferKind k = true ->
  isValid (bufferFromBinary s) = false ->
  clone inherited compare this (TPrim k name isValid) (VStr s) path
  = Ok (mkBuilder VUndefined
          [mkValueError DInvalidValue (VStr s) (TPrim k name isValid) path]).
Proof.
  intros Hmode Hkind Hinvalid. simpl. unfold _onPrimitive.
  rewrite isType_buffer, Hkind.
  assert (Hto : isToJSON (_mode this) = false)
    by (destruct (_mode this) eqn:E; try reflexivity; now elim Hmode).
  rewrite Hto. simpl. unfold primitiveCheck. rewrite Hinvalid, Hto. reflexivity.
Qed.

(** Under [TO_JSON], a buffer kind whose validity predicate rejects the
    value records the error and then reads [toString] off the unset value:
    the call raises instead of returning the accumulator. *)
Lemma invalid_buffer_raises_on_encode inherited compare this (k : primKind) name isValid
  (any : value) (path : path) :
  _mode this = TO_JSON ->
  isBufferKind k = true ->
  isValid any = false ->
  clone inherited compare this (TPrim k name isValid) any path
  = Throw (JsTypeError "Cannot read property 'toString' of undefined").
Proof.
  intros Hmode Hkind Hinvalid. simpl. unfold _onPrimitive.
  rewrite isType_buffer, Hkind, Hmode. simpl. unfold primitiveCheck.
  rewrite Hinvalid, Hmode. reflexivity.
Qed.

(** C2 (the input on which the code departs from the claim). Encoding the
    number 1 against the bytes type: the validity predicate rejects it, the
    transcoder raises a [TypeError] during the traversal, and [toJSON]
    raises that same error, not the aggregated failure. *)
Theorem invalid_buffer_to_json_uncontrolled_exception :
  Samples.isBuf (VNum 1) = false
  /\ clone Samples.inherited Samples.numCompare (mkCloner TO_JSON false false) Samples.bytesType
       (VNum 1) []
     = Throw (JsTypeError "Cannot read property 'toString' of undefined")
  /\ toJSON Samples.inherited Samples.numCompare (VNum 1) Samples.bytesType None
     = Throw (JsTypeError "Cannot read property 'toString' of undefined").
Proof. repeat split. Qed.

(* ------------------------------------------------------------------ *)
(** ** Records: absent fields *)

(** C9. Under [TO_JSON] without [omitDefaultValues], a field that is absent
    from the input and has a default hands on the value of the transcoded
    default and nothing else: the accumulator and the missing-field list
    are unchanged, whatever errors the transcoding of the default
    collected. *)
Theorem absent_field_default_errors_dropped :
  forall inherited compare allow (any : value) (path : path) (builder : Builder)
         (missingFields : list string) (args : list value)
         (field : field) (cloneField : cloneAt),
    readProp inherited any (fname field) = VUndefined ->
    fdefault field <> VUndefined ->
    recordField inherited compare (mkCloner TO_JSON allow false) any path
      (builder, missingFields, args) (field, cloneField)
    = (defaultBuilder <-
         cloneField (fdefault field) (path ++ [PKey (fname field)]) ;;
       Ok (builder, missingFields, args ++ [bvalue defaultBuilder])).
Proof.
  intros inherited compare allow any path builder missingFields args field cloneField
    Habsent Hdefault.
  unfold recordField. rewrite Habsent. simpl.
  destruct (fdefault field); simpl; try reflexivity. now elim Hdefault.
Qed.

Lemma absent_field_default_errors_dropped_witness :
  clone Samples.inherited Samples.numCompare (mkCloner TO_JSON false false) Samples.intType
    (VStr "oops") [PKey "a"]
  = Ok (mkBuilder VUndefined
          [mkValueError DInvalidValue (VStr "oops") Samples.intType [PKey "a"]])
  /\ recordField Samples.inherited Samples.numCompare (mkCloner TO_JSON false false) (VObj []) []
       (newBuilder, [], [])
       (Field "a" Samples.intType (VStr "oops"),
        clone Samples.inherited Samples.numCompare (mkCloner TO_JSON false false) Samples.intType)
     = Ok (newBuilder, [], [VUndefined])
  /\ toJSON Samples.inherited Samples.numCompare (VObj []) badDefaultRecord None = Ok (VObj []).
Proof.
  split; [reflexivity|]. split; [|reflexivity].
  rewrite (@absent_field_default_errors_dropped Samples.inherited Samples.numCompare false (VObj []) []
             newBuilder [] [] (Field "a" Samples.intType (VStr "oops"))
             (clone Samples.inherited Samples.numCompare (mkCloner TO_JSON false false) Samples.intType)
             eq_refl);
    [reflexivity | discriminate].
Defined.

(* ------------------------------------------------------------------ *)
(** ** Where errors come from *)

Section ErrorsOfLoops.

Variable inherited : value -> string -> value.
Variable compare : avtype -> value -> value -> Z.
Variable this : Cloner.
Variable P : ValueError -> Prop.

Lemma arrayLoop_Forall (cloneItem : cloneAt) (path : path) :
  (forall i item b, cloneItem item (path ++ [PIndex i]) = Ok b ->
                    Forall P (errors b)) ->
  forall items i builder val builder' val',
    arrayLoop cloneItem path items i builder val = Ok (builder', val') ->
    Forall P (errors builder) -> Forall P (errors builder').
Proof.
  intros Hitem. induction items as [|item rest IH];
    intros i builder val builder' val' Hloop Hacc; simpl in Hloop.
  - now inversion Hloop; subst.
  - destruct (cloneItem item (path ++ [PIndex i])) as [ib|e] eqn:E;
      simpl in Hloop; [|discriminate].
    eapply IH; [exact Hloop|]. simpl. apply Forall_app. split; eauto.
Qed.

Lemma mapLoop_Forall (cloneValue : cloneAt) (any : value) (path : path) :
  (forall key v b, cloneValue v (path ++ [PKey key]) = Ok b ->
                   Forall P (errors b)) ->
  forall keys builder val builder' val',
    mapLoop cloneValue any path keys builder val = Ok (builder', val') ->
    Forall P (errors builder) -> Forall P (errors builder').
Proof.
  intros Hvalue. induction keys as [|key rest IH];
    intros builder val builder' val' Hloop Hacc; simpl in Hloop.
  - now inversion Hloop; subst.
  - destruct (cloneValue (getProp any key) (path ++ [PKey key])) as [vb|e] eqn:E;
      simpl in Hloop; [|discriminate].
    eapply IH; [exact Hloop|]. simpl. apply Forall_app. split; eauto.
Qed.

Lemma recordField_Forall (any : value) (path : path) (fc : field * cloneAt) :
  (forall v b, snd fc v (path ++ [PKey (fname (fst fc))]) = Ok b ->
               Forall P (errors b)) ->
  forall builder missing args builder' missing' args',
    recordField inherited compare this any path (builder, missing, args) fc
      = Ok (builder', missing', args') ->
    Forall P (errors builder) -> Forall P (errors builder').
Proof.
  destruct fc as [f cloneField]. simpl.
  intros Hfield builder missing args builder' missing' args' Hstep Hacc.
  unfold recordField in Hstep.
  destruct (isUndefined (readProp inherited any (fname f)) && isUndefined (fdefault f)).
  { now inversion Hstep; subst. }
  destruct (isUndefined (readProp inherited any (fname f))).
  - destruct (isToJSON (_mode this) && negb (_omitDefaultValues this)).
    + destruct (cloneField (fdefault f) (path ++ [PKey (fname f)]));
        simpl in Hstep; [|discriminate]. now inversion Hstep; subst.
    + now inversion Hstep; subst.
  - destruct (cloneField (readProp inherited any (fname f)) (path ++ [PKey (fname f)]))
      as [fb|e] eqn:E; simpl in Hstep; [|discriminate].
    inversion Hstep; subst. simpl. apply Forall_app. split; eauto.
Qed.

Lemma recordLoop_Forall (any : value) (path : path) :
  forall (fieldClones : list (field * cloneAt)),
    Forall (fun fc => forall v b,
              snd fc v (path ++ [PKey (fname (fst fc))]) = Ok b ->
              Forall P (errors b)) fieldClones ->
    forall builder missing args builder' missing' args',
      recordLoop inherited compare this any path fieldClones (builder, missing, args)
        = Ok (builder', missing', args') ->
      Forall P (errors builder) -> Forall P (errors builder').
Proof.
  induction fieldClones as [|fc rest IH];
    intros Hall builder missing args builder' missing' args' Hloop Hacc;
    cbn [recordLoop] in Hloop.
  - now inversion Hloop; subst.
  - inversion Hall as [|? ? Hfc Hrest]; subst.
    destruct (recordField inherited compare this any path (builder, missing, args) fc)
      as [[[b1 m1] a1]|e] eqn:E; cbn [bind] in Hloop; [|discriminate].
    eapply IH; [exact Hrest | exact Hloop |].
    eapply recordField_Forall; eauto.
Qed.

End ErrorsOfLoops.

Lemma underPath_refl d v t p : underPath p (mkValueError d v t p).
Proof. exists []. simpl. now rewrite app_nil_r. Qed.

Lemma underPath_step (p : path) (step : pathStep) (e : ValueError) :
  underPath (p ++ [step]) e -> belowPath p e.
Proof. intros [s Hs]. exists step, s. now rewrite Hs, <- app_assoc. Qed.

Lemma belowPath_under (p : path) (e : ValueError) : belowPath p e -> underPath p e.
Proof. intros [step [s Hs]]. now exists (step :: s). Qed.

Lemma belowPath_neq (p : path) (e : ValueError) : belowPath p e -> errPath e <> p.
Proof.
  intros [step [s Hs]] Heq. rewrite Heq in Hs.
  apply (f_equal (@List.length pathStep)) in Hs.
  rewrite length_app in Hs. simpl in Hs. lia.
Qed.

Lemma Forall_under_step (p : path) (step : pathStep) (l : list ValueError) :
  Forall (underPath (p ++ [step])) l -> Forall (belowPath p) l.
Proof. apply Forall_impl. intros e. apply underPath_step. Qed.

Lemma Forall_below_under (p : path) (l : list ValueError) :
  Forall (belowPath p) l -> Forall (underPath p) l.
Proof. apply Forall_impl. intros e. apply belowPath_under. Qed.

Section ErrorPaths.

Variable inherited : value -> string -> value.
Variable compare : avtype -> value -> value -> Z.
Variable this : Cloner.

Lemma branchByName_In (key : string) (branches : list (avtype * cloneAt))
  (bc : avtype * cloneAt) :
  branchByName key branches = Some bc -> In bc branches /\ branchKey (fst bc) = key.
Proof.
  induction branches as [|b rest IH]; simpl; [discriminate|].
  destruct (String.eqb (branchKey (fst b)) key) eqn:E.
  - intros H; ok_inv H. split; [now left | now apply String.eqb_eq].
  - intros H. destruct (IH H). split; [now right | assumption].
Qed.

Lemma onUnion_reportsUnder (branches : list (avtype * cloneAt)) unionType branchTypeOf :
  Forall (fun bc => reportsUnder (snd bc)) branches ->
  reportsUnder (_onUnion this branches unionType branchTypeOf).
Proof.
  intros Hall any p b Hclone. unfold _onUnion in Hclone.
  assert (Htail : forall any',
    (resolved <- unionResolve this (map fst branches) unionType
                   (String.eqb (typeName unionType) "union:wrapped")
                   branchTypeOf any' p ;;
     match resolved with
     | inl early => Ok early
     | inr any'' =>
         unionBranch this branches unionType
           (String.eqb (typeName unionType) "union:wrapped") any'' p
     end) = Ok b -> Forall (underPath p) (errors b)).
  { clear Hclone any. intros any H.
    destruct (unionResolve this (map fst branches) unionType
                (String.eqb (typeName unionType) "union:wrapped") branchTypeOf any p)
      as [[early|any'']|e] eqn:Hres; simpl in H; try discriminate.
    - ok_inv H. unfold unionResolve in Hres.
      destruct (isFromDefaultJSON (_mode this)).
      + destruct (map fst branches) as [|first ?]; [discriminate|].
        destruct (isNullType first); ok_inv Hres.
        repeat constructor. apply underPath_refl.
      + destruct (isToJSON (_mode this) && negb _); [|discriminate].
        destruct (branchTypeOf any); ok_inv Hres.
        repeat constructor. apply underPath_refl.
    - clear Hres. unfold unionBranch in H.
      destruct (negb (String.eqb (typeof any'') "object")).
      { ok_inv H. repeat constructor. apply underPath_refl. }
      destruct (Object_keys any'') as [keys|e]; simpl in H; [|discriminate].
      destruct keys as [|key [|? ?]];
        try (ok_inv H; repeat constructor; apply underPath_refl).
      destruct (branchByName key branches) as [[branchType cloneBranch]|] eqn:Hb;
        [|ok_inv H; repeat constructor; apply underPath_refl].
      apply branchByName_In in Hb. destruct Hb as [Hin _].
      rewrite Forall_forall in Hall. specialize (Hall _ Hin). simpl in Hall.
      destruct (cloneBranch (getProp any'' key) (p ++ [PKey key])) as [bb|e] eqn:E;
        simpl in H; [|discriminate].
      apply Hall in E. apply Forall_under_step, Forall_below_under in E.
      ok_inv H.
      destruct (isOk bb); [destruct (isToJSON _); [|destruct (negb _)]|];
        simpl; exact E. }
  destruct any; try (exact (Htail _ Hclone)).
  ok_inv Hclone. destruct (existsb isNullType (map fst branches)); simpl.
  - constructor.
  - repeat constructor. apply underPath_refl.
Qed.

Lemma onLogical_reportsUnder (cloneUnderlying : cloneAt) type toValue fromValue :
  reportsUnder cloneUnderlying ->
  reportsUnder (_onLogical this cloneUnderlying type toValue fromValue).
Proof.
  intros Hu any p b Hclone. unfold _onLogical in Hclone.
  destruct (isToJSON (_mode this)).
  - destruct (toValue any) as [v|m].
    + destruct v; try (exact (Hu _ _ _ Hclone)).
      ok_inv Hclone. repeat constructor. apply underPath_refl.
    + ok_inv Hclone. repeat constructor. apply underPath_refl.
  - destruct (cloneUnderlying any p) as [ub|e] eqn:E; simpl in Hclone; [|discriminate].
    apply Hu in E.
    destruct (negb (isOk ub)); [now ok_inv Hclone|].
    destruct (fromValue (bvalue ub)); ok_inv Hclone; simpl; [exact E|].
    apply Forall_app. split; [exact E|]. repeat constructor. apply underPath_refl.
Qed.

Lemma onPrimitive_reportsUnder type isValid :
  reportsUnder (_onPrimitive this type isValid).
Proof.
  intros any p b Hclone. unfold _onPrimitive in Hclone.
  assert (Hcheck : forall val,
            primitiveCheck this type isValid (isType type ["bytes"; "fixed"]) any val p
              = Ok b -> Forall (underPath p) (errors b)).
  { clear Hclone. intros val H. unfold primitiveCheck in H.
    destruct (isType type ["bytes"; "fixed"]), (isToJSON (_mode this)),
      (isValid val); cbn [bind andb] in H;
      try (destruct (bufferFrom val) as [copy|e]; cbn [bind] in H; [|discriminate]);
      try (destruct (toStringBinary (bvalue (setValue newBuilder copy)));
           cbn [bind] in H; [|discriminate]);
      try discriminate; ok_inv H;
      try constructor; repeat constructor; apply underPath_refl. }
  destruct (isType type ["bytes"; "fixed"] && negb (isToJSON (_mode this)));
    [|exact (Hcheck _ Hclone)].
  destruct any; try (ok_inv Hclone; repeat constructor; apply underPath_refl).
  exact (Hcheck _ Hclone).
Qed.

Lemma onArray_reportsUnder (cloneItem : cloneAt) type :
  reportsUnder cloneItem -> reportsUnder (_onArray cloneItem type).
Proof.
  intros Hitem any p b Hclone. unfold _onArray in Hclone.
  destruct any; try (ok_inv Hclone; repeat constructor; apply underPath_refl).
  destruct (arrayLoop cloneItem p items 0 newBuilder []) as [[b' val]|e] eqn:E;
    simpl in Hclone; [|discriminate].
  eapply (arrayLoop_Forall (underPath p)) in E; [| |constructor].
  - ok_inv Hclone. now destruct (isOk b').
  - intros i item ib Hib. apply Hitem in Hib.
    now apply Forall_under_step, Forall_below_under in Hib.
Qed.

Lemma onMap_reportsUnder (cloneValue : cloneAt) type :
  reportsUnder cloneValue -> reportsUnder (_onMap cloneValue type).
Proof.
  intros Hvalue any p b Hclone. unfold _onMap in Hclone.
  destruct (notAnObject any).
  { ok_inv Hclone. repeat constructor. apply underPath_refl. }
  unfold mapEntries in Hclone.
  destruct (Object_keys any) as [names|e]; simpl in Hclone; [|discriminate].
  destruct (mapLoop cloneValue any p (sortKeys names) newBuilder [])
    as [[b' val]|e] eqn:E; simpl in Hclone; [|discriminate].
  eapply (mapLoop_Forall (underPath p)) in E; [| |constructor].
  - ok_inv Hclone. now destruct (isOk b').
  - intros key v vb Hvb. apply Hvalue in Hvb.
    now apply Forall_under_step, Forall_below_under in Hvb.
Qed.

Lemma onRecord_reportsUnder (fieldClones : list (field * cloneAt)) type ctor :
  Forall (fun fc => reportsUnder (snd fc)) fieldClones ->
  reportsUnder (_onRecord inherited compare this fieldClones type ctor).
Proof.
  intros Hall any p b Hclone. unfold _onRecord in Hclone.
  destruct (notAnObject any).
  { ok_inv Hclone. repeat constructor. apply underPath_refl. }
  unfold recordFields in Hclone.
  match type of Hclone with
  | bind ?m _ = _ => destruct m as [b0|e] eqn:E0; simpl in Hclone; [|discriminate]
  end.
  assert (H0 : Forall (underPath p) (errors b0)).
  { destruct (_allowUndeclaredFields this); [ok_inv E0; constructor|].
    destruct (Object_keys any); simpl in E0; [|discriminate].
    destruct (undeclaredFields (map fst fieldClones) a); ok_inv E0.
    - constructor.
    - repeat constructor. apply underPath_refl. }
  destruct (recordLoop inherited compare this any p fieldClones (b0, [], []))
    as [[[b1 missing] args]|e] eqn:E; simpl in Hclone; [|discriminate].
  eapply (recordLoop_Forall inherited compare this (underPath p)) in E; [| |exact H0].
  - ok_inv Hclone.
    assert (H1 : Forall (underPath p)
                   (errors match missing with
                           | [] => b1
                           | _ :: _ => addError b1 (DMissingFields missing) any type p
                           end)).
    { destruct missing; [exact E|]. simpl. apply Forall_app. split; [exact E|].
      repeat constructor. apply underPath_refl. }
    now destruct (isOk _); [destruct (isToJSON _)|].
  - revert Hall. apply Forall_impl. intros fc Hfc v fb Hfb. apply Hfc in Hfb.
    now apply Forall_under_step, Forall_below_under in Hfb.
Qed.

(** Every error of a call lies at or below the path of the call. *)
Lemma clone_reportsUnder (type : avtype) : reportsUnder (clone inherited compare this type).
Proof.
  induction type as [kind name isValid | itemsType IH | valuesType IH
                    | isError name fields ctor IH | wrapped types branchTypeOf IH
                    | name underlying toValue fromValue IH] using avtype_ind.
  - apply onPrimitive_reportsUnder.
  - now apply onArray_reportsUnder.
  - now apply onMap_reportsUnder.
  - apply onRecord_reportsUnder. rewrite Forall_map. exact IH.
  - apply onUnion_reportsUnder. rewrite Forall_map. exact IH.
  - now apply onLogical_reportsUnder.
Qed.

End ErrorPaths.

(* ------------------------------------------------------------------ *)
(** ** The object guard of records and maps *)

Lemma notAnObject_spec (any : value) :
  notAnObject any = true
  <-> (any = VNull \/ any = VUndefined \/ typeof any <> "object").
Proof.
  unfold notAnObject.
  destruct any; simpl; rewrite ?orb_true_r; split; intros H; try reflexivity;
    try discriminate;
    try (right; right; discriminate);
    try (now left); try (now right; left);
    destruct H as [H|[H|H]]; try discriminate; now elim H.
Qed.

Lemma Object_keys_object (any : value) :
  notAnObject any = false -> Object_keys any = Ok (ownKeys any).
Proof. now destruct any. Qed.

Lemma arrayIndex_string_of_N (n : N) :
  (n < 4294967295)%N -> arrayIndex (string_of_N n) = Some n.
Proof.
  intros Hn. unfold arrayIndex, string_of_N.
  rewrite NilEmpty.usu, Unsigned.of_to, String.eqb_refl.
  apply N.ltb_lt in Hn. now rewrite Hn.
Qed.

(** An array read through the index strings that [Object.keys] lists. *)
Lemma getProp_array_index (items : list value) (i : nat) :
  i < List.length items -> (N.of_nat (List.length items) < 4294967295)%N ->
  getProp (VArr items) (string_of_nat i) = nth i items VUndefined.
Proof.
  intros Hi Hlen. simpl. unfold indexed, string_of_nat.
  rewrite arrayIndex_string_of_N by lia.
  rewrite Nat2N.id. apply Nat.ltb_lt in Hi. now rewrite Hi.
Qed.

(** C10. For a record or a map type the error "is not a valid object" is
    the whole result exactly when the input is null, undefined or not of
    object type.  Any other input (an array or a wrapper object too) goes
    on to the fields or the entries, and no error of the call then says
    "is not a valid object" at the path of the call.  A map reads an array
    through the index strings [Object.keys] lists for it. *)
Theorem object_guard_of_records_and_maps :
  forall inherited compare this (any : value) (path : path),
    (notAnObject any = true
     <-> (any = VNull \/ any = VUndefined \/ typeof any <> "object"))
    /\ (forall type, isRecordOrMap type = true -> notAnObject any = true ->
          clone inherited compare this type any path
          = Ok (mkBuilder VUndefined
                  [mkValueError DNotValidObject any type path]))
    /\ (forall type b, isRecordOrMap type = true -> notAnObject any = false ->
          clone inherited compare this type any path = Ok b ->
          Forall (fun e => errDesc e = DNotValidObject -> errPath e <> path)
            (errors b))
    /\ (forall valuesType, notAnObject any = false ->
          clone inherited compare this (TMap valuesType) any path
          = mapEntries (clone inherited compare this valuesType) any path
          /\ Object_keys any = Ok (ownKeys any))
    /\ (forall isError name fields ctor, notAnObject any = false ->
          clone inherited compare this (TRecord isError name fields ctor) any path
          = recordFields inherited compare this
              (map (fun f => (f, clone inherited compare this (ftype f))) fields)
              (TRecord isError name fields ctor) ctor any path)
    /\ (forall items, any = VArr items ->
          (N.of_nat (List.length items) < 4294967295)%N ->
          notAnObject any = false
          /\ ownKeys any = map string_of_nat (seq 0 (List.length items))
          /\ forall i, i < List.length items ->
               getProp any (string_of_nat i) = nth i items VUndefined).
Proof.
  intros inherited compare this any path.
  split; [apply notAnObject_spec|].
  split.
  { intros type Htype Hguard.
    destruct type; try discriminate; simpl; unfold _onMap, _onRecord;
      now rewrite Hguard. }
  split.
  { intros type b Htype Hguard Hclone.
    destruct type as [| |valuesType|isError name fields ctor| |]; try discriminate;
      simpl in Hclone; unfold _onMap, _onRecord in Hclone; rewrite Hguard in Hclone.
    - unfold mapEntries in Hclone.
      destruct (Object_keys any) as [names|e]; cbn [bind] in Hclone; [|discriminate].
      destruct (mapLoop (clone inherited compare this valuesType) any path (sortKeys names)
                  newBuilder []) as [[b' val]|e] eqn:E;
        cbn [bind] in Hclone; [|discriminate].
      eapply (mapLoop_Forall
                (fun e => errDesc e = DNotValidObject -> errPath e <> path)) in E;
        [| |constructor].
      + ok_inv Hclone. now destruct (isOk b').
      + intros key v vb Hvb. apply clone_reportsUnder in Hvb.
        apply Forall_under_step in Hvb. revert Hvb. apply Forall_impl.
        intros e He _. now apply belowPath_neq.
    - unfold recordFields in Hclone.
      match type of Hclone with
      | bind ?m _ = _ => destruct m as [b0|e] eqn:E0; cbn [bind] in Hclone;
                         [|discriminate]
      end.
      assert (H0 : Forall (fun e => errDesc e = DNotValidObject -> errPath e <> path)
                     (errors b0)).
      { destruct (_allowUndeclaredFields this); [ok_inv E0; constructor|].
        destruct (Object_keys any); cbn [bind] in E0; [|discriminate].
        destruct (undeclaredFields _ a); ok_inv E0; repeat constructor.
        simpl. discriminate. }
      match type of Hclone with
      | bind ?m _ = _ => destruct m as [[[b1 missing] args]|e] eqn:E;
                         cbn [bind] in Hclone; [|discriminate]
      end.
      eapply (recordLoop_Forall inherited compare this
                (fun e => errDesc e = DNotValidObject -> errPath e <> path)) in E;
        [| |exact H0].
      + ok_inv Hclone.
        assert (H1 : Forall (fun e => errDesc e = DNotValidObject -> errPath e <> path)
                       (errors match missing with
                               | [] => b1
                               | _ :: _ =>
                                   addError b1 (DMissingFields missing) any
                                     (TRecord isError name fields ctor) path
                               end)).
        { destruct missing; [exact E|]. simpl. apply Forall_app. split; [exact E|].
          repeat constructor. simpl. discriminate. }
        now destruct (isOk _); [destruct (isToJSON _)|].
      + rewrite Forall_map. apply Forall_forall. intros f _ v fb Hfb. simpl in Hfb.
        apply clone_reportsUnder in Hfb.
        apply Forall_under_step in Hfb. revert Hfb. apply Forall_impl.
        intros e He _. now apply belowPath_neq. }
  split.
  { intros valuesType Hguard. split; [|now apply Object_keys_object].
    simpl. unfold _onMap. now rewrite Hguard. }
  split.
  { intros isError name fields ctor Hguard. simpl. unfold _onRecord.
    now rewrite Hguard. }
  intros items Hany Hlen. subst any.
  split; [reflexivity|]. split; [reflexivity|].
  intros i Hi. now apply getProp_array_index.
Qed.

Lemma object_guard_of_records_and_maps_witness :
  clone Samples.inherited Samples.numCompare (mkCloner TO_JSON false false) (TMap Samples.intType)
    (VNum 0) []
  = Ok (mkBuilder VUndefined
          [mkValueError DNotValidObject (VNum 0) (TMap Samples.intType) []])
  /\ toJSON Samples.inherited Samples.numCompare (VArr [VNum 7; VNum 8]) (TMap Samples.intType) None
     = Ok (VObj [("0", VNum 7); ("1", VNum 8)])
  /\ toJSON Samples.inherited Samples.numCompare (VBoxed (BNum 5)) (TMap Samples.intType) None
     = Ok (VObj [])
  /\ clone Samples.inherited Samples.numCompare (mkCloner FROM_JSON false false) twoFieldRecord
       (VArr [VNum 7]) []
     = Ok (mkBuilder VUndefined
             [mkValueError (DUndeclaredFields ["0"]) (VArr [VNum 7]) twoFieldRecord [];
              mkValueError (DMissingFields ["a"; "b"]) (VArr [VNum 7])
                twoFieldRecord []])
  /\ Forall (fun e => errDesc e = DNotValidObject -> errPath e <> [])
       [mkValueError (DUndeclaredFields ["0"]) (VArr [VNum 7]) twoFieldRecord [];
        mkValueError (DMissingFields ["a"; "b"]) (VArr [VNum 7]) twoFieldRecord []]
  /\ getProp (VArr [VNum 7; VNum 8]) (string_of_nat 1) = VNum 8.
Proof.
  pose proof (@object_guard_of_records_and_maps Samples.inherited Samples.numCompare
                (mkCloner TO_JSON false false) (VNum 0) [])
    as [_ [Hreject _]].
  pose proof (@object_guard_of_records_and_maps Samples.inherited Samples.numCompare
                (mkCloner FROM_JSON false false) (VArr [VNum 7]) [])
    as [_ [_ [Hpass _]]].
  pose proof (@object_guard_of_records_and_maps Samples.inherited Samples.numCompare
                (mkCloner TO_JSON false false) (VArr [VNum 7; VNum 8]) [])
    as [_ [_ [_ [_ [_ Harray]]]]].
  split; [exact (Hreject (TMap Samples.intType) eq_refl eq_refl)|].
  split; [reflexivity|]. split; [reflexivity|]. split; [reflexivity|].
  split; [exact (Hpass twoFieldRecord _ eq_refl eq_refl eq_refl)|].
  destruct (Harray [VNum 7; VNum 8] eq_refl) as [_ [_ Hget]].
  - reflexivity.
  - apply (Hget 1). simpl. lia.
Defined.

(* ------------------------------------------------------------------ *)
(** ** Sorting keys *)

Lemma ascii_compare_lt_trans (a b c : ascii) :
  Ascii.compare a b = Lt -> Ascii.compare b c = Lt -> Ascii.compare a c = Lt.
Proof.
  unfold Ascii.compare. rewrite !N.compare_lt_iff. apply N.lt_trans.
Qed.

Lemma string_compare_lt_trans (a b c : string) :
  String.compare a b = Lt -> String.compare b c = Lt -> String.compare a c = Lt.
Proof.
  revert b c. induction a as [|x a IH]; intros [|y b] [|z c]; simpl;
    try congruence.
  destruct (Ascii.compare x y) eqn:Exy; try discriminate;
    destruct (Ascii.compare y z) eqn:Eyz; try discriminate; intros Hab Hbc.
  - apply Ascii.compare_eq_iff in Exy, Eyz. subst.
    assert (Hzz : Ascii.compare z z = Eq)
      by (unfold Ascii.compare; apply N.compare_refl).
    rewrite Hzz. eauto.
  - apply Ascii.compare_eq_iff in Exy. subst. now rewrite Eyz.
  - apply Ascii.compare_eq_iff in Eyz. subst. now rewrite Exy.
  - now rewrite (ascii_compare_lt_trans _ _ _ Exy Eyz).
Qed.

Lemma string_compare_refl (a : string) : String.compare a a = Eq.
Proof.
  induction a as [|x a IH]; simpl; [reflexivity|].
  assert (Hxx : Ascii.compare x x = Eq)
    by (unfold Ascii.compare; apply N.compare_refl).
  now rewrite Hxx.
Qed.

Lemma keyLe_trans (a b c : string) : keyLe a b -> keyLe b c -> keyLe a c.
Proof.
  unfold keyLe, String.leb.
  destruct (String.compare a b) eqn:Eab; try discriminate;
    destruct (String.compare b c) eqn:Ebc; try discriminate; intros _ _.
  - apply String.compare_eq_iff in Eab, Ebc. subst. now rewrite string_compare_refl.
  - apply String.compare_eq_iff in Eab. subst. now rewrite Ebc.
  - apply String.compare_eq_iff in Ebc. subst. now rewrite Eab.
  - now rewrite (string_compare_lt_trans _ _ _ Eab Ebc).
Qed.

Lemma keyLe_total (a b : string) : keyLe a b \/ keyLe b a.
Proof. apply String.leb_total. Qed.

Lemma keyLe_antisym (a b : string) : keyLe a b -> keyLe b a -> a = b.
Proof. apply String.leb_antisym. Qed.

Lemma leb_false_keyLe (a b : string) : String.leb a b = false -> keyLe b a.
Proof.
  intros H. destruct (keyLe_total a b) as [H'|H']; [|exact H'].
  unfold keyLe in H'. congruence.
Qed.

Lemma insertKey_comm (a b : string) (l : list string) :
  insertKey a (insertKey b l) = insertKey b (insertKey a l).
Proof.
  induction l as [|x l IH]; simpl.
  - destruct (String.leb a b) eqn:Eab, (String.leb b a) eqn:Eba; try reflexivity.
    + now rewrite (keyLe_antisym _ _ Eab Eba).
    + apply leb_false_keyLe in Eab. unfold keyLe in Eab. congruence.
  - destruct (String.leb b x) eqn:Ebx, (String.leb a x) eqn:Eax; simpl;
      rewrite ?Ebx, ?Eax.
    + destruct (String.leb a b) eqn:Eab, (String.leb b a) eqn:Eba; try reflexivity.
      * now rewrite (keyLe_antisym _ _ Eab Eba).
      * apply leb_false_keyLe in Eab. unfold keyLe in Eab. congruence.
    + destruct (String.leb a b) eqn:Eab; [|reflexivity].
      pose proof (keyLe_trans _ _ _ Eab Ebx) as H. unfold keyLe in H. congruence.
    + destruct (String.leb b a) eqn:Eba; [|reflexivity].
      pose proof (keyLe_trans _ _ _ Eba Eax) as H. unfold keyLe in H. congruence.
    + now rewrite IH.
Qed.

(** Sorting forgets the order of its input. *)
Lemma sortKeys_Permutation (l l' : list string) :
  Permutation l l' -> sortKeys l = sortKeys l'.
Proof.
  induction 1 as [|x l l' _ IH|x y l|l l' l'' _ IH1 _ IH2].
  - reflexivity.
  - change (insertKey x (sortKeys l) = insertKey x (sortKeys l')). now rewrite IH.
  - apply insertKey_comm.
  - congruence.
Qed.

Lemma insertKey_Permutation (a : string) (l : list string) :
  Permutation (insertKey a l) (a :: l).
Proof.
  induction l as [|x l IH]; simpl; [reflexivity|].
  destruct (String.leb a x); [reflexivity|].
  rewrite IH. apply perm_swap.
Qed.

Lemma sortKeys_is_Permutation (l : list string) : Permutation (sortKeys l) l.
Proof.
  induction l as [|x l IH]; simpl; [reflexivity|].
  rewrite insertKey_Permutation. now constructor.
Qed.

Lemma insertKey_Sorted (a : string) (l : list string) :
  Sorted keyLe l -> Sorted keyLe (insertKey a l).
Proof.
  induction l as [|x l IH]; simpl; intros Hs.
  - repeat constructor.
  - destruct (String.leb a x) eqn:E.
    + constructor; [exact Hs | now constructor].
    + inversion Hs as [|? ? Hl Hhd]; subst.
      constructor; [now apply IH|].
      apply leb_false_keyLe in E.
      destruct l as [|y l]; simpl; [now constructor|].
      destruct (String.leb a y); constructor; [exact E|].
      now inversion Hhd.
Qed.

Lemma sortKeys_Sorted (l : list string) : Sorted keyLe (sortKeys l).
Proof.
  induction l as [|x l IH]; simpl; [constructor | now apply insertKey_Sorted].
Qed.

Lemma insertN_Permutation (n : N) (l : list N) : Permutation (insertN n l) (n :: l).
Proof.
  induction l as [|m l IH]; simpl; [reflexivity|].
  destruct (N.leb n m); [reflexivity|].
  rewrite IH. apply perm_swap.
Qed.

Lemma sortN_is_Permutation (l : list N) : Permutation (sortN l) l.
Proof.
  induction l as [|x l IH]; simpl; [reflexivity|].
  rewrite insertN_Permutation. now constructor.
Qed.

(** The enumeration order of an object is a rearrangement of its keys, *)
Lemma enumerationOrder_is_Permutation (ks : list string) :
  Permutation (enumerationOrder ks) ks.
Proof.
  unfold enumerationOrder.
  rewrite (Permutation_map string_of_N (sortN_is_Permutation (indexKeysOf ks))).
  induction ks as [|k ks IH]; simpl; [reflexivity|].
  unfold isNamedKey at 1.
  destruct (arrayIndex k) as [n|] eqn:E; simpl.
  - rewrite (arrayIndex_canonical _ _ E). now constructor.
  - rewrite <- Permutation_middle. now constructor.
Qed.

(** so two creation orders of the same keys enumerate the same keys. *)
Lemma enumerationOrder_Permutation (ks ks' : list string) :
  Permutation ks ks' -> Permutation (enumerationOrder ks) (enumerationOrder ks').
Proof.
  intros H. rewrite !enumerationOrder_is_Permutation. exact H.
Qed.

Lemma assoc_In (k : string) (props : list (string * value)) (v : value) :
  assoc k props = Some v -> In (k, v) props.
Proof.
  induction props as [|[k' v'] rest IH]; simpl; [discriminate|].
  destruct (String.eqb k' k) eqn:E.
  - intros H; ok_inv H. apply String.eqb_eq in E. subst. now left.
  - intros H. right. now apply IH.
Qed.

Lemma assoc_None (k : string) (props : list (string * value)) :
  assoc k props = None <-> ~ In k (map fst props).
Proof.
  induction props as [|[k' v'] rest IH]; simpl; [tauto|].
  destruct (String.eqb k' k) eqn:E.
  - apply String.eqb_eq in E. split; [discriminate | intros H; elim H; now left].
  - apply String.eqb_neq in E. rewrite IH. tauto.
Qed.

Lemma assoc_NoDup_In (k : string) (v : value) (props : list (string * value)) :
  NoDup (map fst props) -> In (k, v) props -> assoc k props = Some v.
Proof.
  induction props as [|[k' v'] rest IH]; simpl; intros Hnd Hin; [tauto|].
  inversion Hnd as [|? ? Hnotin Hnd']; subst.
  destruct Hin as [Heq|Hin].
  - ok_inv Heq. now rewrite String.eqb_refl.
  - destruct (String.eqb k' k) eqn:E; [|now apply IH].
    apply String.eqb_eq in E. subst. elim Hnotin.
    change k with (fst (k, v)). now apply in_map.
Qed.

(** Reading a property does not depend on the order of creation. *)
Lemma assoc_Permutation (k : string) (props props' : list (string * value)) :
  NoDup (map fst props) -> Permutation props props' ->
  assoc k props = assoc k props'.
Proof.
  intros Hnd Hperm.
  assert (Hnd' : NoDup (map fst props'))
    by (eapply Permutation_NoDup; [apply Permutation_map; exact Hperm | exact Hnd]).
  destruct (assoc k props) as [v|] eqn:E.
  - symmetry. apply assoc_NoDup_In; [exact Hnd'|].
    eapply Permutation_in; [exact Hperm | now apply assoc_In].
  - symmetry. apply assoc_None. apply assoc_None in E. intros Hin. apply E.
    eapply Permutation_in; [apply Permutation_sym, Permutation_map; exact Hperm|].
    exact Hin.
Qed.

(* ------------------------------------------------------------------ *)
(** ** Maps *)

Lemma assignable_true (k : string) : assignable k = true <-> k <> "__proto__".
Proof.
  unfold assignable. rewrite negb_true_iff. apply String.eqb_neq.
Qed.

Lemma assignable_false (k : string) : assignable k = false <-> k = "__proto__".
Proof.
  unfold assignable. rewrite negb_false_iff. apply String.eqb_eq.
Qed.

Lemma setProp_assignable (props : list (string * value)) (k : string) (v : value) :
  setProp props k v = if assignable k then storeProp props k v else props.
Proof. unfold setProp, assignable. now destruct (String.eqb k "__proto__"). Qed.

Lemma storeProp_fresh (props : list (string * value)) (k : string) (v : value) :
  ~ In k (map fst props) -> storeProp props k v = props ++ [(k, v)].
Proof.
  induction props as [|[k' v'] rest IH]; simpl; intros Hfresh; [reflexivity|].
  destruct (String.eqb k' k) eqn:E.
  - apply String.eqb_eq in E. elim Hfresh. now left.
  - rewrite IH; [reflexivity|]. intros Hin. apply Hfresh. now right.
Qed.

(** An assignment under a new key creates the property last, except under
    [__proto__], where it creates none. *)
Lemma setProp_fresh (props : list (string * value)) (k : string) (v : value) :
  ~ In k (map fst props) ->
  setProp props k v = props ++ (if assignable k then [(k, v)] else []).
Proof.
  intros Hfresh. rewrite setProp_assignable. destruct (assignable k).
  - now apply storeProp_fresh.
  - now rewrite app_nil_r.
Qed.

Lemma assignAll_fresh (keys : list string) :
  forall (vs : list value) (acc : list (string * value)),
    NoDup keys ->
    (forall k, In k keys -> ~ In k (map fst acc)) ->
    assignAll acc (combine keys vs)
    = acc ++ filter (fun kv => assignable (fst kv)) (combine keys vs).
Proof.
  induction keys as [|k keys IH]; intros vs acc Hnd Hfresh; simpl.
  - now rewrite app_nil_r.
  - destruct vs as [|v vs]; simpl; [now rewrite app_nil_r|].
    inversion Hnd as [|? ? Hk Hnd']; subst.
    unfold assignAll in *. simpl.
    rewrite setProp_fresh by (apply Hfresh; now left).
    rewrite IH; [| exact Hnd'|].
    + destruct (assignable k); [now rewrite <- app_assoc | now rewrite app_nil_r].
    + intros k' Hk'. rewrite map_app, in_app_iff.
      intros [Hin|Hin].
      * apply (Hfresh k'); [now right | exact Hin].
      * destruct (assignable k); [|contradiction].
        destruct Hin as [Heq|[]]. simpl in Heq. subst. contradiction.
Qed.

Section MapLoop.

Variable cloneValue : cloneAt.
Variable any : value.
Variable path : path.

(** What the loop of [_onMap] leaves: the errors of the entries in the
    order of the keys and, when there is none, the assigned values. *)
Lemma mapLoop_spec :
  forall keys builder val builder' val',
    mapLoop cloneValue any path keys builder val = Ok (builder', val') ->
    exists bs,
      Forall2 (entryResult cloneValue any path) keys bs
      /\ errors builder' = errors builder ++ List.concat (map errors bs)
      /\ (errors builder' = [] ->
          val' = assignAll val (combine keys (map bvalue bs))).
Proof.
  induction keys as [|key rest IH]; intros builder val builder' val' Hloop;
    cbn [mapLoop] in Hloop.
  - ok_inv Hloop. exists []. simpl. rewrite app_nil_r. repeat split. constructor.
  - destruct (cloneValue (getProp any key) (path ++ [PKey key])) as [vb|e] eqn:E;
      cbn [bind] in Hloop; [|discriminate].
    apply IH in Hloop. destruct Hloop as [bs [Hall [Herrs Hval]]].
    exists (vb :: bs). split; [now constructor|].
    simpl in Herrs. split; [simpl; now rewrite Herrs, app_assoc|].
    intros Hok. specialize (Hval Hok). rewrite Hval.
    rewrite Hok in Herrs. symmetry in Herrs.
    apply app_eq_nil in Herrs. destruct Herrs as [Hfront _].
    unfold isOk, copyErrorsFrom. simpl. now rewrite Hfront.
Qed.

End MapLoop.

Lemma mapLoop_ext (cloneValue : cloneAt) (any any' : value) (path : path) :
  (forall k, getProp any k = getProp any' k) ->
  forall keys builder val,
    mapLoop cloneValue any path keys builder val
    = mapLoop cloneValue any' path keys builder val.
Proof.
  intros Hget. induction keys as [|key rest IH]; intros builder val; simpl;
    [reflexivity|].
  rewrite Hget.
  destruct (cloneValue (getProp any' key) (path ++ [PKey key])); simpl;
    [apply IH | reflexivity].
Qed.

(** C6. A map input is walked by its keys in ascending order of code
    units, each key once, whatever order the input enumerates them in: the
    errors of the result are the errors of the entries in that order, an
    error-free result lists its entries in that order (all of them but one
    under the key [__proto__], for which the assignment creates no
    property), and two inputs with the same entries created in different
    orders give the same result. *)
Theorem map_keys_walked_in_sorted_order :
  forall inherited compare this valuesType (any : value) (path : path),
    notAnObject any = false ->
    let keys := sortKeys (ownKeys any) in
    Sorted keyLe keys
    /\ Permutation keys (ownKeys any)
    /\ (forall b,
          clone inherited compare this (TMap valuesType) any path = Ok b ->
          exists bs,
            Forall2 (entryResult (clone inherited compare this valuesType) any path) keys bs
            /\ errors b = List.concat (map errors bs)
            /\ (NoDup (ownKeys any) -> errors b = [] ->
                bvalue b
                = VObj (filter (fun kv => assignable (fst kv))
                          (combine keys (map bvalue bs)))))
    /\ (forall props props',
          any = VObj props -> NoDup (map fst props) -> Permutation props props' ->
          clone inherited compare this (TMap valuesType) (VObj props') path
          = clone inherited compare this (TMap valuesType) any path).
Proof.
  intros inherited compare this valuesType any path Hguard keys.
  split; [apply sortKeys_Sorted|].
  split; [apply sortKeys_is_Permutation|].
  split.
  - intros b Hclone. simpl in Hclone. unfold _onMap in Hclone.
    rewrite Hguard in Hclone. unfold mapEntries in Hclone.
    rewrite (Object_keys_object _ Hguard) in Hclone. cbn [bind] in Hclone.
    fold keys in Hclone.
    destruct (mapLoop (clone inherited compare this valuesType) any path keys newBuilder [])
      as [[b' val]|e] eqn:E; cbn [bind] in Hclone; [|discriminate].
    apply mapLoop_spec in E. destruct E as [bs [Hall [Herrs Hval]]].
    exists bs. split; [exact Hall|]. simpl in Herrs.
    ok_inv Hclone. split; [now destruct (isOk b')|].
    intros Hnd Hok.
    assert (Hok' : errors b' = []) by (now destruct (isOk b')).
    apply isOk_true in Hok'. rewrite Hok'. simpl. f_equal.
    apply isOk_true in Hok'. rewrite (Hval Hok').
    rewrite assignAll_fresh; [reflexivity| |now intros].
    eapply Permutation_NoDup; [|exact Hnd].
    apply Permutation_sym, sortKeys_is_Permutation.
  - intros props props' Hany Hnd Hperm. subst any. simpl. unfold _onMap.
    change (notAnObject (VObj props')) with false.
    change (notAnObject (VObj props)) with false. cbv iota.
    unfold mapEntries, Object_keys. cbn [bind ownKeys].
    rewrite (sortKeys_Permutation (enumerationOrder (map fst props'))
               (enumerationOrder (map fst props))).
    + rewrite (mapLoop_ext _ (VObj props') (VObj props)); [reflexivity|].
      intros k. simpl. now rewrite (assoc_Permutation k props props').
    + apply enumerationOrder_Permutation, Permutation_map, Permutation_sym, Hperm.
Qed.

Lemma map_keys_walked_in_sorted_order_witness :
  let input := VObj [("b", VNum 1); ("a", VNum 2)] in
  let output := VObj [("a", VNum 2); ("b", VNum 1)] in
  sortKeys (ownKeys input) = ["a"; "b"]
  /\ toJSON Samples.inherited Samples.numCompare input (TMap Samples.intType) None = Ok output
  /\ ownKeys output = ["a"; "b"]
  /\ toJSON Samples.inherited Samples.numCompare
       (VObj [("b", VNum 1); ("__proto__", VNum 3); ("a", VNum 2)])
       (TMap Samples.intType) None
     = Ok output
  /\ clone Samples.inherited Samples.numCompare (mkCloner TO_JSON false false) (TMap Samples.intType)
       output []
     = clone Samples.inherited Samples.numCompare (mkCloner TO_JSON false false) (TMap Samples.intType)
         input [].
Proof.
  intros input output.
  pose proof (@map_keys_walked_in_sorted_order Samples.inherited Samples.numCompare
                (mkCloner TO_JSON false false) Samples.intType input [] eq_refl)
    as [_ [_ [_ Hperm]]].
  split; [reflexivity|]. split; [reflexivity|]. split; [reflexivity|].
  split; [reflexivity|].
  apply (Hperm [("b", VNum 1); ("a", VNum 2)] [("a", VNum 2); ("b", VNum 1)] eq_refl).
  - repeat constructor; simpl; intuition discriminate.
  - apply perm_swap.
Defined.

(* ------------------------------------------------------------------ *)
(** ** Records *)

Lemma isUndefined_true (v : value) : isUndefined v = true <-> v = VUndefined.
Proof. destruct v; simpl; split; congruence. Qed.

Lemma isUndefined_false (v : value) : isUndefined v = false <-> v <> VUndefined.
Proof. destruct v; simpl; split; congruence. Qed.

Lemma assoc_storeProp_same (props : list (string * value)) (k : string)
  (v : value) :
  assoc k (storeProp props k v) = Some v.
Proof.
  induction props as [|[k' v'] rest IH]; simpl.
  - now rewrite String.eqb_refl.
  - destruct (String.eqb k' k) eqn:E; simpl; [now rewrite String.eqb_refl|].
    now rewrite E.
Qed.

Lemma assoc_setProp_same (props : list (string * value)) (k : string) (v : value) :
  assoc k (setProp props k v) = if assignable k then Some v else assoc k props.
Proof.
  rewrite setProp_assignable. destruct (assignable k); [|reflexivity].
  apply assoc_storeProp_same.
Qed.

Lemma assoc_setProp_other (props : list (string * value)) (k k' : string) (v : value) :
  k <> k' -> assoc k (setProp props k' v) = assoc k props.
Proof.
  intros Hneq. rewrite setProp_assignable. destruct (assignable k'); [|reflexivity].
  induction props as [|[k0 v0] rest IH]; simpl.
  - destruct (String.eqb k' k) eqn:E; [|reflexivity].
    apply String.eqb_eq in E. congruence.
  - destruct (String.eqb k0 k') eqn:E; simpl.
    + apply String.eqb_eq in E. subst k0.
      destruct (String.eqb k' k) eqn:E'; [|reflexivity].
      apply String.eqb_eq in E'. congruence.
    + now rewrite IH.
Qed.

(** A key that names no field is left as it was. *)
Lemma recordObject_other (k : string) (fields : list field) :
  ~ In k (map fname fields) ->
  forall args obj, assoc k (recordObject fields args obj) = assoc k obj.
Proof.
  induction fields as [|f fields IH]; intros Hk args obj; simpl; [reflexivity|].
  destruct args as [|v args]; [reflexivity|].
  simpl in Hk. rewrite IH by tauto.
  destruct (isUndefined v); [reflexivity|].
  apply assoc_setProp_other. intros Heq. apply Hk. now left.
Qed.

(** The object built under [TO_JSON] holds, for each field, the value
    handed on for it, unless that value is [undefined] or the field is
    named [__proto__]. *)
Lemma recordObject_lookup (fields : list field) :
  NoDup (map fname fields) ->
  forall args obj f v,
    In (f, v) (combine fields args) ->
    assoc (fname f) (recordObject fields args obj)
    = if isUndefined v || negb (assignable (fname f))
      then assoc (fname f) obj else Some v.
Proof.
  induction fields as [|f0 fields IH]; intros Hnd args obj f v Hin; simpl in *;
    [contradiction|].
  destruct args as [|v0 args]; [contradiction|].
  inversion Hnd as [|? ? Hfresh Hnd']; subst.
  destruct Hin as [Heq|Hin].
  - ok_inv Heq. rewrite recordObject_other by exact Hfresh.
    destruct (isUndefined v); [reflexivity|]. rewrite assoc_setProp_same.
    now destruct (assignable (fname f)).
  - rewrite (IH Hnd' _ _ _ _ Hin).
    destruct (isUndefined v || negb (assignable (fname f))); [|reflexivity].
    destruct (isUndefined v0); [reflexivity|].
    apply assoc_setProp_other. intros Heq. apply Hfresh. rewrite <- Heq.
    apply in_map. eapply in_combine_l. exact Hin.
Qed.

Section RecordLoop.

Variable inherited : value -> string -> value.
Variable compare : avtype -> value -> value -> Z.
Variable this : Cloner.
Variable any : value.
Variable path : path.

Lemma recordField_accumulates (fc : field * cloneAt) builder missing args st :
  recordField inherited compare this any path (builder, missing, args) fc = Ok st ->
  exists errs fm v,
    fieldResult inherited compare this any path fc (errs, fm, v)
    /\ st = (mkBuilder (bvalue builder) (errors builder ++ errs),
             missing ++ fm, args ++ [v]).
Proof.
  destruct fc as [f cloneField]. unfold fieldResult, recordField.
  destruct (isUndefined (readProp inherited any (fname f)) && isUndefined (fdefault f)).
  { intros H; ok_inv H. exists [], [fname f], VUndefined.
    split; [reflexivity|]. destruct builder; simpl. now rewrite app_nil_r. }
  destruct (isUndefined (readProp inherited any (fname f))).
  - destruct (isToJSON (_mode this) && negb (_omitDefaultValues this)).
    + destruct (cloneField (fdefault f) (path ++ [PKey (fname f)])) as [db|e];
        cbn [bind]; intros H; ok_inv H.
      exists [], [], (bvalue db). split; [reflexivity|].
      destruct builder; simpl. now rewrite !app_nil_r.
    + intros H; ok_inv H. exists [], [], VUndefined. split; [reflexivity|].
      destruct builder; simpl. now rewrite !app_nil_r.
  - destruct (cloneField (readProp inherited any (fname f)) (path ++ [PKey (fname f)]))
      as [fb|e]; cbn [bind]; intros H; ok_inv H.
    eexists (errors fb), [], _. split; [reflexivity|].
    unfold copyErrorsFrom. simpl. now rewrite app_nil_r.
Qed.

(** The field loop hands on one value per field, in field order, and
    appends the errors and the missing names of the fields in that order. *)
Lemma recordLoop_spec :
  forall fieldClones builder missing args builder' missing' args',
    recordLoop inherited compare this any path fieldClones (builder, missing, args)
      = Ok (builder', missing', args') ->
    exists rs,
      Forall2 (fieldResult inherited compare this any path) fieldClones rs
      /\ errors builder' = errors builder ++ List.concat (map (fun r => fst (fst r)) rs)
      /\ missing' = missing ++ List.concat (map (fun r => snd (fst r)) rs)
      /\ args' = args ++ map snd rs.
Proof.
  induction fieldClones as [|fc rest IH];
    intros builder missing args builder' missing' args' Hloop;
    cbn [recordLoop] in Hloop.
  - ok_inv Hloop. exists []. simpl. rewrite !app_nil_r. repeat split. constructor.
  - destruct (recordField inherited compare this any path (builder, missing, args) fc)
      as [st|e] eqn:E; cbn [bind] in Hloop; [|discriminate].
    apply recordField_accumulates in E.
    destruct E as [errs [fm [v [Hfield Hst]]]]. subst st.
    apply IH in Hloop. destruct Hloop as [rs [Hall [Herrs [Hmissing Hargs]]]].
    exists ((errs, fm, v) :: rs). simpl in *.
    split; [now constructor|].
    rewrite Herrs, Hmissing, Hargs, <- !app_assoc. repeat split.
Qed.

End RecordLoop.

(** Under [TO_JSON] an error-free result for an input other than
    [undefined] is never [undefined]. *)
Lemma clone_to_json_defined inherited compare this :
  _mode this = TO_JSON ->
  forall type any path b,
    clone inherited compare this type any path = Ok b ->
    errors b = [] -> any <> VUndefined -> bvalue b <> VUndefined.
Proof.
  intros Hmode.
  induction type as [kind name isValid | itemsType IH | valuesType IH
                    | isError name fields ctor IH | wrapped types branchTypeOf IH
                    | name underlying toValue fromValue IH] using avtype_ind;
    intros any path b Hclone Hok Hany; simpl in Hclone.
  - unfold _onPrimitive in Hclone. rewrite Hmode in Hclone. simpl negb in Hclone.
    rewrite andb_false_r in Hclone. unfold primitiveCheck in Hclone.
    rewrite Hmode in Hclone. simpl isToJSON in Hclone.
    destruct (isValid any), (isType (TPrim kind name isValid) ["bytes"; "fixed"]);
      cbn [bind andb] in Hclone.
    + destruct (bufferFrom any) as [copy|e] eqn:E; cbn [bind] in Hclone;
        [|discriminate].
      destruct any; try discriminate. ok_inv E. simpl in Hclone. ok_inv Hclone.
      simpl. discriminate.
    + ok_inv Hclone. exact Hany.
    + discriminate.
    + ok_inv Hclone. discriminate.
  - unfold _onArray in Hclone. destruct any; try (ok_inv Hclone; discriminate).
    destruct (arrayLoop _ _ _ _ _ _) as [[b' val]|e]; cbn [bind] in Hclone;
      [|discriminate].
    ok_inv Hclone. destruct (isOk b') eqn:E; [simpl; discriminate|].
    apply isOk_false in E. contradiction.
  - unfold _onMap in Hclone.
    destruct (notAnObject any); [ok_inv Hclone; discriminate|].
    unfold mapEntries in Hclone.
    destruct (Object_keys any); cbn [bind] in Hclone; [|discriminate].
    destruct (mapLoop _ _ _ _ _ _) as [[b' val]|e]; cbn [bind] in Hclone;
      [|discriminate].
    ok_inv Hclone. destruct (isOk b') eqn:E; [simpl; discriminate|].
    apply isOk_false in E. contradiction.
  - unfold _onRecord in Hclone.
    destruct (notAnObject any); [ok_inv Hclone; discriminate|].
    unfold recordFields in Hclone.
    match type of Hclone with
    | bind ?m _ = _ => destruct m; cbn [bind] in Hclone; [|discriminate]
    end.
    match type of Hclone with
    | bind ?m _ = _ => destruct m as [[[b1 missing] args]|e]; cbn [bind] in Hclone;
                       [|discriminate]
    end.
    rewrite Hmode in Hclone. simpl isToJSON in Hclone. cbv iota in Hclone.
    ok_inv Hclone.
    destruct (isOk _) eqn:E; [simpl; discriminate|].
    apply isOk_false in E. contradiction.
  - unfold _onUnion in Hclone.
    assert (Htail : forall any',
      (resolved <- unionResolve this
                     (map fst (map (fun t => (t, clone inherited compare this t)) types))
                     (TUnion wrapped types branchTypeOf)
                     (String.eqb (typeName (TUnion wrapped types branchTypeOf))
                        "union:wrapped") branchTypeOf any' path ;;
       match resolved with
       | inl early => Ok early
       | inr any'' =>
           unionBranch this (map (fun t => (t, clone inherited compare this t)) types)
             (TUnion wrapped types branchTypeOf)
             (String.eqb (typeName (TUnion wrapped types branchTypeOf))
                "union:wrapped") any'' path
       end) = Ok b -> bvalue b <> VUndefined).
    { clear Hclone Hany any. intros any H.
      destruct (unionResolve _ _ _ _ _ _ _) as [[early|any'']|e] eqn:Hres;
        cbn [bind] in H; try discriminate.
      - ok_inv H. unfold unionResolve in Hres.
        rewrite Hmode in Hres. simpl in Hres.
        destruct (negb _); [|discriminate].
        destruct (branchTypeOf any); ok_inv Hres. discriminate.
      - clear Hres. unfold unionBranch in H.
        destruct (negb (String.eqb (typeof any'') "object"));
          [ok_inv H; discriminate|].
        destruct (Object_keys any'') as [keys|e]; cbn [bind] in H; [|discriminate].
        destruct keys as [|key [|? ?]]; try (ok_inv H; discriminate).
        destruct (branchByName key _) as [[branchType cloneBranch]|];
          [|ok_inv H; discriminate].
        destruct (cloneBranch _ _) as [bb|e]; cbn [bind] in H; [|discriminate].
        rewrite Hmode in H. simpl isToJSON in H. cbv iota in H. ok_inv H.
        destruct (isOk bb) eqn:E; [simpl; discriminate|].
        apply isOk_false in E. simpl in Hok. contradiction. }
    destruct any; try (exact (Htail _ Hclone)).
    ok_inv Hclone. destruct (existsb _ _); simpl in *; discriminate.
  - unfold _onLogical in Hclone. rewrite Hmode in Hclone. simpl in Hclone.
    destruct (toValue any) as [v|m]; [|ok_inv Hclone; discriminate].
    destruct v; try (eapply IH; [exact Hclone | exact Hok | discriminate]).
    ok_inv Hclone. discriminate.
Qed.

Lemma Forall2_In_combine {A B : Type} (R : A -> B -> Prop) (l : list A) (l' : list B) :
  Forall2 R l l' ->
  forall a, In a l -> exists b, In (a, b) (combine l l') /\ R a b.
Proof.
  induction 1 as [|x y l l' Hxy _ IH]; intros a Hin; simpl in *; [contradiction|].
  destruct Hin as [Heq|Hin].
  - subst. exists y. split; [now left | exact Hxy].
  - destruct (IH a Hin) as [b [Hb HR]]. exists b. split; [now right | exact HR].
Qed.

Lemma in_combine_map {A B A' B' : Type} (f : A -> A') (g : B -> B')
  (l : list A) (l' : list B) (a : A) (b : B) :
  In (a, b) (combine l l') -> In (f a, g b) (combine (map f l) (map g l')).
Proof.
  revert l'. induction l as [|x l IH]; intros [|y l'] Hin; simpl in *;
    try contradiction.
  destruct Hin as [Heq|Hin]; [ok_inv Heq; now left | right; now apply IH].
Qed.

Lemma map_fst_fieldClones (fields : list field) (c : avtype -> cloneAt) :
  map fst (map (fun f => (f, c (ftype f))) fields) = fields.
Proof. rewrite map_map. simpl. apply map_id. Qed.

(** An error-free record result under [TO_JSON]: the object holds, for
    each field, the value its iteration handed on. *)
Lemma record_to_json_ok inherited compare this isError name fields ctor any path b :
  _mode this = TO_JSON ->
  clone inherited compare this (TRecord isError name fields ctor) any path = Ok b ->
  errors b = [] ->
  exists rs,
    Forall2 (fieldResult inherited compare this any path)
      (map (fun f => (f, clone inherited compare this (ftype f))) fields) rs
    /\ Forall (fun r => fst (fst r) = [] /\ snd (fst r) = []) rs
    /\ bvalue b = VObj (recordObject fields (map snd rs) []).
Proof.
  intros Hmode Hclone Hok. simpl in Hclone. unfold _onRecord in Hclone.
  destruct (notAnObject any); [ok_inv Hclone; discriminate|].
  unfold recordFields in Hclone.
  match type of Hclone with
  | bind ?m _ = _ => destruct m as [b0|e]; cbn [bind] in Hclone; [|discriminate]
  end.
  match type of Hclone with
  | bind ?m _ = _ => destruct m as [[[b1 missing] args]|e] eqn:E;
                     cbn [bind] in Hclone; [|discriminate]
  end.
  apply recordLoop_spec in E. destruct E as [rs [Hall [Herrs [Hmissing Hargs]]]].
  rewrite Hmode, map_fst_fieldClones in Hclone. simpl isToJSON in Hclone.
  cbv iota in Hclone. simpl in Herrs, Hmissing, Hargs.
  destruct missing as [|m missing'].
  - destruct (isOk b1) eqn:Hb1.
    + inversion Hclone as [Hb]. clear Hclone.
      apply isOk_true in Hb1. rewrite Hb1 in Herrs. symmetry in Herrs.
      apply app_eq_nil in Herrs. destruct Herrs as [_ Herrs].
      symmetry in Hmissing.
      rewrite concat_nil_Forall in Herrs, Hmissing.
      exists rs. split; [exact Hall|]. split; [|simpl; now rewrite Hargs].
      rewrite Forall_map in Herrs, Hmissing.
      rewrite Forall_forall in *. intros r Hr. split; auto.
    + inversion Hclone as [Hb]. subst b.
      apply isOk_false in Hb1. contradiction.
  - exfalso. destruct (isOk _) eqn:Hb.
    + unfold isOk, addError in Hb. simpl in Hb.
      destruct (errors b1); discriminate.
    + inversion Hclone as [Hb']. subst b.
      apply isOk_false in Hb. contradiction.
Qed.

(** A field is read with [any[field.name]], which also finds what the
    input inherits: the empty array holds no field [map], yet the read
    gives the method of that name, and the record reports an invalid
    value for the field instead of a missing field. *)
Lemma inherited_property_read_as_field :
  fromJSON Samples.inherited Samples.numCompare (VArr [])
    (Samples.recordOf "R" [Field "map" Samples.intType VUndefined]) None
  = Throw (IncompatibleValue
             (Samples.recordOf "R" [Field "map" Samples.intType VUndefined])
             [mkValueError DInvalidValue (VFunction "map") Samples.intType
                [PKey "map"]]).
Proof. reflexivity. Qed.

(** C3. A field named [__proto__] never reaches the encoded record,
    whatever the platform lets objects inherit.  The input
    [{"__proto__": 7}] as [JSON.parse] gives it holds the value 7 for the
    field [__proto__] of the record, an int of default 5; it is encoded
    without error, and the output is the empty object both without and
    with [omitDefaultValues], although 7 does not compare equal to the
    default: the assignment of the field on the fresh output object
    creates no property. *)
Theorem field_named_proto_is_dropped_on_encode :
  forall inherited,
    readProp inherited protoValue "__proto__" = VNum 7
    /\ Samples.numCompare Samples.intType (VNum 7) (VNum 5) <> 0%Z
    /\ toJSON inherited Samples.numCompare protoValue protoRecord None
       = Ok (VObj [])
    /\ toJSON inherited Samples.numCompare protoValue protoRecord
         (Some (mkOptions VUndefined (VBool true)))
       = Ok (VObj [])
    /\ toJSON inherited Samples.numCompare (VObj [("a", VNum 7)]) defaultedRecord
         None
       = Ok (VObj [("a", VNum 7)]).
Proof.
  intros inherited. split; [reflexivity|]. split; [discriminate|].
  split; [reflexivity|]. split; reflexivity.
Qed.

(** X16. In an error-free [TO_JSON] encoding of a record, a field that the
    input carries, that declares a default and that is not named
    [__proto__] is left out of the output object exactly when
    [omitDefaultValues] is set, the transcoding of the field is error-free
    and the input value of the field compares equal to the default;
    otherwise (in particular whenever [omitDefaultValues] is not set) the
    output holds the transcoded value under the field name. *)
Theorem default_elision_on_encode :
  forall inherited compare allow omit isError name fields ctor
         (any : value) (path : path) (b : Builder) (field : field),
    let this := mkCloner TO_JSON allow omit in
    let fieldAny := readProp inherited any (fname field) in
    NoDup (map fname fields) ->
    In field fields ->
    fname field <> "__proto__" ->
    fieldAny <> VUndefined ->
    fdefault field <> VUndefined ->
    clone inherited compare this (TRecord isError name fields ctor) any path = Ok b ->
    errors b = [] ->
    exists fb props,
      clone inherited compare this (ftype field) fieldAny
        (path ++ [PKey (fname field)]) = Ok fb
      /\ bvalue b = VObj props
      /\ (assoc (fname field) props = None
          <-> omit = true /\ errors fb = []
              /\ compare (ftype field) fieldAny (fdefault field) = 0%Z)
      /\ (assoc (fname field) props <> None ->
          assoc (fname field) props = Some (bvalue fb))
      /\ (omit = false -> assoc (fname field) props = Some (bvalue fb)).
Proof.
  intros inherited compare allow omit isError name fields ctor any path b field this fieldAny
    Hnd Hin Hname Hpresent Hdefault Hclone Hok.
  apply assignable_true in Hname.
  destruct (record_to_json_ok inherited compare this isError name fields ctor any path b
              eq_refl Hclone Hok) as [rs [Hall [Hclean Hvalue]]].
  assert (Hfc : In (field, clone inherited compare this (ftype field))
                  (map (fun f => (f, clone inherited compare this (ftype f))) fields))
    by (apply in_map_iff; now exists field).
  destruct (Forall2_In_combine _ _ _ Hall _ Hfc) as [[[errs fm] v] [Hpos Hres]].
  assert (Herrs : errs = []).
  { rewrite Forall_forall in Hclean.
    apply in_combine_r in Hpos. now destruct (Hclean _ Hpos). }
  subst errs.
  pose proof (in_combine_map fst snd _ _ _ _ Hpos) as Hpos'.
  rewrite map_fst_fieldClones in Hpos'. simpl in Hpos'.
  pose proof (recordObject_lookup fields Hnd _ [] _ _ Hpos') as Hlookup.
  simpl assoc in Hlookup. rewrite Hname, orb_false_r in Hlookup.
  unfold fieldResult, recordField in Hres. fold fieldAny in Hres.
  apply isUndefined_false in Hpresent. rewrite Hpresent in Hres.
  simpl andb in Hres. cbv iota in Hres.
  destruct (clone inherited compare this (ftype field) fieldAny (path ++ [PKey (fname field)]))
    as [fb|e] eqn:Efb; cbn [bind] in Hres; [|discriminate].
  unfold copyErrorsFrom in Hres. simpl in Hres.
  injection Hres as Hfb Hfm Hv. subst v fm.
  assert (Hdefined : bvalue fb <> VUndefined).
  { eapply (clone_to_json_defined inherited compare this eq_refl); eauto.
    now apply isUndefined_false. }
  exists fb, (recordObject fields (map snd rs) []).
  split; [reflexivity|]. split; [exact Hvalue|].
  apply isUndefined_false in Hdefault.
  assert (HisOk : isOk fb = true) by now apply isOk_true.
  rewrite Hlookup. simpl _omitDefaultValues. rewrite HisOk, Hdefault.
  simpl negb. rewrite andb_true_r.
  apply isUndefined_false in Hdefined.
  destruct omit; simpl andb.
  - destruct (Z.eqb (compare (ftype field) fieldAny (fdefault field)) 0) eqn:Ecmp.
    + apply Z.eqb_eq in Ecmp. simpl.
      split; [tauto|]. split; [congruence | discriminate].
    + apply Z.eqb_neq in Ecmp. rewrite Hdefined.
      split; [|tauto]. split; [discriminate | tauto].
  - simpl. rewrite Hdefined.
    split; [|tauto]. split; [discriminate | intros [H _]; discriminate].
Qed.

Lemma default_elision_on_encode_witness :
  toJSON Samples.inherited Samples.numCompare (VObj [("a", VNum 5)]) defaultedRecord
    (Some (mkOptions VUndefined (VBool true))) = Ok (VObj [])
  /\ toJSON Samples.inherited Samples.numCompare (VObj [("a", VNum 5)]) defaultedRecord None
     = Ok (VObj [("a", VNum 5)])
  /\ toJSON Samples.inherited Samples.numCompare (VObj [("a", VNum 6)]) defaultedRecord
       (Some (mkOptions VUndefined (VBool true))) = Ok (VObj [("a", VNum 6)])
  /\ exists fb props,
       clone Samples.inherited Samples.numCompare (mkCloner TO_JSON false true) Samples.intType
         (VNum 5) [PKey "a"] = Ok fb
       /\ VObj [] = VObj props
       /\ (assoc "a" props = None
           <-> true = true /\ errors fb = []
               /\ Samples.numCompare Samples.intType (VNum 5) (VNum 5) = 0%Z)
       /\ (assoc "a" props <> None -> assoc "a" props = Some (bvalue fb))
       /\ (true = false -> assoc "a" props = Some (bvalue fb)).
Proof.
  split; [reflexivity|]. split; [reflexivity|]. split; [reflexivity|].
  apply (default_elision_on_encode Samples.inherited Samples.numCompare false true false (Some "R")
           [Field "a" Samples.intType (VNum 5)]
           (fun args => VObj (construct
                                [Field "a" Samples.intType (VNum 5)] args))
           (VObj [("a", VNum 5)]) [] (mkBuilder (VObj []) [])
           (Field "a" Samples.intType (VNum 5))).
  - repeat constructor. simpl. tauto.
  - now left.
  - discriminate.
  - discriminate.
  - discriminate.
  - reflexivity.
  - reflexivity.
Defined.

(* ------------------------------------------------------------------ *)
(** ** The aggregated failure *)

Lemma arrayLoop_spec (cloneItem : cloneAt) (path : path) :
  forall items i builder val builder' val',
    arrayLoop cloneItem path items i builder val = Ok (builder', val') ->
    exists bs,
      Forall2 (itemResult cloneItem path)
        (combine (seq i (List.length items)) items) bs
      /\ errors builder' = errors builder ++ List.concat (map errors bs).
Proof.
  induction items as [|item rest IH]; intros i builder val builder' val' Hloop;
    cbn [arrayLoop] in Hloop.
  - ok_inv Hloop. exists []. simpl. rewrite app_nil_r. split; constructor.
  - destruct (cloneItem item (path ++ [PIndex i])) as [ib|e] eqn:E;
      cbn [bind] in Hloop; [|discriminate].
    apply IH in Hloop. destruct Hloop as [bs [Hall Herrs]].
    exists (ib :: bs). split; [simpl; now constructor|].
    simpl in Herrs. simpl. now rewrite Herrs, app_assoc.
Qed.

(** *** What a node accumulates *)

Section Accumulates.

Variable inherited : value -> string -> value.
Variable compare : avtype -> value -> value -> Z.
Variable this : Cloner.

Lemma fieldResult_missing (any : value) (p : path) (f : field) (c : cloneAt)
  errs fm v :
  fieldResult inherited compare this any p (f, c) (errs, fm, v) ->
  fm = if isUndefined (readProp inherited any (fname f))
          && isUndefined (fdefault f)
       then [fname f] else [].
Proof.
  unfold fieldResult, recordField. intros H.
  destruct (isUndefined (readProp inherited any (fname f))
            && isUndefined (fdefault f)).
  - now ok_inv H.
  - destruct (isUndefined (readProp inherited any (fname f))).
    + destruct (isToJSON (_mode this) && negb (_omitDefaultValues this)).
      * destruct (c (fdefault f) (p ++ [PKey (fname f)])); cbn [bind] in H;
          [|discriminate]. now ok_inv H.
      * now ok_inv H.
    + destruct (c (readProp inherited any (fname f)) (p ++ [PKey (fname f)]));
        cbn [bind] in H; [|discriminate]. now ok_inv H.
Qed.

Lemma fieldResults_missing (any : value) (p : path) :
  forall fieldClones rs,
    Forall2 (fieldResult inherited compare this any p) fieldClones rs ->
    List.concat (map (fun r => snd (fst r)) rs)
    = missingNames inherited any (map fst fieldClones).
Proof.
  induction 1 as [|[f c] [[errs fm] v] fcs rs Hone _ IH]; [reflexivity|].
  apply fieldResult_missing in Hone. unfold missingNames in *.
  cbn [map List.concat fst snd filter]. rewrite IH, Hone.
  now destruct (isUndefined (readProp inherited any (fname f))
                && isUndefined (fdefault f)).
Qed.

(** The errors one field contributes are those of the transcoding of its
    value when the input has the field, and none otherwise. *)
Lemma fieldResult_errors (any : value) (p : path) (f : field) errs fm v :
  fieldResult inherited compare this any p
    (f, clone inherited compare this (ftype f)) (errs, fm, v) ->
  if isUndefined (readProp inherited any (fname f)) then errs = []
  else exists fb, fieldCall inherited compare this any p f fb /\ errs = errors fb.
Proof.
  unfold fieldResult, recordField, fieldCall. intros H.
  destruct (isUndefined (readProp inherited any (fname f))); cbn [andb] in H.
  - destruct (isUndefined (fdefault f)); [now ok_inv H|].
    destruct (isToJSON (_mode this) && negb (_omitDefaultValues this)).
    + destruct (clone inherited compare this (ftype f) (fdefault f)
                  (p ++ [PKey (fname f)])); cbn [bind] in H; [|discriminate].
      now ok_inv H.
    + now ok_inv H.
  - destruct (clone inherited compare this (ftype f)
                (readProp inherited any (fname f)) (p ++ [PKey (fname f)]))
      as [fb|e]; cbn [bind] in H; [|discriminate].
    exists fb. split; [reflexivity|]. now ok_inv H.
Qed.

Lemma fieldResults_errors (any : value) (p : path) :
  forall fields rs,
    Forall2 (fieldResult inherited compare this any p)
      (map (fun f => (f, clone inherited compare this (ftype f))) fields) rs ->
    exists fbs,
      Forall2 (fieldCall inherited compare this any p)
        (presentFields inherited any fields) fbs
      /\ List.concat (map (fun r => fst (fst r)) rs)
         = List.concat (map errors fbs).
Proof.
  induction fields as [|f fields IH]; intros rs Hall;
    inversion Hall as [|? [[errs fm] v] ? rs' Hone Hrest]; subst.
  - exists []. split; [constructor | reflexivity].
  - destruct (IH _ Hrest) as [fbs [Hcalls Hsame]].
    apply fieldResult_errors in Hone. unfold presentFields in *.
    cbn [filter map List.concat fst snd].
    destruct (isUndefined (readProp inherited any (fname f))); cbn [negb].
    + subst errs. exists fbs. split; [exact Hcalls | exact Hsame].
    + destruct Hone as [fb [Hfb ->]]. exists (fb :: fbs).
      split; [now constructor|]. cbn [map List.concat]. now rewrite Hsame.
Qed.

(** The errors of a record: the report of undeclared fields, the errors of
    the fields the input has, in field order, the report of missing
    fields. *)
Lemma onRecord_accumulates isError name fields ctor (any : value) (p : path) b :
  notAnObject any = false ->
  clone inherited compare this (TRecord isError name fields ctor) any p = Ok b ->
  exists fbs,
    Forall2 (fieldCall inherited compare this any p)
      (presentFields inherited any fields) fbs
    /\ errors b
       = undeclaredReport this any (TRecord isError name fields ctor) p fields
         ++ List.concat (map errors fbs)
         ++ missingReport inherited any (TRecord isError name fields ctor) p
              fields.
Proof.
  intros Hguard Hclone. cbn [clone] in Hclone. unfold _onRecord in Hclone.
  rewrite Hguard in Hclone. unfold recordFields in Hclone.
  rewrite (Object_keys_object any Hguard) in Hclone. cbn [bind] in Hclone.
  rewrite map_map in Hclone. cbn [fst] in Hclone. rewrite map_id in Hclone.
  match type of Hclone with
  | bind ?m _ = _ => destruct m as [b0|e] eqn:E0; cbn [bind] in Hclone; [|discriminate]
  end.
  assert (H0 : errors b0
               = undeclaredReport this any (TRecord isError name fields ctor) p
                   fields).
  { unfold undeclaredReport.
    destruct (_allowUndeclaredFields this); [now ok_inv E0|].
    destruct (undeclaredFields fields (ownKeys any)); now ok_inv E0. }
  match type of Hclone with
  | bind ?m _ = _ => destruct m as [[[b1 missing] args]|e] eqn:E;
                     cbn [bind] in Hclone; [|discriminate]
  end.
  apply recordLoop_spec in E. destruct E as [rs [Hall [Herrs [Hmissing _]]]].
  pose proof (fieldResults_missing any p _ rs Hall) as Hnames.
  rewrite map_map in Hnames. cbn [fst] in Hnames. rewrite map_id in Hnames.
  cbn [app] in Hmissing. rewrite Hnames in Hmissing.
  destruct (fieldResults_errors any p fields rs Hall) as [fbs [Hcalls Hsame]].
  exists fbs. split; [exact Hcalls|].
  ok_inv Hclone. rewrite errors_record_result. unfold missingReport.
  rewrite <- Hsame.
  destruct (missingNames inherited any fields); cbn [errors addError];
    rewrite Herrs, H0, <- ?app_assoc, ?app_nil_r; reflexivity.
Qed.

Lemma unionResolve_unionInput wrapped types branchTypeOf (any : value) (p : path)
  any' :
  unionResolve this types (TUnion wrapped types branchTypeOf) wrapped branchTypeOf
    any p = Ok (inr any') ->
  unionInput this wrapped types branchTypeOf any any'.
Proof.
  unfold unionResolve. intros H.
  destruct (isFromDefaultJSON (_mode this)) eqn:Hdefault.
  - destruct types as [|first rest] eqn:Htypes; [discriminate|].
    destruct (isNullType first) eqn:Hfirst; ok_inv H.
    now apply unionInput_first with (rest := rest).
  - destruct (isToJSON (_mode this)) eqn:Hto; cbn [andb] in H.
    + destruct wrapped; cbn [negb] in H.
      * ok_inv H. apply unionInput_same; [assumption | now right].
      * destruct (branchTypeOf any) as [branchType|] eqn:Hbranch; ok_inv H.
        now apply unionInput_resolved.
    + ok_inv H. apply unionInput_same; [assumption | now left].
Qed.

Lemma unionInput_defined wrapped types branchTypeOf (any any' : value) :
  any <> VNull ->
  unionInput this wrapped types branchTypeOf any any' -> any' <> VNull.
Proof. intros Hany H. destruct H; try discriminate. exact Hany. Qed.

Lemma clone_accumulates (type : avtype) (any : value) (p : path) b :
  clone inherited compare this type any p = Ok b ->
  accumulates inherited compare this type any p (errors b).
Proof.
  destruct type as [kind name isValid | itemsType | valuesType
                   | isError name fields ctor | wrapped types branchTypeOf
                   | name underlying toValue fromValue];
    cbn [clone]; intros Hclone.
  - unfold _onPrimitive, primitiveCheck in Hclone.
    rewrite isType_buffer in Hclone.
    destruct (isBufferKind kind) eqn:Hkind; cbn [andb] in Hclone.
    + destruct (isToJSON (_mode this)) eqn:Hto; cbn [negb andb] in Hclone.
      * destruct (isValid any) eqn:Hvalid; cbn [bind] in Hclone;
          [|discriminate].
        destruct (bufferFrom any) as [copy|e]; cbn [bind] in Hclone;
          [|discriminate].
        destruct (toStringBinary (bvalue (setValue newBuilder copy)));
          cbn [bind] in Hclone; [|discriminate].
        ok_inv Hclone. now apply accumulates_encoded_bytes.
      * destruct any;
          try (ok_inv Hclone; apply accumulates_not_string;
               [assumption | assumption | discriminate]).
        destruct (isValid (bufferFromBinary s)) eqn:Hvalid; cbn in Hclone;
          ok_inv Hclone.
        -- now apply accumulates_bytes.
        -- now apply accumulates_invalid_bytes.
    + rewrite andb_false_r in Hclone.
      destruct (isValid any) eqn:Hvalid; cbn [bind] in Hclone; ok_inv Hclone.
      * now apply accumulates_valid.
      * now apply accumulates_invalid.
  - unfold _onArray in Hclone.
    destruct any;
      try (ok_inv Hclone; apply accumulates_not_array; discriminate).
    destruct (arrayLoop _ _ _ _ _ _) as [[b' val]|e] eqn:E; cbn [bind] in Hclone;
      [|discriminate].
    apply arrayLoop_spec in E. destruct E as [ibs [Hall Herrs]].
    assert (Hb : errors b = List.concat (map errors ibs))
      by (ok_inv Hclone; now destruct (isOk b')).
    rewrite Hb. now apply accumulates_items.
  - unfold _onMap in Hclone. destruct (notAnObject any) eqn:Hguard.
    + ok_inv Hclone. now apply accumulates_not_map.
    + unfold mapEntries in Hclone.
      rewrite (Object_keys_object any Hguard) in Hclone. cbn [bind] in Hclone.
      destruct (mapLoop _ _ _ _ _ _) as [[b' val]|e] eqn:E; cbn [bind] in Hclone;
        [|discriminate].
      apply mapLoop_spec in E. destruct E as [vbs [Hall [Herrs _]]].
      assert (Hb : errors b = List.concat (map errors vbs))
        by (ok_inv Hclone; now destruct (isOk b')).
      rewrite Hb. now apply accumulates_entries.
  - destruct (notAnObject any) eqn:Hguard.
    + unfold _onRecord in Hclone. rewrite Hguard in Hclone. ok_inv Hclone.
      now apply accumulates_not_record.
    + destruct (onRecord_accumulates isError name fields ctor any p b Hguard
                  Hclone) as [fbs [Hcalls ->]].
      now apply accumulates_fields.
  - destruct (value_is_null any) as [->|Hany].
    + unfold _onUnion in Hclone. rewrite map_fst_branches in Hclone.
      destruct (existsb isNullType types) eqn:Hnull; ok_inv Hclone.
      * now apply accumulates_null.
      * now apply accumulates_is_null.
    + rewrite (onUnion_not_null this _ _ branchTypeOf any p Hany) in Hclone.
      rewrite map_fst_branches in Hclone.
      assert (Hw : String.eqb (typeName (TUnion wrapped types branchTypeOf))
                     "union:wrapped" = wrapped) by now destruct wrapped.
      rewrite Hw in Hclone.
      destruct (unionResolve this types (TUnion wrapped types branchTypeOf)
                  wrapped branchTypeOf any p) as [[early|any']|e] eqn:Hres;
        cbn [bind] in Hclone; try discriminate.
      * ok_inv Hclone. unfold unionResolve in Hres.
        destruct (isFromDefaultJSON (_mode this)) eqn:Hdefault.
        -- destruct types as [|first rest] eqn:Htypes; [discriminate|].
           destruct (isNullType first) eqn:Hfirst; ok_inv Hres.
           now apply accumulates_first_null with (first := first) (rest := rest).
        -- destruct (isToJSON (_mode this)) eqn:Hto; cbn [andb] in Hres;
             [|discriminate].
           destruct wrapped; cbn [negb] in Hres; [discriminate|].
           destruct (branchTypeOf any) eqn:Hbranch; ok_inv Hres.
           now apply accumulates_no_branch.
      * apply unionResolve_unionInput in Hres.
        pose proof (unionInput_defined _ _ _ _ _ Hany Hres) as Hany'.
        unfold unionBranch in Hclone.
        destruct (String.eqb (typeof any') "object") eqn:Hobj;
          cbn [negb] in Hclone.
        -- apply String.eqb_eq in Hobj.
           assert (Hkeys : Object_keys any' = Ok (ownKeys any'))
             by (destruct any'; try reflexivity; now elim Hany').
           rewrite Hkeys in Hclone. cbn [bind] in Hclone.
           destruct (ownKeys any') as [|key [|key2 more]] eqn:Hown.
           ++ ok_inv Hclone. rewrite <- Hown.
              apply accumulates_key_count; auto. rewrite Hown. discriminate.
           ++ rewrite branchByName_typeByName in Hclone.
              destruct (typeByName key types) as [branch|] eqn:Hbranch.
              ** destruct (clone inherited compare this branch (getProp any' key)
                             (p ++ [PKey key])) as [bb|e] eqn:Hbb;
                   cbn [bind] in Hclone; [|discriminate].
                 assert (Hb : errors b = errors bb).
                 { ok_inv Hclone.
                   now destruct (isOk bb);
                     [destruct (isToJSON _); [|destruct (negb _)]|]. }
                 rewrite Hb.
                 now apply accumulates_branch
                   with (any' := any') (key := key) (branch := branch).
              ** ok_inv Hclone.
                 now apply accumulates_unknown_branch.
           ++ ok_inv Hclone. rewrite <- Hown.
              apply accumulates_key_count; auto. rewrite Hown. discriminate.
        -- apply String.eqb_neq in Hobj. ok_inv Hclone.
           now apply accumulates_not_object.
  - unfold _onLogical in Hclone.
    destruct (isToJSON (_mode this)) eqn:Hto.
    + destruct (toValue any) as [u|message] eqn:Hhook.
      * destruct (isUndefined u) eqn:Hu.
        -- apply isUndefined_true in Hu. subst u. ok_inv Hclone.
           now apply accumulates_encoding_undefined.
        -- apply isUndefined_false in Hu.
           assert (Hgo : clone inherited compare this underlying u p = Ok b)
             by (destruct u; try exact Hclone; now elim Hu).
           now apply accumulates_encoded with (u := u).
      * ok_inv Hclone. now apply accumulates_encoding_raised.
    + destruct (clone inherited compare this underlying any p) as [ub|e] eqn:Hub;
        cbn [bind] in Hclone; [|discriminate].
      destruct (isOk ub) eqn:Hok; cbn [negb] in Hclone.
      * apply isOk_true in Hok.
        destruct (fromValue (bvalue ub)) as [v|message] eqn:Hhook;
          ok_inv Hclone; cbn [errors setValue addError]; rewrite ?Hok.
        -- now apply accumulates_decoded with (ub := ub) (v := v).
        -- now apply accumulates_decoding_raised with (ub := ub).
      * apply isOk_false in Hok. ok_inv Hclone.
        now apply accumulates_underlying.
Qed.

End Accumulates.



(* ------------------------------------------------------------------ *)
(** ** Round trip: the loops when every recursive call succeeds *)

Lemma arrayLoop_ok (cloneItem : cloneAt) (path : path) :
  forall items js, Forall2 (yields cloneItem) items js ->
  forall i val,
    arrayLoop cloneItem path items i newBuilder val = Ok (newBuilder, val ++ js).
Proof.
  induction 1 as [|item j items js Hj _ IH]; intros i val; cbn [arrayLoop].
  - now rewrite app_nil_r.
  - rewrite Hj. cbn [bind].
    change (copyErrorsFrom newBuilder (mkBuilder j [])) with newBuilder.
    change (isOk newBuilder) with true. cbv iota.
    rewrite IH. cbn [bvalue]. now rewrite <- app_assoc.
Qed.

Lemma onArray_ok (cloneItem : cloneAt) (type : avtype) (items js : list value) :
  Forall2 (yields cloneItem) items js ->
  yields (_onArray cloneItem type) (VArr items) (VArr js).
Proof.
  intros Hall p. unfold _onArray. rewrite (arrayLoop_ok _ _ _ _ Hall). reflexivity.
Qed.

Lemma mapLoop_ok (cloneValue : cloneAt) (any : value) (path : path) :
  forall keys js,
    Forall2 (fun key j => yields cloneValue (getProp any key) j) keys js ->
    forall val,
      mapLoop cloneValue any path keys newBuilder val
      = Ok (newBuilder, assignAll val (combine keys js)).
Proof.
  induction 1 as [|key j keys js Hj _ IH]; intros val; cbn [mapLoop].
  - reflexivity.
  - rewrite Hj. cbn [bind].
    change (copyErrorsFrom newBuilder (mkBuilder j [])) with newBuilder.
    change (isOk newBuilder) with true. cbv iota.
    now rewrite IH.
Qed.

Lemma map_fst_combine {A B : Type} (l : list A) (l' : list B) :
  List.length l = List.length l' -> map fst (combine l l') = l.
Proof.
  revert l'. induction l as [|a l IH]; intros [|b l'] Hlen; simpl in *;
    try discriminate; [reflexivity|].
  f_equal. apply IH. lia.
Qed.

Lemma sortKeys_idempotent_on_keys (ks : list string) :
  sortKeys (enumerationOrder (sortKeys ks)) = sortKeys ks.
Proof.
  apply sortKeys_Permutation.
  rewrite enumerationOrder_is_Permutation. apply sortKeys_is_Permutation.
Qed.

(** Reading the entries of an object built key by key. *)
Lemma assoc_combine_map_In (g : string -> value) (ks : list string) (k : string) :
  In k ks -> assoc k (combine ks (map g ks)) = Some (g k).
Proof.
  induction ks as [|k0 ks IH]; simpl; [contradiction|].
  destruct (String.eqb k0 k) eqn:E.
  - apply String.eqb_eq in E. now subst.
  - apply String.eqb_neq in E. intros [Heq|Hin]; [contradiction | auto].
Qed.

Lemma assoc_combine_map_notIn (g : string -> value) (ks : list string) (k : string) :
  ~ In k ks -> assoc k (combine ks (map g ks)) = None.
Proof.
  intros Hk. apply assoc_None. rewrite map_fst_combine; [exact Hk|].
  now rewrite length_map.
Qed.

Lemma Forall_Forall2_map {A B : Type} (R : A -> B -> Prop) (f : A -> B) (l : list A) :
  Forall (fun a => R a (f a)) l -> Forall2 R l (map f l).
Proof. induction 1; simpl; now constructor. Qed.

Lemma in_combine_map_self {A B : Type} (g : A -> B) (l : list A) (a : A) :
  In a l -> In (a, g a) (combine l (map g l)).
Proof.
  induction l as [|x l IH]; simpl; [contradiction|].
  intros [Heq|Hin]; [subst; now left | right; auto].
Qed.

Lemma fieldByName_None (k : string) (fields : list field) :
  fieldByName k fields = None <-> ~ In k (map fname fields).
Proof.
  induction fields as [|f fields IH]; simpl; [tauto|].
  destruct (String.eqb (fname f) k) eqn:E.
  - apply String.eqb_eq in E. split; [discriminate | intros H; elim H; now left].
  - apply String.eqb_neq in E. rewrite IH. tauto.
Qed.

Lemma undeclaredFields_nil (fields : list field) (names : list string) :
  (forall k, In k names -> In k (map fname fields)) ->
  undeclaredFields fields names = [].
Proof.
  induction names as [|k names IH]; intros Hall; simpl; [reflexivity|].
  destruct (fieldByName k fields) eqn:E.
  - apply IH. intros k' Hk'. apply Hall. now right.
  - apply fieldByName_None in E. elim E. apply Hall. now left.
Qed.

Lemma recordObject_keys (fields : list field) :
  forall args obj k,
    In k (map fst (recordObject fields args obj)) ->
    In k (map fst obj) \/ In k (map fname fields).
Proof.
  induction fields as [|f fields IH]; intros args obj k Hk; simpl in *; [now left|].
  destruct args as [|v args]; [now left|].
  apply IH in Hk. destruct Hk as [Hk|Hk]; [|right; now right].
  destruct (isUndefined v); [now left|].
  assert (Hset : forall props, In k (map fst (setProp props (fname f) v)) ->
                               In k (map fst props) \/ fname f = k).
  { clear. intros props. rewrite setProp_assignable.
    destruct (assignable (fname f)); [|tauto].
    induction props as [|[k0 v0] rest IHp]; simpl.
    - tauto.
    - destruct (String.eqb k0 (fname f)) eqn:E; simpl.
      + apply String.eqb_eq in E. subst k0. tauto.
      + intros [H|H]; [tauto|]. apply IHp in H. tauto. }
  apply Hset in Hk. destruct Hk as [Hk|Hk]; [now left | right; now left].
Qed.

Lemma construct_keys (fields : list field) (g : field -> value) :
  map fst (construct fields (map g fields)) = map fname fields.
Proof. induction fields as [|f fields IH]; simpl; [reflexivity | now rewrite IH]. Qed.

Lemma construct_lookup (fields : list field) (g : field -> value) (f : field) :
  NoDup (map fname fields) -> In f fields ->
  assoc (fname f) (construct fields (map g fields))
  = Some (if isUndefined (g f) then fdefault f else g f).
Proof.
  induction fields as [|f0 fields IH]; simpl; intros Hnd Hin; [contradiction|].
  inversion Hnd as [|? ? Hfresh Hnd']; subst.
  destruct Hin as [Heq|Hin].
  - subst. now rewrite String.eqb_refl.
  - destruct (String.eqb (fname f0) (fname f)) eqn:E; [|now apply IH].
    apply String.eqb_eq in E. elim Hfresh. rewrite E. now apply in_map.
Qed.

Section RecordLoopOk.

Variable inherited : value -> string -> value.
Variable compare : avtype -> value -> value -> Z.
Variable this : Cloner.
Variable any : value.
Variable path : path.

Lemma recordLoop_ok (argOf : field * cloneAt -> value) :
  forall fieldClones,
    (forall fc, In fc fieldClones ->
       forall missing args,
         recordField inherited compare this any path (newBuilder, missing, args) fc
         = Ok (newBuilder, missing, args ++ [argOf fc])) ->
    forall missing args,
      recordLoop inherited compare this any path fieldClones (newBuilder, missing, args)
      = Ok (newBuilder, missing, args ++ map argOf fieldClones).
Proof.
  induction fieldClones as [|fc rest IH]; intros Hall missing args;
    cbn [recordLoop map].
  - now rewrite app_nil_r.
  - rewrite (Hall fc (or_introl eq_refl)). cbn [bind].
    rewrite IH by (intros; apply Hall; now right).
    now rewrite <- app_assoc.
Qed.

End RecordLoopOk.


(* ------------------------------------------------------------------ *)
(** ** Round trip: encoding then decoding *)

Section RoundTripProof.

Variable inherited : value -> string -> value.
Variable compare : avtype -> value -> value -> Z.
Variable omit : bool.
Variables allowE allowD : bool.

Lemma roundTrips_functional (t : avtype) (v : value) :
  roundTrips inherited compare omit allowE allowD t -> valid inherited allowE t v ->
  let j := encoded inherited compare omit allowE t v in
  let v' := decoded inherited compare allowD t j in
  yields (clone inherited compare (encoder omit allowE) t) v j
  /\ yields (clone inherited compare (decoder allowD) t) j v'
  /\ agrees inherited compare omit t v v'.
Proof.
  intros Hrt Hv. destruct (Hrt v Hv) as [j [v' [He [Hd Ha]]]]. cbv zeta.
  assert (Hj : encoded inherited compare omit allowE t v = j)
    by (unfold encoded; now rewrite He).
  rewrite Hj.
  assert (Hv' : decoded inherited compare allowD t j = v')
    by (unfold decoded; now rewrite Hd).
  now rewrite Hv'.
Qed.

(** From here on the notions are taken at the parameters of the section. *)
Local Abbreviation encoder := (encoder omit allowE).
Local Abbreviation decoder := (decoder allowD).
Local Abbreviation encoded := (encoded inherited compare omit allowE).
Local Abbreviation decoded := (decoded inherited compare allowD).
Local Abbreviation roundTrips := (roundTrips inherited compare omit allowE allowD).
Local Abbreviation valid := (valid inherited allowE).
Local Abbreviation agrees := (agrees inherited compare omit).
Local Abbreviation wellFormed := (wellFormed inherited allowE compare omit).

Lemma roundTrips_primitive kind name isValid : roundTrips (TPrim kind name isValid).
Proof.
  intros v Hv.
  inversion Hv as [? ? ? ? Hkind Hvalid | ? ? ? bytes Hkind Hvalid | | | | | | | ];
    subst.
  - exists v, v. repeat split; try constructor; intros p; simpl;
      unfold _onPrimitive; rewrite isType_buffer, Hkind; simpl;
      unfold primitiveCheck; rewrite Hvalid; reflexivity.
  - exists (VStr (string_of_list_byte bytes)), (VBuf bytes).
    repeat split; try constructor; intros p; simpl;
      unfold _onPrimitive; rewrite isType_buffer, Hkind; simpl;
      unfold primitiveCheck, bufferFromBinary;
      rewrite ?list_byte_of_string_of_list_byte, Hvalid; reflexivity.
Qed.

Lemma roundTrips_array itemsType : roundTrips itemsType -> roundTrips (TArray itemsType).
Proof.
  intros IH v Hv. inversion Hv as [| | ? items Hitems | | | | | | ]; subst.
  assert (Hall : Forall (fun item =>
                   yields (clone inherited compare encoder itemsType) item
                     (encoded itemsType item)
                   /\ yields (clone inherited compare decoder itemsType)
                        (encoded itemsType item)
                        (decoded itemsType (encoded itemsType item))
                   /\ agrees itemsType item
                        (decoded itemsType (encoded itemsType item))) items).
  { revert Hitems. apply Forall_impl. intros item. now apply roundTrips_functional. }
  exists (VArr (map (encoded itemsType) items)),
         (VArr (map (decoded itemsType) (map (encoded itemsType) items))).
  split; [|split].
  - apply onArray_ok. apply Forall_Forall2_map.
    revert Hall. apply Forall_impl. tauto.
  - apply onArray_ok. apply Forall_Forall2_map. rewrite Forall_map.
    revert Hall. apply Forall_impl. tauto.
  - constructor. rewrite map_map. apply Forall_Forall2_map.
    revert Hall. apply Forall_impl. tauto.
Qed.

Lemma assoc_Some_of_key (k : string) (props : list (string * value)) :
  In k (map fst props) -> exists x, assoc k props = Some x /\ In (k, x) props.
Proof.
  intros Hk. destruct (assoc k props) as [x|] eqn:E.
  - exists x. split; [reflexivity | now apply assoc_In].
  - apply assoc_None in E. contradiction.
Qed.

(** Where no key is [__proto__], every assignment creates its property. *)
Lemma filter_assignable_combine (ks : list string) :
  ~ In "__proto__" ks ->
  forall vs : list value,
    filter (fun kv => assignable (fst kv)) (combine ks vs) = combine ks vs.
Proof.
  induction ks as [|k ks IH]; intros Hnone vs; [reflexivity|].
  destruct vs as [|v vs]; [reflexivity|]. cbn [combine filter fst].
  assert (Hk : assignable k = true)
    by (apply assignable_true; intros Heq; apply Hnone; now left).
  rewrite Hk, IH; [reflexivity|]. intros Hin. apply Hnone. now right.
Qed.

Lemma roundTrips_map valuesType : roundTrips valuesType -> roundTrips (TMap valuesType).
Proof.
  intros IH v Hv. inversion Hv as [| | | ? props Hnd Hproto Hvalues | | | | | ]; subst.
  set (ks := sortKeys (enumerationOrder (map fst props))).
  set (encK := fun k => encoded valuesType (getProp (VObj props) k)).
  set (decK := fun k => decoded valuesType (encK k)).
  assert (Hks : Permutation ks (map fst props)).
  { unfold ks. rewrite sortKeys_is_Permutation.
    apply enumerationOrder_is_Permutation. }
  assert (Hndks : NoDup ks)
    by (eapply Permutation_NoDup; [apply Permutation_sym, Hks | exact Hnd]).
  assert (Hprotoks : ~ In "__proto__" ks)
    by (intros Hin; apply Hproto; exact (Permutation_in _ Hks Hin)).
  assert (Hall : forall k, In k ks ->
            yields (clone inherited compare encoder valuesType)
              (getProp (VObj props) k) (encK k)
            /\ yields (clone inherited compare decoder valuesType) (encK k) (decK k)
            /\ agrees valuesType (getProp (VObj props) k) (decK k)).
  { intros k Hk. apply roundTrips_functional; [exact IH|].
    apply (Permutation_in _ Hks) in Hk.
    destruct (assoc_Some_of_key _ _ Hk) as [x [Hx Hin]].
    simpl. rewrite Hx. rewrite Forall_forall in Hvalues.
    exact (Hvalues _ Hin). }
  exists (VObj (combine ks (map encK ks))), (VObj (combine ks (map decK ks))).
  split; [|split].
  - intros p. simpl. unfold _onMap.
    change (notAnObject (VObj props)) with false. cbv iota.
    unfold mapEntries, Object_keys. cbn [bind ownKeys]. fold ks.
    rewrite (mapLoop_ok _ (VObj props) p ks (map encK ks)).
    + cbn [bind]. rewrite assignAll_fresh; [| exact Hndks | now intros].
      now rewrite filter_assignable_combine.
    + apply Forall_Forall2_map. apply Forall_forall. intros k Hk.
      now apply Hall.
  - intros p. simpl. unfold _onMap.
    change (notAnObject (VObj (combine ks (map encK ks)))) with false. cbv iota.
    unfold mapEntries, Object_keys. cbn [bind ownKeys].
    rewrite map_fst_combine by (now rewrite length_map).
    replace (sortKeys (enumerationOrder ks)) with ks
      by (unfold ks; now rewrite sortKeys_idempotent_on_keys).
    rewrite (mapLoop_ok _ _ p ks (map decK ks)).
    + cbn [bind]. rewrite assignAll_fresh; [| exact Hndks | now intros].
      now rewrite filter_assignable_combine.
    + apply Forall_Forall2_map. apply Forall_forall. intros k Hk.
      simpl. rewrite assoc_combine_map_In by exact Hk. now apply Hall.
  - constructor. intros k.
    destruct (in_dec string_dec k ks) as [Hk|Hk].
    + rewrite assoc_combine_map_In by exact Hk.
      destruct (Hall k Hk) as [_ [_ Hagree]].
      apply (Permutation_in _ Hks) in Hk.
      destruct (assoc_Some_of_key _ _ Hk) as [x [Hx Hin]].
      simpl in Hagree. rewrite Hx in *.
      now constructor.
    + rewrite assoc_combine_map_notIn by exact Hk.
      assert (Hnone : assoc k props = None).
      { apply assoc_None. intros Hin. apply Hk.
        eapply Permutation_in; [apply Permutation_sym, Hks | exact Hin]. }
      rewrite Hnone. constructor.
Qed.

Lemma setProp_first (k : string) (v : value) :
  k <> "__proto__" -> setProp [] k v = [(k, v)].
Proof.
  intros Hk. apply assignable_true in Hk. rewrite setProp_assignable.
  now rewrite Hk.
Qed.

Lemma roundTrips_union wrapped types branchTypeOf :
  wellFormed (TUnion wrapped types branchTypeOf) ->
  Forall roundTrips types -> roundTrips (TUnion wrapped types branchTypeOf).
Proof.
  intros Hwf IH w Hw. rewrite Forall_forall in IH.
  inversion Hwf as [| | | | ? ? ? Hnames _ |]; subst.
  inversion Hw; subst.
  - match goal with H : existsb isNullType _ = true |- _ => rename H into Hnull end.
    exists VNull, VNull. repeat split; try constructor; intros p; simpl;
      unfold _onUnion; rewrite map_fst_branches, Hnull; reflexivity.
  - match goal with
    | Hb : typeByName _ _ = Some _, Hx : valid _ _ |- _ =>
        rename Hb into Hbranch; rename Hx into Hvalid
    end.
    destruct (typeByName_Some _ _ _ Hbranch) as [Hin Hkey].
    destruct (IH _ Hin _ Hvalid) as [j [x' [He [Hd Ha]]]].
    exists (VObj [(key, j)]), (VObj [(key, x')]).
    split; [|split].
    + intros p. cbn [clone]. rewrite onUnion_not_null by discriminate.
      unfold unionResolve. simpl. rewrite unionBranch_single.
      rewrite branchByName_typeByName, Hbranch, He. simpl.
      rewrite setProp_first by (now apply Hnames). now rewrite Hkey.
    + intros p. cbn [clone]. rewrite onUnion_not_null by discriminate.
      unfold unionResolve. simpl. rewrite unionBranch_single.
      rewrite branchByName_typeByName, Hbranch, Hd. simpl.
      unfold wrap. now rewrite Hkey.
    + now apply agrees_union_wrapped with (branch := branch).
  - match goal with
    | Hb : typeByName _ _ = Some _, Hx : valid _ _, Hr : branchTypeOf _ = Some _,
      Hn : _ <> VNull |- _ =>
        rename Hb into Hbranch; rename Hx into Hvalid; rename Hr into Hresolved;
        rename Hn into Hnotnull
    end.
    destruct (typeByName_Some _ _ _ Hbranch) as [Hin Hkey].
    destruct (IH _ Hin _ Hvalid) as [j [x' [He [Hd Ha]]]].
    exists (VObj [(branchKey branch, j)]), x'.
    split; [|split].
    + intros p. cbn [clone]. rewrite onUnion_not_null by exact Hnotnull.
      unfold unionResolve. simpl. rewrite Hresolved. cbn [bind]. unfold wrap.
      rewrite unionBranch_single.
      rewrite branchByName_typeByName, Hbranch, He. simpl.
      now rewrite setProp_first by (now apply Hnames).
    + intros p. cbn [clone]. rewrite onUnion_not_null by discriminate.
      unfold unionResolve. simpl. rewrite unionBranch_single.
      rewrite Hkey, branchByName_typeByName, Hbranch, Hd. reflexivity.
    + now apply agrees_union_unwrapped with (resolved := resolved) (branch := branch).
Qed.

Lemma roundTrips_logical name underlying toValue fromValue :
  wellFormed (TLogical name underlying toValue fromValue) ->
  roundTrips underlying ->
  roundTrips (TLogical name underlying toValue fromValue).
Proof.
  intros Hwf IH v Hv.
  inversion Hwf; subst.
  match goal with
  | H : forall v u u', _ -> _ -> _ -> fromValue u' = HReturn v |- _ =>
      rename H into Hhooks
  end.
  inversion Hv; subst.
  match goal with
  | H1 : toValue v = HReturn ?u', H2 : ?u' <> VUndefined,
    H3 : valid underlying ?u' |- _ =>
      rename H1 into Hto; rename H2 into Hdefined; rename H3 into Hu; rename u' into u
  end.
  destruct (IH u Hu) as [j [u' [He [Hd Ha]]]].
  exists j, v. split; [|split].
  - intros p. simpl. unfold _onLogical. simpl. rewrite Hto.
    destruct u; try apply He. now elim Hdefined.
  - intros p. simpl. unfold _onLogical. simpl. rewrite Hd. simpl.
    now rewrite (Hhooks v u u' Hto Hu Ha).
  - constructor.
Qed.

Lemma agrees_defined (t : avtype) (x x' : value) :
  agrees t x x' -> x <> VUndefined -> x' <> VUndefined.
Proof. induction 1; auto; discriminate. Qed.

(** Reading a field off the object that [TO_JSON] built for a record: the
    value handed on for the field, [undefined] when the field was left
    out. *)
Lemma readProp_recordObject (fields : list field) (g : field -> value) (f : field) :
  NoDup (map fname fields) -> In f fields ->
  fname f <> "__proto__" ->
  (forall props, inherited (VObj props) (fname f) = VUndefined) ->
  readProp inherited (VObj (recordObject fields (map g fields) [])) (fname f) = g f.
Proof.
  intros Hnd Hin Hname Hinherited. unfold readProp, hasOwn, getProp.
  rewrite (recordObject_lookup fields Hnd (map g fields) [] f (g f))
    by (now apply in_combine_map_self).
  apply assignable_true in Hname. rewrite Hname, orb_false_r. cbn [assoc].
  destruct (isUndefined (g f)) eqn:E; [|reflexivity].
  apply isUndefined_true in E. now rewrite E, Hinherited.
Qed.

Lemma roundTrips_record isError name fields ctor :
  wellFormed (TRecord isError name fields ctor) ->
  Forall (fun f => roundTrips (ftype f)) fields ->
  roundTrips (TRecord isError name fields ctor).
Proof.
  intros Hwf IH w Hw. rewrite Forall_forall in IH.
  inversion Hwf as [| | | ? ? ? ? Hndf Hnames Hinherited Hctor Hdefaults _ | |];
    subst.
  inversion Hw as [| | | | ? ? ? ? props Hndp Hkeys Hfields | | | |]; subst.
  set (x := fun f => readProp inherited (VObj props) (fname f)).
  set (source := fun f => if isUndefined (x f) then fdefault f else x f).
  set (kept := fun f => if isUndefined (x f) then negb omit
                        else negb (elided compare omit f (x f))).
  set (encF := fun f => encoded (ftype f) (source f)).
  set (decF := fun f => decoded (ftype f) (encF f)).
  set (encArg := fun f => if kept f then encF f else VUndefined).
  set (decArg := fun f => if kept f then decF f else VUndefined).
  assert (Hdefault : forall f, In f fields ->
            kept f = false -> isUndefined (fdefault f) = false).
  { intros f Hf. unfold kept. destruct (isUndefined (x f)) eqn:Hx.
    - intros _. apply isUndefined_true in Hx. apply isUndefined_false.
      now apply (Hfields f Hf).
    - unfold elided. intros Hk. apply negb_false_iff in Hk.
      apply andb_prop in Hk. destruct Hk as [Hk _].
      apply andb_prop in Hk. destruct Hk as [_ Hk].
      now apply negb_true_iff in Hk. }
  assert (Hall : forall f, In f fields ->
            source f <> VUndefined
            /\ yields (clone inherited compare encoder (ftype f)) (source f) (encF f)
            /\ yields (clone inherited compare decoder (ftype f)) (encF f) (decF f)
            /\ agrees (ftype f) (source f) (decF f)
            /\ encF f <> VUndefined /\ decF f <> VUndefined).
  { intros f Hf. destruct (Hfields f Hf) as [Habsent Hpresent].
    fold (x f) in Habsent, Hpresent.
    assert (Hsource : source f <> VUndefined /\ valid (ftype f) (source f)).
    { unfold source. destruct (isUndefined (x f)) eqn:Hx.
      - apply isUndefined_true in Hx. split; [now apply Habsent|].
        apply (Hdefaults f Hf). now apply Habsent.
      - apply isUndefined_false in Hx. split; [exact Hx | now apply Hpresent]. }
    destruct Hsource as [Hdefined Hvalid].
    destruct (roundTrips_functional (ftype f) (source f) (IH f Hf) Hvalid)
      as [He [Hd Ha]].
    repeat split; auto.
    - exact (clone_to_json_defined inherited compare encoder eq_refl (ftype f)
               (source f) [] (mkBuilder (encF f) []) (He []) eq_refl Hdefined).
    - exact (agrees_defined _ _ _ Ha Hdefined). }
  assert (Hdeclared : forall this' any' p,
            (_allowUndeclaredFields this' = false ->
             forall k, In k (ownKeys any') -> In k (map fname fields)) ->
            notAnObject any' = false ->
            (if _allowUndeclaredFields this' then Ok newBuilder
             else
               fieldNames <- Object_keys any' ;;
               match undeclaredFields fields fieldNames with
               | [] => Ok newBuilder
               | extraFields =>
                   Ok (addError newBuilder (DUndeclaredFields extraFields) any'
                        (TRecord isError name fields ctor) p)
               end) = Ok newBuilder).
  { intros this' any' p Hown Hobj. destruct (_allowUndeclaredFields this');
      [reflexivity|].
    rewrite (Object_keys_object _ Hobj). cbn [bind].
    now rewrite (undeclaredFields_nil _ _ (Hown eq_refl)). }
  exists (VObj (recordObject fields (map encArg fields) [])),
         (VObj (construct fields (map decArg fields))).
  split; [|split].
  - intros p. cbn [clone]. unfold _onRecord.
    change (notAnObject (VObj props)) with false. cbv iota.
    unfold recordFields. rewrite map_fst_fieldClones.
    rewrite Hdeclared; [|
      intros Hallow k Hk; simpl in Hk;
      apply (Permutation_in _ (enumerationOrder_is_Permutation _)) in Hk;
      exact (Hkeys Hallow k Hk) | reflexivity].
    cbn [bind].
    rewrite (recordLoop_ok inherited compare encoder (VObj props) p
               (fun fc => encArg (fst fc))).
    + cbn [bind]. rewrite map_map. reflexivity.
    + intros fc Hfc missing args. apply in_map_iff in Hfc.
      destruct Hfc as [f [Hfc Hf]]. subst fc.
      destruct (Hall f Hf) as [_ [He _]].
      destruct (Hfields f Hf) as [Habsent _]. fold (x f) in Habsent.
      unfold recordField. fold (x f). cbn [fst].
      unfold encArg, kept, encF, source in *.
      destruct (isUndefined (x f)) eqn:Hx.
      * apply isUndefined_true in Hx. specialize (Habsent Hx).
        apply isUndefined_false in Habsent. rewrite Habsent.
        cbn [andb].
        change (isToJSON (_mode encoder) && negb (_omitDefaultValues encoder))
          with (negb omit).
        destruct omit; cbn [negb]; [reflexivity|].
        rewrite He. reflexivity.
      * cbn [andb]. rewrite He. cbn [bind].
        change (copyErrorsFrom newBuilder
                  (mkBuilder (encoded (ftype f) (x f)) []))
          with newBuilder.
        unfold elided. simpl. rewrite andb_true_r.
        now destruct (omit && negb (isUndefined (fdefault f))
                      && Z.eqb (compare (ftype f) (x f) (fdefault f)) 0).
  - intros p. cbn [clone]. unfold _onRecord.
    change (notAnObject (VObj (recordObject fields (map encArg fields) [])))
      with false. cbv iota.
    unfold recordFields. rewrite map_fst_fieldClones.
    rewrite Hdeclared; [|
      intros _ k Hk; simpl in Hk;
      apply (Permutation_in _ (enumerationOrder_is_Permutation _)) in Hk;
      apply recordObject_keys in Hk; destruct Hk as [[]|Hk]; exact Hk
      | reflexivity].
    cbn [bind].
    rewrite (recordLoop_ok inherited compare decoder _ p (fun fc => decArg (fst fc))).
    + cbn [bind]. rewrite map_map. simpl. now rewrite Hctor.
    + intros fc Hfc missing args. apply in_map_iff in Hfc.
      destruct Hfc as [f [Hfc Hf]]. subst fc.
      destruct (Hall f Hf) as [_ [_ [Hd [_ [Hdefined _]]]]].
      unfold recordField.
      rewrite (readProp_recordObject fields encArg f Hndf Hf (Hnames f Hf)
                 (fun props => Hinherited f props Hf)).
      cbn [fst]. unfold encArg, decArg.
      destruct (kept f) eqn:Hkept.
      * apply isUndefined_false in Hdefined. rewrite Hdefined. cbn [andb].
        rewrite Hd. reflexivity.
      * rewrite (Hdefault f Hf Hkept). reflexivity.
  - constructor.
    + apply construct_keys.
    + intros f Hf. cbv zeta. fold (x f). simpl getProp.
      rewrite (construct_lookup fields decArg f Hndf Hf).
      destruct (Hall f Hf) as [_ [_ [_ [Ha [_ Hdefined]]]]].
      apply isUndefined_false in Hdefined.
      unfold decArg, kept, source in *.
      repeat split.
      * intros Hx Homit. apply isUndefined_true in Hx. rewrite Hx, Homit.
        reflexivity.
      * intros Hx Homit. apply isUndefined_true in Hx. rewrite Hx, Homit in *.
        cbn [negb]. now rewrite Hdefined.
      * intros Hx Hel. apply isUndefined_false in Hx. rewrite Hx, Hel.
        reflexivity.
      * intros Hx Hel. apply isUndefined_false in Hx. rewrite Hx, Hel in *.
        cbn [negb]. now rewrite Hdefined.
Qed.

(** Encoding then decoding, for every well-formed type. *)
Lemma clone_round_trip (t : avtype) : wellFormed t -> roundTrips t.
Proof.
  induction t as [kind name isValid | itemsType IH | valuesType IH
                 | isError name fields ctor IH | wrapped types branchTypeOf IH
                 | name underlying toValue fromValue IH] using avtype_ind;
    intros Hwf.
  - apply roundTrips_primitive.
  - apply roundTrips_array. apply IH. now inversion Hwf.
  - apply roundTrips_map. apply IH. now inversion Hwf.
  - apply roundTrips_record; [exact Hwf|].
    inversion Hwf; subst. rewrite Forall_forall in *. auto.
  - apply roundTrips_union; [exact Hwf|].
    inversion Hwf; subst. rewrite Forall_forall in *. auto.
  - apply roundTrips_logical; [exact Hwf|]. apply IH. now inversion Hwf.
Qed.

End RoundTripProof.

(* ------------------------------------------------------------------ *)
(** ** Round trip: structural equality when nothing is absent or omitted *)

Lemma Forall2_structEq (R : value -> value -> Prop) (P : value -> Prop)
  (l l' : list value) :
  (forall x x', In x l -> P x -> R x x' -> structEq x x') ->
  Forall P l -> Forall2 R l l' -> Forall2 structEq l l'.
Proof.
  intros H HP HR. induction HR as [|x x' l l' Hxx' _ IH]; constructor.
  - inversion HP; subst. apply H; auto. now left.
  - inversion HP; subst. apply IH; auto. intros y y' Hy. apply H. now right.
Qed.

Lemma elided_without_omit compare (f : field) (x : value) :
  elided compare false f x = false.
Proof. reflexivity. Qed.

Lemma Forall_and {A : Type} (P Q : A -> Prop) (l : list A) :
  Forall P l -> Forall Q l -> Forall (fun a => P a /\ Q a) l.
Proof. induction 1; intros HQ; inversion HQ; subst; constructor; auto. Qed.

(** Without [omitDefaultValues], a complete value and the value it
    agrees with are structurally equal. *)
Lemma agrees_structEq inherited allow compare (t : avtype) :
  wellFormed inherited allow compare false t ->
  forall v v',
    valid inherited allow t v -> complete inherited t v ->
    agrees inherited compare false t v v' -> structEq v v'.
Proof.
  induction t as [kind name isValid | itemsType IH | valuesType IH
                 | isError name fields ctor IH | wrapped types branchTypeOf IH
                 | name underlying toValue fromValue IH] using avtype_ind;
    intros Hwf v v' Hv Hc Ha.
  - inversion Ha; subst. constructor.
  - inversion Ha; subst. inversion Hv; subst. inversion Hc; subst.
    inversion Hwf; subst.
    apply structEq_array.
    eapply (Forall2_structEq _ (fun x => valid inherited allow itemsType x
                                         /\ complete inherited itemsType x));
      [| apply Forall_and; eassumption | eassumption].
    intros x x' _ [Hx Hcx] Hxx'. now apply IH.
  - inversion Ha; subst. inversion Hv; subst. inversion Hc; subst.
    inversion Hwf; subst.
    match goal with
    | H : forall k, optRel _ (assoc k ?ps) _,
      H' : Forall (fun kv => valid _ _ _ _) ?ps,
      H'' : Forall (fun kv => complete _ _ _) ?ps |- _ =>
        rename H into Hentries; rename H' into Hvalues; rename H'' into Hcomplete;
        rename ps into props
    end.
    apply structEq_object. intros k. specialize (Hentries k).
    destruct (assoc k props) as [x|] eqn:E; inversion Hentries; subst;
      constructor.
    apply assoc_In in E. rewrite Forall_forall in Hvalues, Hcomplete.
    apply IH; [assumption | exact (Hvalues _ E) | exact (Hcomplete _ E) | assumption].
  - inversion Ha as [| | | ? ? ? ? props props' Hkeys' Hagree | | | |]; subst.
    inversion Hv as [| | | | ? ? ? ? ? Hndp _ Hfields | | | |]; subst.
    inversion Hc as [| | | ? ? ? ? ? Hkeys Hfull | | | |]; subst.
    inversion Hwf as [| | | ? ? ? ? Hndf Hnames Hinherited Hctor Hdefaults Hsub | |];
      subst.
    apply structEq_object. intros k.
    destruct (in_dec string_dec k (map fname fields)) as [Hk|Hk].
    + assert (Hkp' : In k (map fst props')) by (now rewrite Hkeys').
      destruct (assoc_Some_of_key _ _ Hkp') as [x' [Hx' _]].
      apply in_map_iff in Hk. destruct Hk as [f [Hname Hf]]. subst k.
      destruct (Hfull f Hf) as [Hdefined Hcx].
      destruct (Hfields f Hf) as [_ Hvx]. specialize (Hvx Hdefined).
      destruct (Hagree f Hf) as [_ [_ [_ Hkept]]].
      specialize (Hkept Hdefined (elided_without_omit _ _ _)).
      unfold readProp, hasOwn in Hdefined, Hcx, Hvx, Hkept.
      cbn [getProp] in Hdefined, Hcx, Hvx, Hkept.
      destruct (assoc (fname f) props) as [x|] eqn:Hx.
      * rewrite Hx' in Hkept. rewrite Hx'. constructor.
        rewrite Forall_forall in IH.
        exact (IH f Hf (Hsub f Hf) _ _ Hvx Hcx Hkept).
      * elim Hdefined. apply Hinherited. exact Hf.
    + assert (Hnone : assoc k props = None).
      { apply assoc_None. intros Hin. apply Hk. now apply Hkeys. }
      assert (Hnone' : assoc k props' = None)
        by (apply assoc_None; now rewrite Hkeys').
      rewrite Hnone, Hnone'. constructor.
  - rewrite Forall_forall in IH.
    inversion Hwf as [| | | | ? ? ? _ Hsub |]; subst.
    inversion Ha; subst.
    + constructor.
    + inversion Hv; subst. inversion Hc; subst.
      match goal with
      | H1 : typeByName ?key types = Some ?b1,
        H2 : typeByName ?key types = Some ?b2,
        H2' : typeByName ?key types = Some ?b3,
        H3 : valid _ _ ?b2 _, H3' : complete _ ?b3 _, H4 : agrees _ _ _ ?b1 _ _ |- _ =>
          rewrite H1 in H2, H2'; injection H2 as H2; injection H2' as H2';
          subst b2 b3;
          destruct (typeByName_Some _ _ _ H1) as [Hin _];
          pose proof (IH _ Hin (Hsub _ Hin) _ _ H3 H3' H4) as Heq
      end.
      apply structEq_object. intros k. simpl.
      destruct (String.eqb key k); now constructor.
    + inversion Hv; subst; [contradiction|].
      inversion Hc; subst; [contradiction|].
      repeat match goal with
      | H1 : branchTypeOf ?x = Some ?r1, H2 : branchTypeOf ?x = Some ?r2 |- _ =>
          rewrite H1 in H2; injection H2 as H2; subst r2
      end.
      match goal with
      | H1 : typeByName ?key types = Some ?b1,
        H2 : typeByName ?key types = Some ?b2,
        H2' : typeByName ?key types = Some ?b3,
        H3 : valid _ _ ?b2 _, H3' : complete _ ?b3 _, H4 : agrees _ _ _ ?b1 _ _ |- _ =>
          rewrite H1 in H2, H2'; injection H2 as H2; injection H2' as H2';
          subst b2 b3;
          destruct (typeByName_Some _ _ _ H1) as [Hin _];
          exact (IH _ Hin (Hsub _ Hin) _ _ H3 H3' H4)
      end.
  - inversion Ha; subst. constructor.
Qed.

(* ------------------------------------------------------------------ *)
(** ** Round trip of the entry points *)

Lemma newCloner_to_json (opts : option Options) :
  newCloner TO_JSON opts = Ok (encoder (omitOf opts) (allowOf opts)).
Proof.
  destruct opts; unfold newCloner; simpl; rewrite ?andb_false_r; reflexivity.
Qed.

Lemma newCloner_from_json (opts : option Options) :
  omitOf opts = false -> newCloner FROM_JSON opts = Ok (decoder (allowOf opts)).
Proof.
  destruct opts as [o|]; [|reflexivity]. unfold newCloner. simpl. intros H.
  now rewrite H.
Qed.


Lemma sampleRecord_wellFormed (allow omit : bool) :
  wellFormed Samples.inherited allow Samples.numCompare omit sampleRecord.
Proof.
  apply wellFormed_record.
  - repeat constructor; simpl; intuition discriminate.
  - intros f [Hf|[Hf|[Hf|[]]]]; subst; discriminate.
  - intros f props [Hf|[Hf|[Hf|[]]]]; subst; reflexivity.
  - reflexivity.
  - intros f [Hf|[Hf|[Hf|[]]]]; subst; simpl; intros Hd;
      try (now elim Hd). now apply valid_primitive.
  - intros f [Hf|[Hf|[Hf|[]]]]; subst; repeat constructor.
Qed.

Lemma sampleValue_valid : valid Samples.inherited false sampleRecord sampleValue.
Proof.
  apply valid_record.
  - repeat constructor; simpl; intuition discriminate.
  - intros _. simpl. intuition.
  - intros f [Hf|[Hf|[Hf|[]]]]; subst; cbv zeta;
      (split; [intros Hx; discriminate Hx | intros _]).
    + now apply valid_primitive.
    + apply valid_map.
      * repeat constructor; simpl; intuition discriminate.
      * simpl. intuition discriminate.
      * repeat constructor; now apply valid_primitive.
    + now apply valid_buffer.
Qed.

Lemma looseSampleValue_valid :
  valid Samples.inherited true sampleRecord looseSampleValue.
Proof.
  apply valid_record.
  - repeat constructor; simpl; intuition discriminate.
  - discriminate.
  - intros f [Hf|[Hf|[Hf|[]]]]; subst; cbv zeta.
    + split; [intros _; discriminate | intros Hx; now elim Hx].
    + split; [intros Hx; discriminate Hx | intros _].
      apply valid_map.
      * repeat constructor; simpl; intuition discriminate.
      * simpl. intuition discriminate.
      * repeat constructor; now apply valid_primitive.
    + split; [intros Hx; discriminate Hx | intros _].
      now apply valid_buffer.
Qed.


Lemma structEq_object_keys (props : list (string * value)) (v : value) :
  structEq (VObj props) v ->
  exists props', v = VObj props'
    /\ forall k, assoc k props = None <-> assoc k props' = None.
Proof.
  intros H. inversion H as [| | ? props' Hk]; subst.
  - exists props. split; [reflexivity | tauto].
  - exists props'. split; [reflexivity|]. intros k. specialize (Hk k).
    inversion Hk; split; congruence.
Qed.


(* ------------------------------------------------------------------ *)
(** ** Further properties: errors are relative to the path of the call *)

Lemma prefixBuilder_addError (p q : path) b d v t :
  addError (prefixBuilder p b) d v t (p ++ q) = prefixBuilder p (addError b d v t q).
Proof. unfold addError, prefixBuilder. simpl. now rewrite map_app. Qed.

Lemma prefixBuilder_copy (p : path) b b' :
  copyErrorsFrom (prefixBuilder p b) (prefixBuilder p b')
  = prefixBuilder p (copyErrorsFrom b b').
Proof. unfold copyErrorsFrom, prefixBuilder. simpl. now rewrite map_app. Qed.

Lemma isOk_prefixBuilder (p : path) b : isOk (prefixBuilder p b) = isOk b.
Proof. unfold isOk, prefixBuilder. simpl. now destruct (errors b). Qed.

Lemma prefixBuilder_new_error (p q : path) d v t :
  addError newBuilder d v t (p ++ q) = prefixBuilder p (addError newBuilder d v t q).
Proof. reflexivity. Qed.

Section Relocation.

Variable inherited : value -> string -> value.
Variable compare : avtype -> value -> value -> Z.
Variable this : Cloner.

Lemma onPrimitive_relocates type isValid : relocates (_onPrimitive this type isValid).
Proof.
  intros any p q. unfold _onPrimitive.
  assert (Hcheck : forall val,
            primitiveCheck this type isValid (isType type ["bytes"; "fixed"]) any val
              (p ++ q)
            = prefixOutcome p
                (primitiveCheck this type isValid (isType type ["bytes"; "fixed"])
                   any val q)).
  { intros val. unfold primitiveCheck.
    destruct (isValid val), (isType type ["bytes"; "fixed"]),
      (isToJSON (_mode this)); cbn [bind andb];
      try (destruct (bufferFrom val) as [copy|e]; cbn [bind]; [|reflexivity]);
      try (destruct (toStringBinary (bvalue (setValue newBuilder copy)));
           reflexivity);
      reflexivity. }
  destruct (isType type ["bytes"; "fixed"] && negb (isToJSON (_mode this)));
    [|apply Hcheck].
  destruct any; try reflexivity. apply Hcheck.
Qed.

Lemma arrayLoop_relocates (cloneItem : cloneAt) (p q : path) :
  relocates cloneItem ->
  forall items i builder val,
    arrayLoop cloneItem (p ++ q) items i (prefixBuilder p builder) val
    = match arrayLoop cloneItem q items i builder val with
      | Ok (builder', val') => Ok (prefixBuilder p builder', val')
      | Throw e => Throw e
      end.
Proof.
  intros Hitem. induction items as [|item rest IH]; intros i builder val;
    cbn [arrayLoop]; [reflexivity|].
  rewrite <- app_assoc, Hitem.
  destruct (cloneItem item (q ++ [PIndex i])) as [ib|e]; cbn [bind prefixOutcome];
    [|reflexivity].
  rewrite prefixBuilder_copy, isOk_prefixBuilder. apply IH.
Qed.

Lemma onArray_relocates (cloneItem : cloneAt) type :
  relocates cloneItem -> relocates (_onArray cloneItem type).
Proof.
  intros Hitem any p q. unfold _onArray. destruct any; try reflexivity.
  change (arrayLoop cloneItem (p ++ q) items 0 newBuilder [])
    with (arrayLoop cloneItem (p ++ q) items 0 (prefixBuilder p newBuilder) []).
  rewrite (arrayLoop_relocates _ _ _ Hitem).
  destruct (arrayLoop cloneItem q items 0 newBuilder []) as [[b val]|e];
    cbn [bind prefixOutcome]; [|reflexivity].
  rewrite isOk_prefixBuilder. now destruct (isOk b).
Qed.

Lemma mapLoop_relocates (cloneValue : cloneAt) (any : value) (p q : path) :
  relocates cloneValue ->
  forall keys builder val,
    mapLoop cloneValue any (p ++ q) keys (prefixBuilder p builder) val
    = match mapLoop cloneValue any q keys builder val with
      | Ok (builder', val') => Ok (prefixBuilder p builder', val')
      | Throw e => Throw e
      end.
Proof.
  intros Hvalue. induction keys as [|key rest IH]; intros builder val;
    cbn [mapLoop]; [reflexivity|].
  rewrite <- app_assoc, Hvalue.
  destruct (cloneValue (getProp any key) (q ++ [PKey key])) as [vb|e];
    cbn [bind prefixOutcome]; [|reflexivity].
  rewrite prefixBuilder_copy, isOk_prefixBuilder. apply IH.
Qed.

Lemma onMap_relocates (cloneValue : cloneAt) type :
  relocates cloneValue -> relocates (_onMap cloneValue type).
Proof.
  intros Hvalue any p q. unfold _onMap.
  destruct (notAnObject any); [reflexivity|]. unfold mapEntries.
  destruct (Object_keys any) as [names|e]; cbn [bind]; [|reflexivity].
  change (mapLoop cloneValue any (p ++ q) (sortKeys names) newBuilder [])
    with (mapLoop cloneValue any (p ++ q) (sortKeys names)
            (prefixBuilder p newBuilder) []).
  rewrite (mapLoop_relocates _ _ _ _ Hvalue).
  destruct (mapLoop cloneValue any q (sortKeys names) newBuilder [])
    as [[b val]|e]; cbn [bind prefixOutcome]; [|reflexivity].
  rewrite isOk_prefixBuilder. now destruct (isOk b).
Qed.

Lemma recordField_relocates (any : value) (p q : path) (fc : field * cloneAt) :
  relocates (snd fc) ->
  forall builder missing args,
    recordField inherited compare this any (p ++ q) (prefixBuilder p builder, missing, args) fc
    = match recordField inherited compare this any q (builder, missing, args) fc with
      | Ok (builder', missing', args') =>
          Ok (prefixBuilder p builder', missing', args')
      | Throw e => Throw e
      end.
Proof.
  destruct fc as [f cloneField]. cbn [snd]. intros Hfield builder missing args.
  unfold recordField.
  destruct (isUndefined (readProp inherited any (fname f)) && isUndefined (fdefault f));
    [reflexivity|].
  rewrite <- app_assoc.
  destruct (isUndefined (readProp inherited any (fname f))).
  - destruct (isToJSON (_mode this) && negb (_omitDefaultValues this));
      [|reflexivity].
    rewrite Hfield.
    now destruct (cloneField (fdefault f) (q ++ [PKey (fname f)])).
  - rewrite Hfield.
    destruct (cloneField (readProp inherited any (fname f)) (q ++ [PKey (fname f)]))
      as [fb|e]; cbn [bind prefixOutcome]; [|reflexivity].
    now rewrite prefixBuilder_copy, isOk_prefixBuilder.
Qed.

Lemma recordLoop_relocates (any : value) (p q : path) :
  forall fieldClones,
    Forall (fun fc => relocates (snd fc)) fieldClones ->
    forall builder missing args,
      recordLoop inherited compare this any (p ++ q) fieldClones
        (prefixBuilder p builder, missing, args)
      = match recordLoop inherited compare this any q fieldClones (builder, missing, args) with
        | Ok (builder', missing', args') =>
            Ok (prefixBuilder p builder', missing', args')
        | Throw e => Throw e
        end.
Proof.
  induction fieldClones as [|fc rest IH]; intros Hall builder missing args;
    cbn [recordLoop]; [reflexivity|].
  inversion Hall as [|? ? Hfc Hrest]; subst.
  rewrite (recordField_relocates any p q fc Hfc).
  destruct (recordField inherited compare this any q (builder, missing, args) fc)
    as [[[b1 m1] a1]|e]; cbn [bind]; [|reflexivity].
  now apply IH.
Qed.

Lemma onRecord_relocates (fieldClones : list (field * cloneAt)) type ctor :
  Forall (fun fc => relocates (snd fc)) fieldClones ->
  relocates (_onRecord inherited compare this fieldClones type ctor).
Proof.
  intros Hall any p q. unfold _onRecord.
  destruct (notAnObject any); [reflexivity|]. unfold recordFields.
  assert (Hfirst : forall r : path,
            exists b0,
              (if _allowUndeclaredFields this then Ok newBuilder
               else
                 fieldNames <- Object_keys any ;;
                 match undeclaredFields (map fst fieldClones) fieldNames with
                 | [] => Ok newBuilder
                 | extraFields =>
                     Ok (addError newBuilder (DUndeclaredFields extraFields) any type
                           (r ++ q))
                 end)
              = match Object_keys any with
                | Ok _ => Ok (prefixBuilder r b0)
                | Throw e => if _allowUndeclaredFields this
                             then Ok (prefixBuilder r b0) else Throw e
                end
              /\ (if _allowUndeclaredFields this then Ok newBuilder
                  else
                    fieldNames <- Object_keys any ;;
                    match undeclaredFields (map fst fieldClones) fieldNames with
                    | [] => Ok newBuilder
                    | extraFields =>
                        Ok (addError newBuilder (DUndeclaredFields extraFields) any
                              type q)
                    end)
                 = match Object_keys any with
                   | Ok _ => Ok b0
                   | Throw e => if _allowUndeclaredFields this then Ok b0 else Throw e
                   end).
  { intros r. destruct (_allowUndeclaredFields this).
    - exists newBuilder. now destruct (Object_keys any).
    - destruct (Object_keys any) as [names|e]; cbn [bind].
      + destruct (undeclaredFields (map fst fieldClones) names) as [|x xs].
        * now exists newBuilder.
        * now exists (addError newBuilder (DUndeclaredFields (x :: xs)) any type q).
      + now exists newBuilder. }
  destruct (Hfirst p) as [b0 [Hp Hq]]. rewrite Hp, Hq. clear Hp Hq Hfirst.
  assert (Hrest :
    (st <- recordLoop inherited compare this any (p ++ q) fieldClones
             (prefixBuilder p b0, [], []) ;;
     let '(builder, missingFields, args) := st in
     let builder :=
       match missingFields with
       | [] => builder
       | _ => addError builder (DMissingFields missingFields) any type (p ++ q)
       end in
     Ok (if isOk builder then
           if isToJSON (_mode this)
           then setValue builder (VObj (recordObject (map fst fieldClones) args []))
           else setValue builder (ctor args)
         else builder))
    = prefixOutcome p
        (st <- recordLoop inherited compare this any q fieldClones (b0, [], []) ;;
         let '(builder, missingFields, args) := st in
         let builder :=
           match missingFields with
           | [] => builder
           | _ => addError builder (DMissingFields missingFields) any type q
           end in
         Ok (if isOk builder then
               if isToJSON (_mode this)
               then setValue builder
                      (VObj (recordObject (map fst fieldClones) args []))
               else setValue builder (ctor args)
             else builder))).
  { rewrite (recordLoop_relocates any p q fieldClones Hall).
    destruct (recordLoop inherited compare this any q fieldClones (b0, [], []))
      as [[[b1 missing] args]|e]; cbn [bind prefixOutcome]; [|reflexivity].
    destruct missing as [|m missing].
    - rewrite isOk_prefixBuilder.
      now destruct (isOk b1); [destruct (isToJSON (_mode this))|].
    - rewrite prefixBuilder_addError, isOk_prefixBuilder.
      now destruct (isOk _); [destruct (isToJSON (_mode this))|]. }
  destruct (Object_keys any) as [names|e]; cbn [bind].
  - exact Hrest.
  - destruct (_allowUndeclaredFields this); cbn [bind]; [exact Hrest | reflexivity].
Qed.

Lemma onUnion_relocates (branches : list (avtype * cloneAt)) unionType branchTypeOf :
  Forall (fun bc => relocates (snd bc)) branches ->
  relocates (_onUnion this branches unionType branchTypeOf).
Proof.
  intros Hall any p q. unfold _onUnion.
  assert (Hbranch : forall any',
            unionBranch this branches unionType
              (String.eqb (typeName unionType) "union:wrapped") any' (p ++ q)
            = prefixOutcome p
                (unionBranch this branches unionType
                   (String.eqb (typeName unionType) "union:wrapped") any' q)).
  { intros any'. unfold unionBranch.
    destruct (negb (String.eqb (typeof any') "object")); [reflexivity|].
    destruct (Object_keys any') as [keys|e]; cbn [bind]; [|reflexivity].
    destruct keys as [|key [|? ?]]; try reflexivity.
    destruct (branchByName key branches) as [[branchType cloneBranch]|] eqn:Hb;
      [|reflexivity].
    apply branchByName_In in Hb. destruct Hb as [Hin _].
    rewrite Forall_forall in Hall. specialize (Hall _ Hin). cbn [snd] in Hall.
    rewrite <- app_assoc, Hall.
    destruct (cloneBranch (getProp any' key) (q ++ [PKey key])) as [bb|e];
      cbn [bind prefixOutcome]; [|reflexivity].
    change (copyErrorsFrom newBuilder (prefixBuilder p bb))
      with (copyErrorsFrom (prefixBuilder p newBuilder) (prefixBuilder p bb)).
    rewrite prefixBuilder_copy, isOk_prefixBuilder.
    now destruct (isOk bb); [destruct (isToJSON _); [|destruct (negb _)]|]. }
  assert (Htail : forall any',
    (resolved <- unionResolve this (map fst branches) unionType
                   (String.eqb (typeName unionType) "union:wrapped")
                   branchTypeOf any' (p ++ q) ;;
     match resolved with
     | inl early => Ok early
     | inr any'' =>
         unionBranch this branches unionType
           (String.eqb (typeName unionType) "union:wrapped") any'' (p ++ q)
     end)
    = prefixOutcome p
        (resolved <- unionResolve this (map fst branches) unionType
                       (String.eqb (typeName unionType) "union:wrapped")
                       branchTypeOf any' q ;;
         match resolved with
         | inl early => Ok early
         | inr any'' =>
             unionBranch this branches unionType
               (String.eqb (typeName unionType) "union:wrapped") any'' q
         end)).
  { intros any'. unfold unionResolve.
    destruct (isFromDefaultJSON (_mode this)).
    - destruct (map fst branches) as [|first ?]; [reflexivity|].
      destruct (isNullType first); cbn [bind]; [reflexivity | apply Hbranch].
    - destruct (isToJSON (_mode this) && negb _); cbn [bind]; [|apply Hbranch].
      destruct (branchTypeOf any'); cbn [bind]; [apply Hbranch | reflexivity]. }
  destruct any; try apply Htail.
  cbn [prefixOutcome]. now destruct (existsb isNullType (map fst branches)).
Qed.

Lemma onLogical_relocates (cloneUnderlying : cloneAt) type toValue fromValue :
  relocates cloneUnderlying ->
  relocates (_onLogical this cloneUnderlying type toValue fromValue).
Proof.
  intros Hu any p q. unfold _onLogical.
  destruct (isToJSON (_mode this)).
  - destruct (toValue any) as [v|m]; [|reflexivity].
    destruct v; try apply Hu. reflexivity.
  - rewrite Hu. destruct (cloneUnderlying any q) as [ub|e];
      cbn [bind prefixOutcome]; [|reflexivity].
    rewrite isOk_prefixBuilder. destruct (isOk ub); cbn [negb]; [|reflexivity].
    cbn [bvalue prefixBuilder].
    destruct (fromValue (bvalue ub)); [reflexivity|].
    now rewrite prefixBuilder_addError.
Qed.

Lemma clone_relocates (type : avtype) : relocates (clone inherited compare this type).
Proof.
  induction type as [kind name isValid | itemsType IH | valuesType IH
                    | isError name fields ctor IH | wrapped types branchTypeOf IH
                    | name underlying toValue fromValue IH] using avtype_ind.
  - apply onPrimitive_relocates.
  - now apply onArray_relocates.
  - now apply onMap_relocates.
  - apply onRecord_relocates. rewrite Forall_map. exact IH.
  - apply onUnion_relocates. rewrite Forall_map. exact IH.
  - now apply onLogical_relocates.
Qed.

End Relocation.

(** X1. Transcoding at the path [p ++ q] is transcoding at [q] with [p] put
    in front of the path of every error: the value, the number and the
    order of the errors and a raised exception do not depend on the path
    the call is given. *)
Theorem errors_are_relative_to_the_path :
  forall inherited compare this (type : avtype) (any : value) (p q : path),
    clone inherited compare this type any (p ++ q)
    = prefixOutcome p (clone inherited compare this type any q).
Proof. intros. apply clone_relocates. Qed.

(* ------------------------------------------------------------------ *)
(** ** Further properties: where a call can raise *)

Section Returning.

Variable inherited : value -> string -> value.
Variable compare : avtype -> value -> value -> Z.
Variable this : Cloner.

Lemma onPrimitive_returns type isValid :
  isToJSON (_mode this) = false \/ isType type ["bytes"; "fixed"] = false ->
  returns (_onPrimitive this type isValid).
Proof.
  intros Hsafe any p. unfold _onPrimitive, primitiveCheck.
  destruct (isType type ["bytes"; "fixed"]) eqn:Hbuf.
  - destruct Hsafe as [Hto|Hno]; [|discriminate]. rewrite Hto. cbn [negb andb].
    destruct any; try (eexists; reflexivity).
    destruct (isValid (bufferFromBinary s)); eexists; reflexivity.
  - cbn [andb]. rewrite andb_false_r.
    destruct (isValid any); eexists; reflexivity.
Qed.

Lemma arrayLoop_returns (cloneItem : cloneAt) (p : path) :
  returns cloneItem ->
  forall items i builder val,
    exists st, arrayLoop cloneItem p items i builder val = Ok st.
Proof.
  intros Hitem. induction items as [|item rest IH]; intros i builder val;
    cbn [arrayLoop]; [eexists; reflexivity|].
  destruct (Hitem item (p ++ [PIndex i])) as [ib Hib]. rewrite Hib. cbn [bind].
  apply IH.
Qed.

Lemma onArray_returns (cloneItem : cloneAt) type :
  returns cloneItem -> returns (_onArray cloneItem type).
Proof.
  intros Hitem any p. unfold _onArray. destruct any; try (eexists; reflexivity).
  destruct (arrayLoop_returns cloneItem p Hitem items 0 newBuilder [])
    as [[b val] Hst].
  rewrite Hst. cbn [bind]. eexists; reflexivity.
Qed.

Lemma mapLoop_returns (cloneValue : cloneAt) (any : value) (p : path) :
  returns cloneValue ->
  forall keys builder val,
    exists st, mapLoop cloneValue any p keys builder val = Ok st.
Proof.
  intros Hvalue. induction keys as [|key rest IH]; intros builder val;
    cbn [mapLoop]; [eexists; reflexivity|].
  destruct (Hvalue (getProp any key) (p ++ [PKey key])) as [vb Hvb].
  rewrite Hvb. cbn [bind]. apply IH.
Qed.

Lemma onMap_returns (cloneValue : cloneAt) type :
  returns cloneValue -> returns (_onMap cloneValue type).
Proof.
  intros Hvalue any p. unfold _onMap.
  destruct (notAnObject any) eqn:Hguard; [eexists; reflexivity|].
  unfold mapEntries. rewrite (Object_keys_object any Hguard). cbn [bind].
  destruct (mapLoop_returns cloneValue any p Hvalue (sortKeys (ownKeys any))
              newBuilder []) as [[b val] Hst].
  rewrite Hst. cbn [bind]. eexists; reflexivity.
Qed.

Lemma recordLoop_returns (any : value) (p : path) :
  forall fieldClones,
    Forall (fun fc => returns (snd fc)) fieldClones ->
    forall st, exists st', recordLoop inherited compare this any p fieldClones st = Ok st'.
Proof.
  induction fieldClones as [|[f cloneField] rest IH]; intros Hall st;
    cbn [recordLoop]; [eexists; reflexivity|].
  inversion Hall as [|? ? Hfc Hrest]; subst. cbn [snd] in Hfc.
  assert (Hstep : exists st1,
             recordField inherited compare this any p st (f, cloneField) = Ok st1).
  { destruct st as [[builder missing] args]. unfold recordField.
    destruct (isUndefined (readProp inherited any (fname f)) && isUndefined (fdefault f));
      [eexists; reflexivity|].
    destruct (isUndefined (readProp inherited any (fname f))).
    - destruct (isToJSON (_mode this) && negb (_omitDefaultValues this));
        [|eexists; reflexivity].
      destruct (Hfc (fdefault f) (p ++ [PKey (fname f)])) as [db Hdb].
      rewrite Hdb. eexists; reflexivity.
    - destruct (Hfc (readProp inherited any (fname f)) (p ++ [PKey (fname f)])) as [fb Hfb].
      rewrite Hfb. eexists; reflexivity. }
  destruct Hstep as [st1 Hst1]. rewrite Hst1. cbn [bind]. now apply IH.
Qed.

Lemma onRecord_returns (fieldClones : list (field * cloneAt)) type ctor :
  Forall (fun fc => returns (snd fc)) fieldClones ->
  returns (_onRecord inherited compare this fieldClones type ctor).
Proof.
  intros Hall any p. unfold _onRecord.
  destruct (notAnObject any) eqn:Hguard; [eexists; reflexivity|].
  unfold recordFields. rewrite (Object_keys_object any Hguard). cbn [bind].
  assert (Hfirst : exists b0,
             (if _allowUndeclaredFields this then Ok newBuilder
              else
                match undeclaredFields (map fst fieldClones) (ownKeys any) with
                | [] => Ok newBuilder
                | extraFields =>
                    Ok (addError newBuilder (DUndeclaredFields extraFields) any
                          type p)
                end) = Ok b0).
  { destruct (_allowUndeclaredFields this); [eexists; reflexivity|].
    destruct (undeclaredFields _ _); eexists; reflexivity. }
  destruct Hfirst as [b0 Hb0]. rewrite Hb0. cbn [bind].
  destruct (recordLoop_returns any p fieldClones Hall (b0, [], []))
    as [[[b1 missing] args] Hst].
  rewrite Hst. cbn [bind]. eexists; reflexivity.
Qed.

Lemma unionBranch_returns (branches : list (avtype * cloneAt)) unionType
  isWrapped (any : value) (p : path) :
  Forall (fun bc => returns (snd bc)) branches ->
  any <> VNull ->
  exists b, unionBranch this branches unionType isWrapped any p = Ok b.
Proof.
  intros Hall Hany. unfold unionBranch.
  destruct (negb (String.eqb (typeof any) "object")) eqn:Hobj;
    [eexists; reflexivity|].
  assert (Hkeys : Object_keys any = Ok (ownKeys any))
    by (destruct any; try reflexivity; try discriminate; now elim Hany).
  rewrite Hkeys. cbn [bind].
  destruct (ownKeys any) as [|key [|? ?]]; try (eexists; reflexivity).
  destruct (branchByName key branches) as [[branchType cloneBranch]|] eqn:Hb;
    [|eexists; reflexivity].
  apply branchByName_In in Hb. destruct Hb as [Hin _].
  rewrite Forall_forall in Hall. specialize (Hall _ Hin). cbn [snd] in Hall.
  destruct (Hall (getProp any key) (p ++ [PKey key])) as [bb Hbb].
  rewrite Hbb. cbn [bind]. eexists; reflexivity.
Qed.

Lemma onUnion_returns (branches : list (avtype * cloneAt)) unionType branchTypeOf :
  Forall (fun bc => returns (snd bc)) branches ->
  (isFromDefaultJSON (_mode this) = true -> branches <> []) ->
  returns (_onUnion this branches unionType branchTypeOf).
Proof.
  intros Hall Hfirst any p.
  destruct (value_is_null any) as [->|Hany].
  - unfold _onUnion. eexists; reflexivity.
  - rewrite (onUnion_not_null this branches unionType branchTypeOf any p Hany).
    unfold unionResolve.
    destruct (isFromDefaultJSON (_mode this)).
    + destruct branches as [|[first c] rest]; [now elim Hfirst|].
      cbn [map fst]. destruct (isNullType first); cbn [bind];
        [eexists; reflexivity|].
      apply unionBranch_returns; [exact Hall | discriminate].
    + destruct (isToJSON (_mode this) && negb _); cbn [bind].
      * destruct (branchTypeOf any); cbn [bind]; [|eexists; reflexivity].
        apply unionBranch_returns; [exact Hall | discriminate].
      * now apply unionBranch_returns.
Qed.

Lemma onLogical_returns (cloneUnderlying : cloneAt) type toValue fromValue :
  returns cloneUnderlying ->
  returns (_onLogical this cloneUnderlying type toValue fromValue).
Proof.
  intros Hu any p. unfold _onLogical.
  destruct (isToJSON (_mode this)).
  - destruct (toValue any) as [v|m]; [|eexists; reflexivity].
    destruct v; try apply Hu. eexists; reflexivity.
  - destruct (Hu any p) as [ub Hub]. rewrite Hub. cbn [bind].
    destruct (negb (isOk ub)); [eexists; reflexivity|].
    destruct (fromValue (bvalue ub)); eexists; reflexivity.
Qed.

Lemma clone_returns (type : avtype) :
  neverRaises (_mode this) type -> returns (clone inherited compare this type).
Proof.
  induction type as [kind name isValid | itemsType IH | valuesType IH
                    | isError name fields ctor IH | wrapped types branchTypeOf IH
                    | name underlying toValue fromValue IH] using avtype_ind;
    intros Hsafe; inversion Hsafe; subst; cbn [clone].
  - apply onPrimitive_returns. now rewrite isType_buffer.
  - apply onArray_returns. now apply IH.
  - apply onMap_returns. now apply IH.
  - apply onRecord_returns. rewrite Forall_map. cbn [snd].
    rewrite Forall_forall in IH |- *. intros f Hin. apply IH; auto.
  - apply onUnion_returns.
    + rewrite Forall_map. cbn [snd].
      rewrite Forall_forall in IH |- *. intros t Hin. apply IH; auto.
    + intros Hmode Hnil. apply map_eq_nil in Hnil.
      match goal with H : _ -> types <> [] |- _ => now apply H end.
  - apply onLogical_returns. now apply IH.
Qed.

End Returning.

Lemma neverRaises_from_json (type : avtype) : neverRaises FROM_JSON type.
Proof.
  induction type as [kind name isValid | itemsType IH | valuesType IH
                    | isError name fields ctor IH | wrapped types branchTypeOf IH
                    | name underlying toValue fromValue IH] using avtype_ind.
  - constructor. now left.
  - now constructor.
  - now constructor.
  - constructor. now rewrite Forall_forall in IH.
  - constructor; [now rewrite Forall_forall in IH | discriminate].
  - now constructor.
Qed.

Lemma twoFieldRecord_neverRaises : neverRaises TO_JSON twoFieldRecord.
Proof.
  apply neverRaises_record.
  intros f [Hf|[Hf|[]]]; subst; repeat constructor; now right.
Qed.

(** X2. A call of the transcoder returns an accumulator, whatever the input
    and the path, when the type has no buffer kind under [TO_JSON] and no
    union without branches under [FROM_DEFAULT_JSON]: a call can raise
    only on a type with such a buffer kind or such a union. *)
Theorem transcoding_returns_on_safe_types :
  forall inherited compare this (type : avtype),
    neverRaises (_mode this) type ->
    forall (any : value) (path : path),
      exists b, clone inherited compare this type any path = Ok b.
Proof. intros inherited compare this type Hsafe any path. now apply clone_returns. Qed.

Lemma transcoding_returns_on_safe_types_witness :
  exists b,
    clone Samples.inherited Samples.numCompare (mkCloner TO_JSON false false) twoFieldRecord
      twoProblems [] = Ok b.
Proof.
  exact (transcoding_returns_on_safe_types Samples.inherited Samples.numCompare
           (mkCloner TO_JSON false false) twoFieldRecord
           twoFieldRecord_neverRaises twoProblems []).
Defined.

(** X3. [fromJSON] ends in one of three ways, whatever the type and the
    input: with a truthy [omitDefaultValues] option it raises "invalid
    cloner options"; otherwise it returns a value, or raises the one
    aggregated failure, which carries the root type and at least one
    error.  No other exception leaves it. *)
Theorem from_json_fails_only_in_a_controlled_way :
  forall inherited compare (any : value) (type : avtype) (opts : option Options),
    (omitOf opts = true
     /\ fromJSON inherited compare any type opts = Throw (JsError "invalid cloner options"))
    \/ (omitOf opts = false
        /\ ((exists v, fromJSON inherited compare any type opts = Ok v)
            \/ (exists errs,
                   errs <> []
                   /\ fromJSON inherited compare any type opts
                      = Throw (IncompatibleValue type errs)))).
Proof.
  intros inherited compare any type opts. unfold fromJSON, cloneRoot.
  destruct (omitOf opts) eqn:Homit.
  - left. split; [reflexivity|].
    destruct opts as [o|]; [|discriminate]. unfold newCloner. simpl in Homit |- *.
    now rewrite Homit.
  - right. split; [reflexivity|].
    rewrite (newCloner_from_json opts Homit). cbn [bind].
    destruct (clone_returns inherited compare (decoder (allowOf opts)) type
                (neverRaises_from_json type) any []) as [b Hb].
    rewrite Hb. cbn [bind]. unfold build.
    destruct (errors b) as [|e errs] eqn:He.
    + left. now exists (bvalue b).
    + right. exists (e :: errs). split; [discriminate | reflexivity].
Qed.

(* ------------------------------------------------------------------ *)
(** ** Further properties: an accumulator with errors carries no value *)

Lemma arrayLoop_bvalue (cloneItem : cloneAt) (p : path) :
  forall items i builder val builder' val',
    arrayLoop cloneItem p items i builder val = Ok (builder', val') ->
    bvalue builder' = bvalue builder.
Proof.
  induction items as [|item rest IH]; intros i builder val builder' val' Hloop;
    cbn [arrayLoop] in Hloop.
  - now ok_inv Hloop.
  - destruct (cloneItem item (p ++ [PIndex i])) as [ib|e]; cbn [bind] in Hloop;
      [|discriminate].
    now apply IH in Hloop.
Qed.

Lemma mapLoop_bvalue (cloneValue : cloneAt) (any : value) (p : path) :
  forall keys builder val builder' val',
    mapLoop cloneValue any p keys builder val = Ok (builder', val') ->
    bvalue builder' = bvalue builder.
Proof.
  induction keys as [|key rest IH]; intros builder val builder' val' Hloop;
    cbn [mapLoop] in Hloop.
  - now ok_inv Hloop.
  - destruct (cloneValue (getProp any key) (p ++ [PKey key])) as [vb|e];
      cbn [bind] in Hloop; [|discriminate].
    now apply IH in Hloop.
Qed.

Lemma recordLoop_bvalue inherited compare this (any : value) (p : path) :
  forall fieldClones builder missing args builder' missing' args',
    recordLoop inherited compare this any p fieldClones (builder, missing, args)
      = Ok (builder', missing', args') ->
    bvalue builder' = bvalue builder.
Proof.
  induction fieldClones as [|fc rest IH];
    intros builder missing args builder' missing' args' Hloop;
    cbn [recordLoop] in Hloop.
  - now ok_inv Hloop.
  - destruct (recordField inherited compare this any p (builder, missing, args) fc)
      as [st|e] eqn:Hstep; cbn [bind] in Hloop; [|discriminate].
    apply recordField_accumulates in Hstep.
    destruct Hstep as [errs [fm [v [_ ->]]]].
    now apply IH in Hloop.
Qed.

Section FailedAccumulator.

Variable inherited : value -> string -> value.
Variable compare : avtype -> value -> value -> Z.
Variable this : Cloner.

Lemma onPrimitive_failed type isValid (any : value) (p : path) b :
  _onPrimitive this type isValid any p = Ok b ->
  errors b <> [] -> bvalue b = VUndefined.
Proof.
  intros Hclone Herr. unfold _onPrimitive in Hclone.
  assert (Hcheck : forall val,
            primitiveCheck this type isValid (isType type ["bytes"; "fixed"])
              any val p = Ok b -> bvalue b = VUndefined).
  { intros val Hc. unfold primitiveCheck in Hc.
    destruct (isValid val), (isType type ["bytes"; "fixed"]),
      (isToJSON (_mode this)); cbn [bind andb] in Hc;
      try (destruct (bufferFrom val) as [copy|e]; cbn [bind] in Hc;
           [|discriminate]);
      cbn in Hc; try discriminate;
      try (destruct copy; cbn in Hc; try discriminate);
      ok_inv Hc; try reflexivity; now elim Herr. }
  destruct (isType type ["bytes"; "fixed"] && negb (isToJSON (_mode this)));
    [|now apply (Hcheck any)].
  destruct any; try (now ok_inv Hclone). now apply (Hcheck (bufferFromBinary s)).
Qed.

Lemma onArray_failed (cloneItem : cloneAt) type (any : value) (p : path) b :
  _onArray cloneItem type any p = Ok b ->
  errors b <> [] -> bvalue b = VUndefined.
Proof.
  intros Hclone Herr. unfold _onArray in Hclone.
  destruct any; try (now ok_inv Hclone).
  destruct (arrayLoop cloneItem p items 0 newBuilder []) as [[b1 val]|e] eqn:Hloop;
    cbn [bind] in Hclone; [|discriminate].
  apply arrayLoop_bvalue in Hloop.
  destruct (isOk b1) eqn:Hok; ok_inv Hclone.
  - apply isOk_errors in Hok. now elim Herr.
  - exact Hloop.
Qed.

Lemma onMap_failed (cloneValue : cloneAt) type (any : value) (p : path) b :
  _onMap cloneValue type any p = Ok b ->
  errors b <> [] -> bvalue b = VUndefined.
Proof.
  intros Hclone Herr. unfold _onMap in Hclone.
  destruct (notAnObject any); [now ok_inv Hclone|].
  unfold mapEntries in Hclone.
  destruct (Object_keys any) as [names|e]; cbn [bind] in Hclone; [|discriminate].
  destruct (mapLoop cloneValue any p (sortKeys names) newBuilder [])
    as [[b1 val]|e] eqn:Hloop; cbn [bind] in Hclone; [|discriminate].
  apply mapLoop_bvalue in Hloop.
  destruct (isOk b1) eqn:Hok; ok_inv Hclone.
  - apply isOk_errors in Hok. now elim Herr.
  - exact Hloop.
Qed.

Lemma onRecord_failed (fieldClones : list (field * cloneAt)) type ctor
  (any : value) (p : path) b :
  _onRecord inherited compare this fieldClones type ctor any p = Ok b ->
  errors b <> [] -> bvalue b = VUndefined.
Proof.
  intros Hclone Herr. unfold _onRecord in Hclone.
  destruct (notAnObject any); [now ok_inv Hclone|].
  unfold recordFields in Hclone.
  match type of Hclone with
  | bind ?first _ = _ => destruct first as [b0|e] eqn:Hfirst
  end; cbn [bind] in Hclone; [|discriminate].
  assert (Hb0 : bvalue b0 = VUndefined).
  { destruct (_allowUndeclaredFields this); [now ok_inv Hfirst|].
    destruct (Object_keys any); cbn [bind] in Hfirst; [|discriminate].
    destruct (undeclaredFields _ _); now ok_inv Hfirst. }
  destruct (recordLoop inherited compare this any p fieldClones (b0, [], []))
    as [[[b1 missing] args]|e] eqn:Hloop; cbn [bind] in Hclone; [|discriminate].
  apply recordLoop_bvalue in Hloop. rewrite Hb0 in Hloop.
  match type of Hclone with
  | Ok (if isOk ?b2 then _ else _) = _ =>
      assert (Hb2 : bvalue b2 = VUndefined) by (now destruct missing);
      destruct (isOk b2) eqn:Hok
  end.
  - apply isOk_errors in Hok.
    destruct (isToJSON (_mode this)); ok_inv Hclone; now elim Herr.
  - now ok_inv Hclone.
Qed.

Lemma onUnion_failed (branches : list (avtype * cloneAt)) unionType branchTypeOf
  (any : value) (p : path) b :
  _onUnion this branches unionType branchTypeOf any p = Ok b ->
  errors b <> [] -> bvalue b = VUndefined.
Proof.
  intros Hclone Herr.
  assert (Hbranch : forall any' isWrapped,
            unionBranch this branches unionType isWrapped any' p = Ok b ->
            bvalue b = VUndefined).
  { intros any' isWrapped Hb. unfold unionBranch in Hb.
    destruct (negb (String.eqb (typeof any') "object")); [now ok_inv Hb|].
    destruct (Object_keys any') as [keys|e]; cbn [bind] in Hb; [|discriminate].
    destruct keys as [|key [|? ?]]; try (now ok_inv Hb).
    destruct (branchByName key branches) as [[branchType cloneBranch]|];
      [|now ok_inv Hb].
    destruct (cloneBranch (getProp any' key) (p ++ [PKey key])) as [bb|e];
      cbn [bind] in Hb; [|discriminate].
    destruct (isOk bb) eqn:Hok; [|now ok_inv Hb].
    apply isOk_errors in Hok.
    destruct (isToJSON (_mode this)); [|destruct (negb isWrapped)];
      ok_inv Hb; cbn in Herr; rewrite Hok in Herr; now elim Herr. }
  destruct (value_is_null any) as [->|Hany].
  - unfold _onUnion in Hclone.
    destruct (existsb isNullType (map fst branches)); ok_inv Hclone;
      [now elim Herr | reflexivity].
  - rewrite (onUnion_not_null this branches unionType branchTypeOf any p Hany)
      in Hclone.
    destruct (unionResolve this (map fst branches) unionType
                (String.eqb (typeName unionType) "union:wrapped")
                branchTypeOf any p) as [[early|any']|e] eqn:Hres;
      cbn [bind] in Hclone; try discriminate.
    + ok_inv Hclone. unfold unionResolve in Hres.
      destruct (isFromDefaultJSON (_mode this)).
      * destruct (map fst branches) as [|first ?]; [discriminate|].
        destruct (isNullType first); now ok_inv Hres.
      * destruct (isToJSON (_mode this) && negb _); [|discriminate].
        destruct (branchTypeOf any); now ok_inv Hres.
    + exact (Hbranch _ _ Hclone).
Qed.

Lemma onLogical_failed (cloneUnderlying : cloneAt) type toValue fromValue
  (any : value) (p : path) b :
  isToJSON (_mode this) = true ->
  (forall v b', cloneUnderlying v p = Ok b' ->
                errors b' <> [] -> bvalue b' = VUndefined) ->
  _onLogical this cloneUnderlying type toValue fromValue any p = Ok b ->
  errors b <> [] -> bvalue b = VUndefined.
Proof.
  intros Hto Hu Hclone Herr. unfold _onLogical in Hclone. rewrite Hto in Hclone.
  destruct (toValue any) as [v|m]; [|now ok_inv Hclone].
  destruct v; try (now apply (Hu _ _ Hclone)). now ok_inv Hclone.
Qed.

Lemma isType_logical (type : avtype) :
  isType type ["logical"] = true
  <-> exists name underlying toValue fromValue,
        type = TLogical name underlying toValue fromValue.
Proof.
  split.
  - destruct type as [k| | |isError| w |]; try discriminate.
    + now destruct k.
    + now destruct isError.
    + now destruct w.
    + intros _. now eexists _, _, _, _.
  - intros [name [underlying [toValue [fromValue ->]]]]. reflexivity.
Qed.

Lemma clone_failed (type : avtype) :
  isToJSON (_mode this) = true \/ isType type ["logical"] = false ->
  forall (any : value) (p : path) b,
    clone inherited compare this type any p = Ok b ->
    errors b <> [] -> bvalue b = VUndefined.
Proof.
  induction type as [kind name isValid | itemsType IH | valuesType IH
                    | isError name fields ctor IH | wrapped types branchTypeOf IH
                    | name underlying toValue fromValue IH] using avtype_ind;
    intros Hcase any p b Hclone Herr; cbn [clone] in Hclone.
  - now apply onPrimitive_failed in Hclone.
  - now apply onArray_failed in Hclone.
  - now apply onMap_failed in Hclone.
  - now apply onRecord_failed in Hclone.
  - now apply onUnion_failed in Hclone.
  - destruct Hcase as [Hto|Hno]; [|discriminate].
    exact (onLogical_failed _ _ _ _ any p b Hto
             (fun v b' H1 H2 => IH (or_introl Hto) v p b' H1 H2) Hclone Herr).
Qed.

End FailedAccumulator.

(** X4. An accumulator that carries an error carries no value: its value
    is still [undefined].  This holds in every mode for every type that is
    not a logical type, and under [TO_JSON] for logical types too; the one
    exception is a logical type whose decoding hook raises, where the
    value of the underlying type stays in the accumulator. *)
Theorem failed_accumulator_has_no_value :
  forall inherited compare this (type : avtype) (any : value) (path : path) b,
    isToJSON (_mode this) = true \/ isType type ["logical"] = false ->
    clone inherited compare this type any path = Ok b ->
    errors b <> [] ->
    bvalue b = VUndefined.
Proof.
  intros inherited compare this type any path b Hcase Hclone Herr.
  exact (clone_failed inherited compare this type Hcase any path b Hclone Herr).
Qed.

Lemma failed_accumulator_has_no_value_witness :
  clone Samples.inherited Samples.numCompare (mkCloner FROM_JSON false false) twoFieldRecord
    twoProblems [] = Ok (mkBuilder VUndefined twoProblemsErrors)
  /\ bvalue (mkBuilder VUndefined twoProblemsErrors) = VUndefined.
Proof.
  split; [reflexivity|].
  refine (failed_accumulator_has_no_value Samples.inherited Samples.numCompare
            (mkCloner FROM_JSON false false) twoFieldRecord twoProblems []
            (mkBuilder VUndefined twoProblemsErrors) _ _ _).
  - right. reflexivity.
  - reflexivity.
  - discriminate.
Defined.

(** X5. Under [TO_JSON], an error-free result for an input other than
    [undefined] is never [undefined]: whatever the type, the encoder does
    not turn a defined input into an absent value. *)
Theorem encoding_of_a_defined_value_is_defined :
  forall inherited compare this (type : avtype) (any : value) (path : path) b,
    _mode this = TO_JSON ->
    clone inherited compare this type any path = Ok b ->
    errors b = [] ->
    any <> VUndefined ->
    bvalue b <> VUndefined.
Proof.
  intros inherited compare this type any path b Hmode Hclone Hok Hany.
  exact (clone_to_json_defined inherited compare this Hmode type any path b Hclone Hok Hany).
Qed.

Lemma encoding_of_a_defined_value_is_defined_witness :
  bvalue (mkBuilder (VObj [("a", VNum 5)]) []) <> VUndefined.
Proof.
  refine (encoding_of_a_defined_value_is_defined Samples.inherited Samples.numCompare
            (mkCloner TO_JSON false false) defaultedRecord (VObj []) []
            (mkBuilder (VObj [("a", VNum 5)]) []) _ _ _ _).
  - reflexivity.
  - reflexivity.
  - reflexivity.
  - discriminate.
Defined.

(* ------------------------------------------------------------------ *)
(** ** Further properties: the errors of a record, in order *)

Section RecordReport.

Variable inherited : value -> string -> value.
Variable compare : avtype -> value -> value -> Z.
Variable this : Cloner.

Lemma fieldCalls_below (any : value) (p : path) :
  forall fields fbs,
    Forall2 (fieldCall inherited compare this any p) fields fbs ->
    Forall (belowPath p) (List.concat (map errors fbs)).
Proof.
  induction 1 as [|f fb fields fbs Hone _ IH]; [constructor|].
  cbn [map List.concat]. apply Forall_app. split; [|exact IH].
  unfold fieldCall in Hone. apply clone_reportsUnder in Hone.
  now apply Forall_under_step with (step := PKey (fname f)).
Qed.

End RecordReport.

(** X6. The errors of a record, for an input that passes the object
    guard, come in three parts and in this order: at most one report of
    undeclared fields (none when [allowUndeclaredFields] is set), naming
    exactly the keys of the input that name no declared field, in key
    order; then, for every field of which the input holds a value, in
    field order, the errors of the transcoding of that value under the
    type of the field, at the path of the record followed by the name of
    the field, each of them strictly below the path of the record; then at
    most one report of missing fields, naming exactly the fields that the
    input lacks and that declare no default, in field order.  A default
    that the encoder writes out for an absent field contributes no
    error. *)
Theorem record_errors_in_three_parts :
  forall inherited compare this isError name fields ctor (any : value) (path : path) b,
    notAnObject any = false ->
    clone inherited compare this (TRecord isError name fields ctor) any path = Ok b ->
    exists fieldBuilders,
      Forall2 (fieldCall inherited compare this any path)
        (presentFields inherited any fields) fieldBuilders
      /\ errors b
         = undeclaredReport this any (TRecord isError name fields ctor) path fields
           ++ List.concat (map errors fieldBuilders)
           ++ missingReport inherited any (TRecord isError name fields ctor) path
                fields
      /\ Forall (belowPath path) (List.concat (map errors fieldBuilders)).
Proof.
  intros inherited compare this isError name fields ctor any path b Hguard Hclone.
  destruct (onRecord_accumulates inherited compare this isError name fields ctor
              any path b Hguard Hclone) as [fbs [Hcalls Herrors]].
  exists fbs. split; [exact Hcalls | split; [exact Herrors|]].
  exact (fieldCalls_below inherited compare this any path _ fbs Hcalls).
Qed.

Lemma record_errors_in_three_parts_witness :
  exists fieldBuilders,
    Forall2 (fieldCall Samples.inherited Samples.numCompare
               (mkCloner FROM_JSON false false)
               (VObj [("z", VNum 1); ("b", VArr [VNum 1; VStr "x"])]) [])
      (presentFields Samples.inherited
         (VObj [("z", VNum 1); ("b", VArr [VNum 1; VStr "x"])])
         [Field "a" Samples.intType VUndefined;
          Field "b" (TArray Samples.intType) VUndefined])
      fieldBuilders
    /\ [mkValueError (DUndeclaredFields ["z"])
          (VObj [("z", VNum 1); ("b", VArr [VNum 1; VStr "x"])]) twoFieldRecord [];
        mkValueError DInvalidValue (VStr "x") Samples.intType [PKey "b"; PIndex 1];
        mkValueError (DMissingFields ["a"])
          (VObj [("z", VNum 1); ("b", VArr [VNum 1; VStr "x"])]) twoFieldRecord []]
       = undeclaredReport (mkCloner FROM_JSON false false)
           (VObj [("z", VNum 1); ("b", VArr [VNum 1; VStr "x"])]) twoFieldRecord []
           [Field "a" Samples.intType VUndefined;
            Field "b" (TArray Samples.intType) VUndefined]
         ++ List.concat (map errors fieldBuilders)
         ++ missingReport Samples.inherited
              (VObj [("z", VNum 1); ("b", VArr [VNum 1; VStr "x"])])
              twoFieldRecord []
              [Field "a" Samples.intType VUndefined;
               Field "b" (TArray Samples.intType) VUndefined]
    /\ Forall (belowPath []) (List.concat (map errors fieldBuilders)).
Proof.
  exact (record_errors_in_three_parts Samples.inherited Samples.numCompare
           (mkCloner FROM_JSON false false) false (Some "R")
           [Field "a" Samples.intType VUndefined;
            Field "b" (TArray Samples.intType) VUndefined]
           (fun args =>
              VObj (construct [Field "a" Samples.intType VUndefined;
                               Field "b" (TArray Samples.intType) VUndefined]
                      args))
           (VObj [("z", VNum 1); ("b", VArr [VNum 1; VStr "x"])]) []
           (mkBuilder VUndefined
              [mkValueError (DUndeclaredFields ["z"])
                 (VObj [("z", VNum 1); ("b", VArr [VNum 1; VStr "x"])])
                 twoFieldRecord [];
               mkValueError DInvalidValue (VStr "x") Samples.intType
                 [PKey "b"; PIndex 1];
               mkValueError (DMissingFields ["a"])
                 (VObj [("z", VNum 1); ("b", VArr [VNum 1; VStr "x"])])
                 twoFieldRecord []])
           eq_refl eq_refl).
Defined.

(* ------------------------------------------------------------------ *)
(** ** Further properties: the value of an array *)

Lemma arrayLoop_values (cloneItem : cloneAt) (p : path) :
  forall items i builder val builder' val',
    arrayLoop cloneItem p items i builder val = Ok (builder', val') ->
    exists bs,
      Forall2 (itemResult cloneItem p)
        (combine (seq i (List.length items)) items) bs
      /\ errors builder' = errors builder ++ List.concat (map errors bs)
      /\ (errors builder' = [] -> val' = val ++ map bvalue bs).
Proof.
  induction items as [|item rest IH]; intros i builder val builder' val' Hloop;
    cbn [arrayLoop] in Hloop.
  - ok_inv Hloop. exists []. simpl. rewrite !app_nil_r.
    split; [constructor | split; reflexivity].
  - destruct (cloneItem item (p ++ [PIndex i])) as [ib|e] eqn:E;
      cbn [bind] in Hloop; [|discriminate].
    apply IH in Hloop. destruct Hloop as [bs [Hall [Herrs Hval]]].
    exists (ib :: bs). split; [simpl; now constructor|]. split.
    + simpl in Herrs. simpl. now rewrite Herrs, app_assoc.
    + intros Hnone. specialize (Hval Hnone). rewrite Hnone in Herrs.
      symmetry in Herrs. apply app_eq_nil in Herrs. destruct Herrs as [Hhere _].
      apply isOk_errors in Hhere. rewrite Hhere in Hval.
      rewrite Hval, <- app_assoc. reflexivity.
Qed.

Lemma onArray_value inherited compare this itemsType (items : list value) (p : path) b :
  clone inherited compare this (TArray itemsType) (VArr items) p = Ok b ->
  exists bs,
    Forall2 (itemResult (clone inherited compare this itemsType) p) (positioned items) bs
    /\ errors b = List.concat (map errors bs)
    /\ (errors b = [] -> bvalue b = VArr (map bvalue bs)).
Proof.
  intros Hclone. cbn [clone] in Hclone. unfold _onArray in Hclone.
  destruct (arrayLoop _ _ _ _ _ _) as [[b' val]|e] eqn:E; cbn [bind] in Hclone;
    [|discriminate].
  apply arrayLoop_values in E. destruct E as [bs [Hall [Herrs Hval]]].
  exists bs. split; [exact Hall|]. ok_inv Hclone.
  destruct (isOk b') eqn:Hok.
  - split; [exact Herrs|]. intros Hnone. cbn [bvalue setValue].
    now rewrite (Hval Hnone).
  - split; [exact Herrs|]. intros Hnone. apply isOk_errors in Hnone. congruence.
Qed.

(** X7. Transcoding an array transcodes every item, in order, at the path
    of the array extended by the position of the item, even after an item
    has failed; the errors of the array are the errors of its items, in
    item order; and an error-free result is the array of the item results,
    one per input item and in the same order. *)
Theorem array_is_transcoded_item_by_item :
  forall inherited compare this (itemsType : avtype) (items : list value) (path : path) b,
    clone inherited compare this (TArray itemsType) (VArr items) path = Ok b ->
    exists ibs,
      Forall2 (itemResult (clone inherited compare this itemsType) path)
        (positioned items) ibs
      /\ errors b = List.concat (map errors ibs)
      /\ (errors b = [] -> bvalue b = VArr (map bvalue ibs)).
Proof.
  intros inherited compare this itemsType items path b Hclone.
  exact (onArray_value inherited compare this itemsType items path b Hclone).
Qed.

Lemma array_is_transcoded_item_by_item_witness :
  exists ibs,
    Forall2 (itemResult (clone Samples.inherited Samples.numCompare (mkCloner FROM_JSON false false)
                           Samples.intType) [PKey "b"])
      (positioned [VNum 1; VNum 2]) ibs
    /\ [] = List.concat (map errors ibs)
    /\ (@nil ValueError = [] -> VArr [VNum 1; VNum 2] = VArr (map bvalue ibs)).
Proof.
  exact (array_is_transcoded_item_by_item Samples.inherited Samples.numCompare
           (mkCloner FROM_JSON false false) Samples.intType [VNum 1; VNum 2]
           [PKey "b"] (mkBuilder (VArr [VNum 1; VNum 2]) []) eq_refl).
Defined.

(* ------------------------------------------------------------------ *)
(** ** Further properties: the value of a union *)

Lemma unionResolve_early this types unionType isWrapped branchTypeOf
  (any : value) (p : path) early :
  unionResolve this types unionType isWrapped branchTypeOf any p = Ok (inl early) ->
  errors early <> [].
Proof.
  unfold unionResolve. intros H.
  destruct (isFromDefaultJSON (_mode this)).
  - destruct types as [|first ?]; [discriminate|].
    destruct (isNullType first); ok_inv H. discriminate.
  - destruct (isToJSON (_mode this) && negb isWrapped); [|discriminate].
    destruct (branchTypeOf any); ok_inv H. discriminate.
Qed.

Lemma unionResolve_same this types unionType isWrapped branchTypeOf
  (any : value) (p : path) any' :
  unionResolve this types unionType isWrapped branchTypeOf any p = Ok (inr any') ->
  isFromDefaultJSON (_mode this) = false ->
  isToJSON (_mode this) = false \/ isWrapped = true ->
  any' = any.
Proof.
  unfold unionResolve. intros H Hdefault Hplain. rewrite Hdefault in H.
  destruct Hplain as [Hp|Hp]; rewrite Hp in H; rewrite ?andb_false_r in H;
    cbn [andb negb] in H; now ok_inv H.
Qed.

Lemma onUnion_value inherited compare this wrapped types branchTypeOf (any : value)
  (p : path) b :
  any <> VNull ->
  clone inherited compare this (TUnion wrapped types branchTypeOf) any p = Ok b ->
  errors b = [] ->
  exists any' key branch bb,
    (isFromDefaultJSON (_mode this) = false ->
     isToJSON (_mode this) = false \/ wrapped = true -> any' = any)
    /\ ownKeys any' = [key]
    /\ typeByName key types = Some branch
    /\ clone inherited compare this branch (getProp any' key) (p ++ [PKey key]) = Ok bb
    /\ errors bb = []
    /\ bvalue b = (if isToJSON (_mode this)
                   then VObj (if assignable (branchKey branch)
                              then [(branchKey branch, bvalue bb)] else [])
                   else if wrapped then wrap branch (bvalue bb) else bvalue bb).
Proof.
  intros Hany Hclone Hnone. cbn [clone] in Hclone.
  rewrite (onUnion_not_null this _ _ branchTypeOf any p Hany) in Hclone.
  rewrite map_fst_branches in Hclone.
  assert (Hw : String.eqb (typeName (TUnion wrapped types branchTypeOf))
                 "union:wrapped" = wrapped) by now destruct wrapped.
  rewrite Hw in Hclone.
  destruct (unionResolve this types (TUnion wrapped types branchTypeOf) wrapped
              branchTypeOf any p) as [[early|any']|e] eqn:Hres;
    cbn [bind] in Hclone; try discriminate.
  - ok_inv Hclone. apply unionResolve_early in Hres. now elim Hres.
  - unfold unionBranch in Hclone.
    destruct (negb (String.eqb (typeof any') "object"));
      [ok_inv Hclone; discriminate|].
    destruct (Object_keys any') as [keys|e] eqn:Hkeys; cbn [bind] in Hclone;
      [|discriminate].
    assert (Hown : keys = ownKeys any') by (destruct any'; now ok_inv Hkeys).
    destruct keys as [|key [|? ?]]; try (ok_inv Hclone; discriminate).
    rewrite branchByName_typeByName in Hclone.
    destruct (typeByName key types) as [branch|] eqn:Hbranch;
      [|ok_inv Hclone; discriminate].
    destruct (clone inherited compare this branch (getProp any' key) (p ++ [PKey key]))
      as [bb|e] eqn:Hbb; cbn [bind] in Hclone; [|discriminate].
    exists any', key, branch, bb.
    split; [intros Hd Hp; exact (unionResolve_same _ _ _ _ _ _ _ _ Hres Hd Hp)|].
    split; [now symmetry|]. split; [exact Hbranch|]. split; [exact Hbb|].
    destruct (isOk bb) eqn:Hok.
    + apply isOk_errors in Hok. split; [exact Hok|].
      destruct (isToJSON (_mode this)).
      * ok_inv Hclone. cbn [bvalue setValue].
        now rewrite (setProp_fresh [] (branchKey branch) (bvalue bb) (fun H => H)).
      * destruct wrapped; now ok_inv Hclone.
    + ok_inv Hclone. cbn in Hnone. apply isOk_errors in Hnone. congruence.
Qed.



(* ------------------------------------------------------------------ *)
(** ** Further properties: the value of a record *)

Lemma recordObject_keptFields (fields : list field) :
  NoDup (map fname fields) ->
  forall args obj,
    (forall f, In f fields -> ~ In (fname f) (map fst obj)) ->
    recordObject fields args obj = obj ++ keptFields fields args.
Proof.
  induction fields as [|f fields IH]; intros Hnodup args obj Hfresh;
    cbn [recordObject keptFields]; [now rewrite app_nil_r|].
  destruct args as [|v args]; [now rewrite app_nil_r|].
  cbn [map] in Hnodup. inversion Hnodup as [|? ? Hnotin Hrest]; subst.
  destruct (isUndefined v); cbn [orb].
  - apply IH; [exact Hrest|]. intros f' Hin. apply Hfresh. now right.
  - rewrite setProp_fresh by (apply Hfresh; now left).
    destruct (assignable (fname f)); cbn [negb].
    + rewrite IH; [now rewrite <- app_assoc | exact Hrest |].
      intros f' Hin Hkey. rewrite map_app, in_app_iff in Hkey.
      destruct Hkey as [Hkey|[Hkey|[]]].
      * apply (Hfresh f'); [now right | exact Hkey].
      * cbn [fst] in Hkey. apply Hnotin. rewrite Hkey. now apply in_map.
    + rewrite app_nil_r. apply IH; [exact Hrest|].
      intros f' Hin. apply Hfresh. now right.
Qed.

Lemma Forall2_combine_In {A B : Type} (R : A -> B -> Prop) (l : list A)
  (l' : list B) :
  Forall2 R l l' -> forall a b, In (a, b) (combine l l') -> R a b.
Proof.
  induction 1 as [|x y l l' Hxy _ IH]; intros a b Hin; simpl in Hin;
    [contradiction|].
  destruct Hin as [Heq|Hin]; [now inversion Heq; subst | now apply IH].
Qed.

Section RecordValue.

Variable inherited : value -> string -> value.
Variable compare : avtype -> value -> value -> Z.
Variable this : Cloner.

Lemma fieldResult_handedOn (any : value) (p : path) (f : field) (v : value) :
  fieldResult inherited compare this any p (f, clone inherited compare this (ftype f)) ([], [], v) ->
  handedOn inherited compare this any p f v.
Proof.
  unfold fieldResult, recordField, handedOn. intros H.
  destruct (isUndefined (readProp inherited any (fname f))) eqn:Hany.
  - apply isUndefined_true in Hany.
    destruct (isUndefined (fdefault f)) eqn:Hdef; cbn [andb] in H.
    + ok_inv H.
    + apply isUndefined_false in Hdef. split; [|intros Hno; now elim Hno].
      intros _. split; [exact Hdef|].
      destruct (isToJSON (_mode this) && negb (_omitDefaultValues this)).
      * destruct (clone inherited compare this (ftype f) (fdefault f)
                    (p ++ [PKey (fname f)])) as [db|e]; cbn [bind] in H;
          [|discriminate].
        ok_inv H. now exists db.
      * now ok_inv H.
  - cbn [andb] in H. apply isUndefined_false in Hany.
    split; [intros Hno; now elim Hany|]. intros _.
    destruct (clone inherited compare this (ftype f) (readProp inherited any (fname f))
                (p ++ [PKey (fname f)])) as [fb|e]; cbn [bind] in H;
      [|discriminate].
    exists fb. split; [reflexivity|].
    injection H as Herrs Hv. cbn [errors newBuilder app] in Herrs.
    split; [exact Herrs|].
    assert (Hok : isOk fb = true) by now apply isOk_errors.
    rewrite Hok in Hv. cbn [andb] in Hv. rewrite andb_true_r in Hv.
    now symmetry.
Qed.

Lemma fieldResults_handedOn (any : value) (p : path) (fields : list field) :
  forall rs,
    Forall2 (fieldResult inherited compare this any p)
      (map (fun f => (f, clone inherited compare this (ftype f))) fields) rs ->
    Forall (fun r => fst (fst r) = [] /\ snd (fst r) = []) rs ->
    Forall2 (handedOn inherited compare this any p) fields (map snd rs).
Proof.
  induction fields as [|f fields IH]; intros rs Hall Hnone;
    inversion Hall as [|? [[errs fm] v] ? rs' Hone Hrest]; subst;
    cbn [map]; constructor.
  - inversion Hnone as [|? ? [Herrs Hfm] _]; subst. cbn [fst snd] in *. subst.
    now apply fieldResult_handedOn.
  - apply IH; [exact Hrest|]. now inversion Hnone.
Qed.

Lemma onRecord_value isError name fields ctor (any : value) (p : path) b :
  clone inherited compare this (TRecord isError name fields ctor) any p = Ok b ->
  errors b = [] ->
  exists args,
    Forall2 (handedOn inherited compare this any p) fields args
    /\ bvalue b = if isToJSON (_mode this)
                  then VObj (recordObject fields args [])
                  else ctor args.
Proof.
  intros Hclone Hnone. cbn [clone] in Hclone. unfold _onRecord in Hclone.
  destruct (notAnObject any); [ok_inv Hclone; discriminate|].
  unfold recordFields in Hclone.
  rewrite map_map in Hclone. cbn [fst] in Hclone. rewrite map_id in Hclone.
  match type of Hclone with
  | bind ?m _ = _ => destruct m as [b0|e]; cbn [bind] in Hclone; [|discriminate]
  end.
  match type of Hclone with
  | bind ?m _ = _ => destruct m as [[[b1 missing] args]|e] eqn:E;
                     cbn [bind] in Hclone; [|discriminate]
  end.
  apply recordLoop_spec in E. destruct E as [rs [Hall [Herrs [Hmissing Hargs]]]].
  cbn [app] in Hmissing, Hargs. ok_inv Hclone.
  rewrite errors_record_result in Hnone.
  destruct (List.concat (map (fun r => snd (fst r)) rs)) as [|m ms] eqn:Hm;
    [|cbn in Hnone; now destruct (errors b1)].
  rewrite Hnone in Herrs. symmetry in Herrs. apply app_eq_nil in Herrs.
  destruct Herrs as [_ Herrs].
  assert (Hclean : Forall (fun r : list ValueError * list string * value =>
                             fst (fst r) = [] /\ snd (fst r) = []) rs).
  { apply concat_nil_Forall in Herrs, Hm. rewrite Forall_map in Herrs, Hm.
    rewrite Forall_forall in Herrs, Hm |- *. intros r Hr. split; auto. }
  exists (map snd rs). split; [now apply fieldResults_handedOn|].
  apply isOk_errors in Hnone. rewrite Hnone.
  now destruct (isToJSON (_mode this)).
Qed.

End RecordValue.

(** X9. Decoding a record without error calls the record constructor with
    one value per declared field, in field order.  The value of a field
    the input has is its decoded value; the value of a field the input
    lacks is [undefined], and such a field declares a default: the decoder
    does not decode defaults, it leaves them to the constructor. *)
Theorem record_decoding_hands_on_one_value_per_field :
  forall inherited compare this isError name fields ctor (any : value) (path : path) b,
    isToJSON (_mode this) = false ->
    clone inherited compare this (TRecord isError name fields ctor) any path = Ok b ->
    errors b = [] ->
    exists args,
      bvalue b = ctor args
      /\ Forall2 (handedOn inherited compare this any path) fields args
      /\ (forall f v,
            In (f, v) (combine fields args) ->
            readProp inherited any (fname f) = VUndefined ->
            fdefault f <> VUndefined /\ v = VUndefined).
Proof.
  intros inherited compare this isError name fields ctor any path b Hmode Hclone Hnone.
  destruct (onRecord_value inherited compare this isError name fields ctor any path b
              Hclone Hnone) as [args [Hall Hvalue]].
  rewrite Hmode in Hvalue. exists args. split; [exact Hvalue|].
  split; [exact Hall|]. intros f v Hin Habsent.
  destruct (Forall2_combine_In _ _ _ Hall f v Hin) as [Hlacks _].
  specialize (Hlacks Habsent). rewrite Hmode in Hlacks. exact Hlacks.
Qed.

Lemma record_decoding_hands_on_one_value_per_field_witness :
  exists args,
    VObj [("a", VNum 5)] = VObj (construct [Field "a" Samples.intType (VNum 5)] args)
    /\ Forall2 (handedOn Samples.inherited Samples.numCompare (mkCloner FROM_JSON false false)
                  (VObj []) [])
         [Field "a" Samples.intType (VNum 5)] args
    /\ (forall f v,
          In (f, v) (combine [Field "a" Samples.intType (VNum 5)] args) ->
          readProp Samples.inherited (VObj []) (fname f) = VUndefined ->
          fdefault f <> VUndefined /\ v = VUndefined).
Proof.
  exact (record_decoding_hands_on_one_value_per_field Samples.inherited Samples.numCompare
           (mkCloner FROM_JSON false false) false (Some "R")
           [Field "a" Samples.intType (VNum 5)]
           (fun args => VObj (construct [Field "a" Samples.intType (VNum 5)] args))
           (VObj []) [] (mkBuilder (VObj [("a", VNum 5)]) [])
           eq_refl eq_refl eq_refl).
Defined.

(** X10. Encoding a record with distinct field names without error gives
    an object that holds exactly the fields whose handed-on value is not
    [undefined] and whose name is not [__proto__], each under its field
    name and in field order: a key of the input that names no declared
    field never reaches the output, and neither does a field named
    [__proto__], since the assignment under that name creates no
    property. *)
Theorem record_encoding_keeps_declared_fields_in_order :
  forall inherited compare this isError name fields ctor (any : value) (path : path) b,
    _mode this = TO_JSON ->
    NoDup (map fname fields) ->
    clone inherited compare this (TRecord isError name fields ctor) any path = Ok b ->
    errors b = [] ->
    exists args,
      Forall2 (handedOn inherited compare this any path) fields args
      /\ bvalue b = VObj (keptFields fields args).
Proof.
  intros inherited compare this isError name fields ctor any path b Hmode Hnodup Hclone
    Hnone.
  destruct (onRecord_value inherited compare this isError name fields ctor any path b
              Hclone Hnone) as [args [Hall Hvalue]].
  rewrite Hmode in Hvalue. cbn [isToJSON] in Hvalue.
  exists args. split; [exact Hall|].
  rewrite Hvalue, (recordObject_keptFields fields Hnodup args []); [reflexivity|].
  intros f _ [].
Qed.

Lemma record_encoding_keeps_declared_fields_in_order_witness :
  (exists args,
     Forall2 (handedOn Samples.inherited Samples.numCompare (mkCloner TO_JSON true true)
                (VObj [("z", VNum 0); ("c", VBuf [x41]); ("a", VNum 5);
                       ("b", VObj [])]) [])
       sampleFields args
     /\ VObj [("b", VObj []); ("c", VStr (string_of_list_byte [x41]))]
        = VObj (keptFields sampleFields args))
  /\ (exists args,
     Forall2 (handedOn Samples.inherited Samples.numCompare
                (mkCloner TO_JSON false false)
                (VObj [("__proto__", VNum 1); ("a", VNum 2)]) [])
       [Field "__proto__" Samples.intType VUndefined;
        Field "a" Samples.intType VUndefined] args
     /\ VObj [("a", VNum 2)]
        = VObj (keptFields [Field "__proto__" Samples.intType VUndefined;
                            Field "a" Samples.intType VUndefined] args)).
Proof.
  split.
  - refine (record_encoding_keeps_declared_fields_in_order Samples.inherited
              Samples.numCompare
              (mkCloner TO_JSON true true) false (Some "R") sampleFields
              (fun args => VObj (construct sampleFields args))
              (VObj [("z", VNum 0); ("c", VBuf [x41]); ("a", VNum 5);
                     ("b", VObj [])]) []
              (mkBuilder
                 (VObj [("b", VObj []); ("c", VStr (string_of_list_byte [x41]))]) [])
              eq_refl _ eq_refl eq_refl).
    repeat constructor; simpl; intuition discriminate.
  - refine (record_encoding_keeps_declared_fields_in_order Samples.inherited
              Samples.numCompare
              (mkCloner TO_JSON false false) false (Some "R")
              [Field "__proto__" Samples.intType VUndefined;
               Field "a" Samples.intType VUndefined]
              (fun args =>
                 VObj (construct [Field "__proto__" Samples.intType VUndefined;
                                  Field "a" Samples.intType VUndefined] args))
              (VObj [("__proto__", VNum 1); ("a", VNum 2)]) []
              (mkBuilder (VObj [("a", VNum 2)]) [])
              eq_refl _ eq_refl eq_refl).
    repeat constructor; simpl; intuition discriminate.
Defined.

(* ------------------------------------------------------------------ *)
(** ** Further properties: the text of a path *)

Lemma string_append_assoc (a b c : string) :
  ((a ++ b) ++ c)%string = (a ++ (b ++ c))%string.
Proof. induction a as [|ch a IH]; simpl; [reflexivity | now rewrite IH]. Qed.

Lemma joinPath_app (keyIsNaN : string -> bool) (p q : path) :
  joinPath keyIsNaN (p ++ q)
  = (joinPath keyIsNaN p ++ joinPath keyIsNaN q)%string.
Proof.
  induction p as [|step p IH]; [reflexivity|].
  cbn [app joinPath]. rewrite IH. destruct step as [part|i].
  - now rewrite string_append_assoc.
  - now rewrite !string_append_assoc.
Qed.

(** X11. The text of a path is the concatenation of the texts of its
    steps: the text of [p ++ q] is the text of [p] followed by the text of
    [q], so the message of an error below a node starts with the path text
    of that node. *)
Theorem path_text_of_a_concatenation :
  forall formatJSON formatKeys (keyIsNaN : string -> bool) (p : path)
         (e : ValueError),
    joinPath keyIsNaN (p ++ errPath e)
    = (joinPath keyIsNaN p ++ joinPath keyIsNaN (errPath e))%string
    /\ exists rest,
         errorMessage formatJSON formatKeys keyIsNaN e
         = ("$" ++ joinPath keyIsNaN (errPath e) ++ rest)%string
         /\ errorMessage formatJSON formatKeys keyIsNaN (prefixError p e)
            = ("$" ++ joinPath keyIsNaN p ++ joinPath keyIsNaN (errPath e)
               ++ rest)%string.
Proof.
  intros formatJSON formatKeys keyIsNaN p e. split; [apply joinPath_app|].
  exists (" has " ++ typeInfo (errExpectedType e) ++ " but "
          ++ descText formatKeys (errDesc e) ++ ": "
          ++ formatJSON (errValue e))%string.
  split; [reflexivity|].
  unfold errorMessage, prefixError. cbn [errPath errDesc errValue errExpectedType].
  now rewrite joinPath_app, string_append_assoc.
Qed.

(* ------------------------------------------------------------------ *)
(** ** Further properties: the two decoding modes differ only at unions *)

Lemma arrayLoop_ext (c1 c2 : cloneAt) (p : path) :
  (forall v q, c1 v q = c2 v q) ->
  forall items i builder val,
    arrayLoop c1 p items i builder val = arrayLoop c2 p items i builder val.
Proof.
  intros Hsame. induction items as [|item rest IH]; intros i builder val;
    cbn [arrayLoop]; [reflexivity|].
  rewrite Hsame. destruct (c2 item (p ++ [PIndex i])); cbn [bind];
    [apply IH | reflexivity].
Qed.

Lemma mapLoop_ext_clone (c1 c2 : cloneAt) (any : value) (p : path) :
  (forall v q, c1 v q = c2 v q) ->
  forall keys builder val,
    mapLoop c1 any p keys builder val = mapLoop c2 any p keys builder val.
Proof.
  intros Hsame. induction keys as [|key rest IH]; intros builder val;
    cbn [mapLoop]; [reflexivity|].
  rewrite Hsame. destruct (c2 (getProp any key) (p ++ [PKey key])); cbn [bind];
    [apply IH | reflexivity].
Qed.

Section DecodingModes.

Variable inherited : value -> string -> value.
Variable compare : avtype -> value -> value -> Z.
Variables allow omit : bool.

Let fromDefault : Cloner := mkCloner FROM_DEFAULT_JSON allow omit.
Let fromPlain : Cloner := mkCloner FROM_JSON allow omit.

Lemma recordLoop_modes (any : value) (p : path) :
  forall fields,
    Forall (fun f => forall v q,
              clone inherited compare fromDefault (ftype f) v q
              = clone inherited compare fromPlain (ftype f) v q) fields ->
    forall st,
      recordLoop inherited compare fromDefault any p
        (map (fun f => (f, clone inherited compare fromDefault (ftype f))) fields) st
      = recordLoop inherited compare fromPlain any p
          (map (fun f => (f, clone inherited compare fromPlain (ftype f))) fields) st.
Proof.
  induction fields as [|f fields IH]; intros Hall st; cbn [map recordLoop];
    [reflexivity|].
  inversion Hall as [|? ? Hf Hrest]; subst.
  assert (Hstep :
    recordField inherited compare fromDefault any p st
      (f, clone inherited compare fromDefault (ftype f))
    = recordField inherited compare fromPlain any p st
        (f, clone inherited compare fromPlain (ftype f))).
  { destruct st as [[builder missing] args]. unfold recordField.
    now rewrite !Hf. }
  rewrite Hstep.
  destruct (recordField inherited compare fromPlain any p st
              (f, clone inherited compare fromPlain (ftype f))); cbn [bind];
    [now apply IH | reflexivity].
Qed.

Lemma clone_modes (type : avtype) :
  unionFree type ->
  forall (any : value) (p : path),
    clone inherited compare fromDefault type any p = clone inherited compare fromPlain type any p.
Proof.
  induction type as [kind name isValid | itemsType IH | valuesType IH
                    | isError name fields ctor IH | wrapped types branchTypeOf IH
                    | name underlying toValue fromValue IH] using avtype_ind;
    intros Hfree any p; inversion Hfree; subst; cbn [clone].
  - reflexivity.
  - unfold _onArray. destruct any; try reflexivity.
    now rewrite (arrayLoop_ext _ _ p (IH ltac:(assumption))).
  - unfold _onMap, mapEntries. destruct (notAnObject any); [reflexivity|].
    destruct (Object_keys any); cbn [bind]; [|reflexivity].
    now rewrite (mapLoop_ext_clone _ _ any p (IH ltac:(assumption))).
  - unfold _onRecord, recordFields. destruct (notAnObject any); [reflexivity|].
    rewrite !map_map. cbn [fst].
    change (_allowUndeclaredFields fromDefault)
      with (_allowUndeclaredFields fromPlain).
    match goal with
    | |- bind ?m _ = _ => destruct m as [b0|e]; cbn [bind]; [|reflexivity]
    end.
    rewrite recordLoop_modes; [reflexivity|].
    rewrite Forall_forall in IH |- *. intros f Hin. apply IH; auto.
  - unfold _onLogical. cbn [isToJSON _mode fromDefault fromPlain].
    now rewrite (IH ltac:(assumption)).
Qed.

End DecodingModes.

Lemma twoFieldRecord_unionFree : unionFree twoFieldRecord.
Proof.
  apply unionFree_record.
  intros f [Hf|[Hf|[]]]; subst; repeat constructor.
Qed.

(** X12. On a type in which no union occurs, decoding a default and
    decoding from JSON are the same function: the handlers give the same
    accumulator at every path, and [fromDefaultJSON] and [fromJSON] return
    the same value or raise the same exception.  The two modes differ only
    in how a union resolves its branch. *)
Theorem decoding_modes_agree_without_unions :
  forall inherited compare (type : avtype),
    unionFree type ->
    (forall allow omit (any : value) (path : path),
       clone inherited compare (mkCloner FROM_DEFAULT_JSON allow omit) type any path
       = clone inherited compare (mkCloner FROM_JSON allow omit) type any path)
    /\ (forall (any : value) (opts : option Options),
          fromDefaultJSON inherited compare any type opts = fromJSON inherited compare any type opts).
Proof.
  intros inherited compare type Hfree. split.
  - intros allow omit any path. now apply clone_modes.
  - intros any opts. unfold fromDefaultJSON, fromJSON, cloneRoot, newCloner.
    cbn [_mode _omitDefaultValues isToJSON negb].
    destruct (truthy (omitDefaultValues _)); cbn [andb bind]; [reflexivity|].
    now rewrite clone_modes.
Qed.

Lemma decoding_modes_agree_without_unions_witness :
  (forall allow omit (any : value) (path : path),
     clone Samples.inherited Samples.numCompare (mkCloner FROM_DEFAULT_JSON allow omit)
       twoFieldRecord any path
     = clone Samples.inherited Samples.numCompare (mkCloner FROM_JSON allow omit)
         twoFieldRecord any path)
  /\ (forall (any : value) (opts : option Options),
        fromDefaultJSON Samples.inherited Samples.numCompare any twoFieldRecord opts
        = fromJSON Samples.inherited Samples.numCompare any twoFieldRecord opts).
Proof.
  exact (decoding_modes_agree_without_unions Samples.inherited Samples.numCompare twoFieldRecord
           twoFieldRecord_unionFree).
Defined.

(* ------------------------------------------------------------------ *)
(** ** Further properties: binary strings *)

Lemma buffer_decoded inherited compare this (k : primKind) name isValid (any : value)
  (p : path) b :
  isBufferKind k = true ->
  isToJSON (_mode this) = false ->
  clone inherited compare this (TPrim k name isValid) any p = Ok b ->
  errors b = [] ->
  exists s,
    any = VStr s
    /\ isValid (bufferFromBinary s) = true
    /\ bvalue b = bufferFromBinary s.
Proof.
  intros Hkind Hmode Hclone Hnone. cbn [clone] in Hclone.
  unfold _onPrimitive in Hclone. rewrite isType_buffer, Hkind, Hmode in Hclone.
  cbn [andb negb] in Hclone.
  destruct any; try (ok_inv Hclone; discriminate).
  exists s. split; [reflexivity|]. unfold primitiveCheck in Hclone.
  rewrite Hmode in Hclone.
  destruct (isValid (bufferFromBinary s)); cbn in Hclone; ok_inv Hclone;
    [now split | discriminate].
Qed.

Lemma buffer_encoded inherited compare this (k : primKind) name isValid
  (bytes : list byte) (p : path) :
  isBufferKind k = true ->
  _mode this = TO_JSON ->
  isValid (VBuf bytes) = true ->
  clone inherited compare this (TPrim k name isValid) (VBuf bytes) p
  = Ok (mkBuilder (VStr (string_of_list_byte bytes)) []).
Proof.
  intros Hkind Hmode Hvalid. cbn [clone]. unfold _onPrimitive.
  rewrite isType_buffer, Hkind, Hmode. cbn [isToJSON andb negb].
  unfold primitiveCheck. rewrite Hvalid, Hmode. reflexivity.
Qed.

(** X13. For the buffer kinds ([bytes] and [fixed]), decoding succeeds only
    on a string.  For a string whose code units are all below 256, which
    is every string of this model, it gives the byte sequence with one
    byte per code unit, and encoding that byte sequence gives the string
    back: on such strings decoding followed by encoding is the identity.
    A code unit above 255, of which the platform keeps the low byte, is
    outside the model, and nothing is stated of it. *)
Theorem binary_string_decodes_and_encodes_back :
  forall inherited compare decoding encoding (k : primKind) name isValid (any : value)
         (p q : path) b,
    isBufferKind k = true ->
    isToJSON (_mode decoding) = false ->
    _mode encoding = TO_JSON ->
    clone inherited compare decoding (TPrim k name isValid) any p = Ok b ->
    errors b = [] ->
    exists s,
      any = VStr s
      /\ bvalue b = VBuf (list_byte_of_string s)
      /\ clone inherited compare encoding (TPrim k name isValid) (bvalue b) q
         = Ok (mkBuilder any []).
Proof.
  intros inherited compare decoding encoding k name isValid any p q b Hkind Hdec Henc
    Hclone Hnone.
  destruct (buffer_decoded inherited compare decoding k name isValid any p b Hkind Hdec
              Hclone Hnone) as [s [Hany [Hvalid Hvalue]]].
  exists s. split; [exact Hany|]. split; [exact Hvalue|].
  rewrite Hvalue, Hany. unfold bufferFromBinary in *.
  rewrite (buffer_encoded inherited compare encoding k name isValid _ q Hkind Henc Hvalid).
  now rewrite string_of_list_byte_of_string.
Qed.

Lemma binary_string_decodes_and_encodes_back_witness :
  exists s,
    VStr "AZ" = VStr s
    /\ VBuf (list_byte_of_string "AZ") = VBuf (list_byte_of_string s)
    /\ clone Samples.inherited Samples.numCompare (mkCloner TO_JSON false false) Samples.bytesType
         (VBuf (list_byte_of_string "AZ")) []
       = Ok (mkBuilder (VStr "AZ") []).
Proof.
  exact (binary_string_decodes_and_encodes_back Samples.inherited Samples.numCompare
           (mkCloner FROM_JSON false false) (mkCloner TO_JSON false false)
           KBytes None Samples.isBuf (VStr "AZ") [PKey "c"] []
           (mkBuilder (VBuf (list_byte_of_string "AZ")) [])
           eq_refl eq_refl eq_refl eq_refl eq_refl).
Defined.

(* ------------------------------------------------------------------ *)
(** ** Further properties: [allowUndeclaredFields] relaxes decoding *)

Lemma arrayLoop_relax (c0 c1 : cloneAt) (p : path) :
  (forall v q b, c0 v q = Ok b -> errors b = [] -> c1 v q = Ok b) ->
  forall items i builder val builder' val',
    arrayLoop c0 p items i builder val = Ok (builder', val') ->
    errors builder' = [] ->
    arrayLoop c1 p items i builder val = Ok (builder', val').
Proof.
  intros Hrelax. induction items as [|item rest IH];
    intros i builder val builder' val' Hloop Hnone; cbn [arrayLoop] in *;
    [exact Hloop|].
  destruct (c0 item (p ++ [PIndex i])) as [ib|e] eqn:Hib; cbn [bind] in Hloop;
    [|discriminate].
  assert (Hclean : errors ib = []).
  { destruct (arrayLoop_spec c0 p _ _ _ _ _ _ Hloop) as [bs [_ Herrs]].
    rewrite Hnone in Herrs. symmetry in Herrs.
    apply app_nil_both in Herrs. destruct Herrs as [Hhere _].
    cbn [errors copyErrorsFrom] in Hhere. now apply app_nil_both in Hhere. }
  rewrite (Hrelax _ _ _ Hib Hclean). cbn [bind]. now apply IH.
Qed.

Lemma mapLoop_relax (c0 c1 : cloneAt) (any : value) (p : path) :
  (forall v q b, c0 v q = Ok b -> errors b = [] -> c1 v q = Ok b) ->
  forall keys builder val builder' val',
    mapLoop c0 any p keys builder val = Ok (builder', val') ->
    errors builder' = [] ->
    mapLoop c1 any p keys builder val = Ok (builder', val').
Proof.
  intros Hrelax. induction keys as [|key rest IH];
    intros builder val builder' val' Hloop Hnone; cbn [mapLoop] in *;
    [exact Hloop|].
  destruct (c0 (getProp any key) (p ++ [PKey key])) as [vb|e] eqn:Hvb;
    cbn [bind] in Hloop; [|discriminate].
  assert (Hclean : errors vb = []).
  { destruct (mapLoop_spec c0 any p _ _ _ _ _ Hloop) as [bs [_ [Herrs _]]].
    rewrite Hnone in Herrs. symmetry in Herrs.
    apply app_nil_both in Herrs. destruct Herrs as [Hhere _].
    cbn [errors copyErrorsFrom] in Hhere. now apply app_nil_both in Hhere. }
  rewrite (Hrelax _ _ _ Hvb Hclean). cbn [bind]. now apply IH.
Qed.

Section Relaxation.

Variable inherited : value -> string -> value.
Variable compare : avtype -> value -> value -> Z.
Variable mode : Mode.
Variable omit : bool.
Hypothesis decoding : isToJSON mode = false.

Let strict : Cloner := mkCloner mode false omit.
Let relaxed : Cloner := mkCloner mode true omit.

Lemma recordLoop_relax (any : value) (p : path) :
  forall fields,
    Forall (fun f => forall v q b,
              clone inherited compare strict (ftype f) v q = Ok b -> errors b = [] ->
              clone inherited compare relaxed (ftype f) v q = Ok b) fields ->
    forall builder missing args builder' missing' args',
      recordLoop inherited compare strict any p
        (map (fun f => (f, clone inherited compare strict (ftype f))) fields)
        (builder, missing, args) = Ok (builder', missing', args') ->
      errors builder' = [] ->
      recordLoop inherited compare relaxed any p
        (map (fun f => (f, clone inherited compare relaxed (ftype f))) fields)
        (builder, missing, args) = Ok (builder', missing', args').
Proof.
  induction fields as [|f fields IH];
    intros Hall builder missing args builder' missing' args' Hloop Hnone;
    cbn [map recordLoop] in *; [exact Hloop|].
  inversion Hall as [|? ? Hf Hrest]; subst.
  destruct (recordField inherited compare strict any p (builder, missing, args)
              (f, clone inherited compare strict (ftype f))) as [[[b1 m1] a1]|e] eqn:Hstep;
    cbn [bind] in Hloop; [|discriminate].
  assert (Hb1 : errors b1 = []).
  { destruct (recordLoop_spec inherited compare strict any p _ _ _ _ _ _ _ Hloop)
      as [rs [_ [Herrs _]]].
    rewrite Hnone in Herrs. symmetry in Herrs. now apply app_nil_both in Herrs. }
  assert (Hsame :
    recordField inherited compare relaxed any p (builder, missing, args)
      (f, clone inherited compare relaxed (ftype f)) = Ok (b1, m1, a1)).
  { unfold recordField in Hstep |- *.
    cbn [_mode _omitDefaultValues strict relaxed] in Hstep |- *.
    rewrite decoding in Hstep |- *. cbn [andb] in Hstep |- *.
    destruct (isUndefined (readProp inherited any (fname f)) && isUndefined (fdefault f));
      [exact Hstep|].
    destruct (isUndefined (readProp inherited any (fname f))); [exact Hstep|].
    destruct (clone inherited compare strict (ftype f) (readProp inherited any (fname f))
                (p ++ [PKey (fname f)])) as [fb|e] eqn:Hfb; cbn [bind] in Hstep;
      [|discriminate].
    assert (Hclean : errors fb = []).
    { injection Hstep as Hb _ _. rewrite <- Hb in Hb1.
      cbn [errors copyErrorsFrom] in Hb1. now apply app_nil_both in Hb1. }
    rewrite (Hf _ _ _ Hfb Hclean). exact Hstep. }
  rewrite Hsame. cbn [bind]. now apply IH.
Qed.

Lemma clone_relax (type : avtype) :
  forall (any : value) (p : path) b,
    clone inherited compare strict type any p = Ok b ->
    errors b = [] ->
    clone inherited compare relaxed type any p = Ok b.
Proof.
  induction type as [kind name isValid | itemsType IH | valuesType IH
                    | isError name fields ctor IH | wrapped types branchTypeOf IH
                    | name underlying toValue fromValue IH] using avtype_ind;
    intros any p b Hclone Hnone; cbn [clone] in *.
  - exact Hclone.
  - unfold _onArray in *. destruct any; try exact Hclone.
    destruct (arrayLoop (clone inherited compare strict itemsType) p items 0 newBuilder [])
      as [[b1 val]|e] eqn:Hloop; cbn [bind] in Hclone; [|discriminate].
    assert (Hb1 : errors b1 = [])
      by (ok_inv Hclone; now destruct (isOk b1)).
    rewrite (arrayLoop_relax _ _ p IH _ _ _ _ _ _ Hloop Hb1). exact Hclone.
  - unfold _onMap, mapEntries in *. destruct (notAnObject any); [exact Hclone|].
    destruct (Object_keys any) as [names|e]; cbn [bind] in *; [|discriminate].
    destruct (mapLoop (clone inherited compare strict valuesType) any p (sortKeys names)
                newBuilder []) as [[b1 val]|e] eqn:Hloop; cbn [bind] in Hclone;
      [|discriminate].
    assert (Hb1 : errors b1 = [])
      by (ok_inv Hclone; now destruct (isOk b1)).
    rewrite (mapLoop_relax _ _ any p IH _ _ _ _ _ Hloop Hb1). exact Hclone.
  - unfold _onRecord, recordFields in *.
    destruct (notAnObject any); [exact Hclone|].
    cbn [_allowUndeclaredFields _mode strict relaxed] in *.
    rewrite !map_map in *. cbn [fst] in *.
    destruct (Object_keys any) as [names|e]; cbn [bind] in Hclone;
      [|discriminate].
    destruct (undeclaredFields (map (fun x => x) fields) names) as [|x xs].
    + cbn [bind] in *.
      destruct (recordLoop inherited compare strict any p _ (newBuilder, [], []))
        as [[[b1 missing] args]|e] eqn:Hloop; cbn [bind] in Hclone;
        [|discriminate].
      assert (Hb1 : errors b1 = []).
      { ok_inv Hclone. rewrite errors_record_result in Hnone.
        destruct missing; [exact Hnone|].
        cbn [errors addError] in Hnone. now apply app_nil_both in Hnone. }
      rewrite (recordLoop_relax any p fields IH _ _ _ _ _ _ Hloop Hb1).
      exact Hclone.
    + exfalso. cbn [bind] in Hclone.
      destruct (recordLoop inherited compare strict any p _ _)
        as [[[b1 missing] args]|e] eqn:Hloop; cbn [bind] in Hclone;
        [|discriminate].
      destruct (recordLoop_spec inherited compare strict any p _ _ _ _ _ _ _ Hloop)
        as [rs [_ [Herrs _]]].
      ok_inv Hclone. rewrite errors_record_result in Hnone.
      destruct missing; cbn [errors addError] in Hnone;
        [|apply app_nil_both in Hnone; destruct Hnone as [Hnone _]];
        rewrite Hnone in Herrs; discriminate.
  - destruct (value_is_null any) as [->|Hany];
      [unfold _onUnion in *; rewrite !map_fst_branches in *; exact Hclone|].
    rewrite (onUnion_not_null strict _ _ branchTypeOf any p Hany) in Hclone.
    rewrite (onUnion_not_null relaxed _ _ branchTypeOf any p Hany).
    rewrite !map_fst_branches in *.
    change (unionResolve relaxed) with (unionResolve strict).
    destruct (unionResolve strict types (TUnion wrapped types branchTypeOf)
                (String.eqb (typeName (TUnion wrapped types branchTypeOf))
                   "union:wrapped") branchTypeOf any p)
      as [[early|any']|e]; cbn [bind] in *; try exact Hclone.
    unfold unionBranch in *.
    destruct (negb (String.eqb (typeof any') "object")); [exact Hclone|].
    destruct (Object_keys any') as [keys|e]; cbn [bind] in *; [|discriminate].
    destruct keys as [|key [|? ?]]; try exact Hclone.
    rewrite branchByName_typeByName in Hclone |- *.
    destruct (typeByName key types) as [branch|] eqn:Hbranch; [|exact Hclone].
    destruct (clone inherited compare strict branch (getProp any' key) (p ++ [PKey key]))
      as [bb|e] eqn:Hbb; cbn [bind] in Hclone; [|discriminate].
    assert (Hclean : errors bb = []).
    { destruct (isOk bb) eqn:Hok; [now apply isOk_errors|].
      ok_inv Hclone. exact Hnone. }
    apply typeByName_Some in Hbranch. destruct Hbranch as [Hin _].
    rewrite Forall_forall in IH.
    rewrite (IH branch Hin _ _ _ Hbb Hclean). exact Hclone.
  - unfold _onLogical in *. cbn [_mode strict relaxed] in *.
    rewrite decoding in *.
    destruct (clone inherited compare strict underlying any p) as [ub|e] eqn:Hub;
      cbn [bind] in Hclone; [|discriminate].
    assert (Hclean : errors ub = []).
    { destruct (isOk ub) eqn:Hok; [now apply isOk_errors|].
      cbn [negb] in Hclone. now ok_inv Hclone. }
    rewrite (IH _ _ _ Hub Hclean). exact Hclone.
Qed.

End Relaxation.

(** X14. [allowUndeclaredFields] only relaxes decoding: whatever decodes
    without error when the option is off decodes to the same value when
    it is on, in both decoding modes and at every type. *)
Theorem allowUndeclaredFields_relaxes_decoding :
  forall inherited compare (mode : Mode) (omit : bool) (type : avtype) (any : value)
         (path : path) b,
    isToJSON mode = false ->
    clone inherited compare (mkCloner mode false omit) type any path = Ok b ->
    errors b = [] ->
    clone inherited compare (mkCloner mode true omit) type any path = Ok b.
Proof.
  intros inherited compare mode omit type any path b Hmode Hclone Hnone.
  exact (clone_relax inherited compare mode omit Hmode type any path b Hclone Hnone).
Qed.

Lemma allowUndeclaredFields_relaxes_decoding_witness :
  clone Samples.inherited Samples.numCompare (mkCloner FROM_JSON true false) defaultedRecord
    (VObj [("a", VNum 1)]) []
  = Ok (mkBuilder (VObj [("a", VNum 1)]) []).
Proof.
  exact (allowUndeclaredFields_relaxes_decoding Samples.inherited Samples.numCompare FROM_JSON
           false defaultedRecord (VObj [("a", VNum 1)]) []
           (mkBuilder (VObj [("a", VNum 1)]) []) eq_refl eq_refl eq_refl).
Defined.

(* ------------------------------------------------------------------ *)
(** ** Further properties: the types that errors expect *)

Lemma occursIn_trans (a b c : avtype) : occursIn a b -> occursIn b c -> occursIn a c.
Proof.
  intros Hab Hbc. induction Hbc; [exact Hab| | | | |].
  - now apply occursIn_items.
  - now apply occursIn_values.
  - now apply occursIn_field with (f := f).
  - now apply occursIn_branch with (branch := branch).
  - now apply occursIn_underlying.
Qed.

Section ExpectedTypes.

Variable inherited : value -> string -> value.
Variable compare : avtype -> value -> value -> Z.
Variable this : Cloner.
Variable root : avtype.

Let within (e : ValueError) : Prop := occursIn (errExpectedType e) root.

Lemma within_own (b : Builder) d (v : value) (type : avtype) (p : path) :
  occursIn type root ->
  Forall within (errors b) ->
  Forall within (errors (addError b d v type p)).
Proof.
  intros Hty Hb. cbn [errors addError]. apply Forall_app. split; [exact Hb|].
  now repeat constructor.
Qed.

Lemma onPrimitive_expects type isValid :
  occursIn type root -> expectsWithin root (_onPrimitive this type isValid).
Proof.
  intros Hty any p b Hclone. fold within. unfold _onPrimitive in Hclone.
  assert (Hcheck : forall val,
            primitiveCheck this type isValid (isType type ["bytes"; "fixed"])
              any val p = Ok b -> Forall within (errors b)).
  { intros val H. unfold primitiveCheck in H.
    destruct (isType type ["bytes"; "fixed"]), (isToJSON (_mode this)),
      (isValid val); cbn [bind andb] in H;
      try (destruct (bufferFrom val) as [copy|e]; cbn [bind] in H;
           [|discriminate]);
      cbn in H; try discriminate;
      try (destruct copy; cbn in H; try discriminate);
      ok_inv H; try constructor; now repeat constructor. }
  destruct (isType type ["bytes"; "fixed"] && negb (isToJSON (_mode this)));
    [|exact (Hcheck _ Hclone)].
  destruct any; try (ok_inv Hclone; now repeat constructor).
  exact (Hcheck _ Hclone).
Qed.

Lemma onArray_expects (cloneItem : cloneAt) type :
  occursIn type root ->
  expectsWithin root cloneItem -> expectsWithin root (_onArray cloneItem type).
Proof.
  intros Hty Hitem any p b Hclone. fold within. unfold _onArray in Hclone.
  destruct any; try (ok_inv Hclone; now repeat constructor).
  destruct (arrayLoop cloneItem p items 0 newBuilder []) as [[b' val]|e] eqn:E;
    cbn [bind] in Hclone; [|discriminate].
  eapply (arrayLoop_Forall within) in E; [| |constructor].
  - ok_inv Hclone. now destruct (isOk b').
  - intros i item ib Hib. exact (Hitem _ _ _ Hib).
Qed.

Lemma onMap_expects (cloneValue : cloneAt) type :
  occursIn type root ->
  expectsWithin root cloneValue -> expectsWithin root (_onMap cloneValue type).
Proof.
  intros Hty Hvalue any p b Hclone. fold within. unfold _onMap in Hclone.
  destruct (notAnObject any); [ok_inv Hclone; now repeat constructor|].
  unfold mapEntries in Hclone.
  destruct (Object_keys any) as [names|e]; cbn [bind] in Hclone; [|discriminate].
  destruct (mapLoop cloneValue any p (sortKeys names) newBuilder [])
    as [[b' val]|e] eqn:E; cbn [bind] in Hclone; [|discriminate].
  eapply (mapLoop_Forall within) in E; [| |constructor].
  - ok_inv Hclone. now destruct (isOk b').
  - intros key v vb Hvb. exact (Hvalue _ _ _ Hvb).
Qed.

Lemma onRecord_expects (fieldClones : list (field * cloneAt)) type ctor :
  occursIn type root ->
  Forall (fun fc => expectsWithin root (snd fc)) fieldClones ->
  expectsWithin root (_onRecord inherited compare this fieldClones type ctor).
Proof.
  intros Hty Hall any p b Hclone. fold within. unfold _onRecord in Hclone.
  destruct (notAnObject any); [ok_inv Hclone; now repeat constructor|].
  unfold recordFields in Hclone.
  match type of Hclone with
  | bind ?m _ = _ => destruct m as [b0|e] eqn:E0; cbn [bind] in Hclone;
                     [|discriminate]
  end.
  assert (H0 : Forall within (errors b0)).
  { destruct (_allowUndeclaredFields this); [ok_inv E0; constructor|].
    destruct (Object_keys any); cbn [bind] in E0; [|discriminate].
    destruct (undeclaredFields _ _); ok_inv E0; now repeat constructor. }
  destruct (recordLoop inherited compare this any p fieldClones (b0, [], []))
    as [[[b1 missing] args]|e] eqn:E; cbn [bind] in Hclone; [|discriminate].
  eapply (recordLoop_Forall inherited compare this within) in E; [| |exact H0].
  - ok_inv Hclone. rewrite errors_record_result.
    destruct missing; [exact E | now apply within_own].
  - revert Hall. apply Forall_impl. intros fc Hfc v fb Hfb.
    exact (Hfc _ _ _ Hfb).
Qed.

Lemma onUnion_expects (branches : list (avtype * cloneAt)) unionType branchTypeOf :
  occursIn unionType root ->
  Forall (fun bc => expectsWithin root (snd bc)) branches ->
  expectsWithin root (_onUnion this branches unionType branchTypeOf).
Proof.
  intros Hty Hall any p b Hclone. fold within.
  destruct (value_is_null any) as [->|Hany].
  - unfold _onUnion in Hclone. ok_inv Hclone.
    destruct (existsb isNullType (map fst branches)); now repeat constructor.
  - rewrite (onUnion_not_null this branches unionType branchTypeOf any p Hany)
      in Hclone.
    destruct (unionResolve this (map fst branches) unionType
                (String.eqb (typeName unionType) "union:wrapped")
                branchTypeOf any p) as [[early|any']|e] eqn:Hres;
      cbn [bind] in Hclone; try discriminate.
    + ok_inv Hclone. unfold unionResolve in Hres.
      destruct (isFromDefaultJSON (_mode this)).
      * destruct (map fst branches) as [|first ?]; [discriminate|].
        destruct (isNullType first); ok_inv Hres. now repeat constructor.
      * destruct (isToJSON (_mode this) && negb _); [|discriminate].
        destruct (branchTypeOf any); ok_inv Hres. now repeat constructor.
    + unfold unionBranch in Hclone.
      destruct (negb (String.eqb (typeof any') "object"));
        [ok_inv Hclone; now repeat constructor|].
      destruct (Object_keys any') as [keys|e]; cbn [bind] in Hclone;
        [|discriminate].
      destruct keys as [|key [|? ?]];
        try (ok_inv Hclone; now repeat constructor).
      destruct (branchByName key branches) as [[branchType cloneBranch]|] eqn:Hb;
        [|ok_inv Hclone; now repeat constructor].
      apply branchByName_In in Hb. destruct Hb as [Hin _].
      rewrite Forall_forall in Hall. specialize (Hall _ Hin). cbn [snd] in Hall.
      destruct (cloneBranch (getProp any' key) (p ++ [PKey key])) as [bb|e] eqn:E;
        cbn [bind] in Hclone; [|discriminate].
      apply Hall in E. ok_inv Hclone.
      destruct (isOk bb); [destruct (isToJSON _); [|destruct (negb _)]|];
        exact E.
Qed.

Lemma onLogical_expects (cloneUnderlying : cloneAt) type toValue fromValue :
  occursIn type root ->
  expectsWithin root cloneUnderlying ->
  expectsWithin root (_onLogical this cloneUnderlying type toValue fromValue).
Proof.
  intros Hty Hu any p b Hclone. fold within. unfold _onLogical in Hclone.
  destruct (isToJSON (_mode this)).
  - destruct (toValue any) as [v|m]; [|ok_inv Hclone; now repeat constructor].
    destruct v; try (exact (Hu _ _ _ Hclone)).
    ok_inv Hclone. now repeat constructor.
  - destruct (cloneUnderlying any p) as [ub|e] eqn:E; cbn [bind] in Hclone;
      [|discriminate].
    apply Hu in E. destruct (negb (isOk ub)); [now ok_inv Hclone|].
    destruct (fromValue (bvalue ub)); ok_inv Hclone; [exact E|].
    now apply within_own.
Qed.

Lemma clone_expects (type : avtype) :
  occursIn type root -> expectsWithin root (clone inherited compare this type).
Proof.
  induction type as [kind name isValid | itemsType IH | valuesType IH
                    | isError name fields ctor IH | wrapped types branchTypeOf IH
                    | name underlying toValue fromValue IH] using avtype_ind;
    intros Hty; cbn [clone].
  - now apply onPrimitive_expects.
  - apply onArray_expects; [exact Hty|]. apply IH.
    apply occursIn_trans with (b := TArray itemsType); [|exact Hty].
    apply occursIn_items, occursIn_here.
  - apply onMap_expects; [exact Hty|]. apply IH.
    apply occursIn_trans with (b := TMap valuesType); [|exact Hty].
    apply occursIn_values, occursIn_here.
  - apply onRecord_expects; [exact Hty|]. rewrite Forall_map. cbn [snd].
    rewrite Forall_forall in IH |- *. intros f Hin. apply IH; [exact Hin|].
    apply occursIn_trans with (b := TRecord isError name fields ctor);
      [|exact Hty].
    apply occursIn_field with (f := f); [exact Hin | apply occursIn_here].
  - apply onUnion_expects; [exact Hty|]. rewrite Forall_map. cbn [snd].
    rewrite Forall_forall in IH |- *. intros t Hin. apply IH; [exact Hin|].
    apply occursIn_trans with (b := TUnion wrapped types branchTypeOf);
      [|exact Hty].
    apply occursIn_branch with (branch := t); [exact Hin | apply occursIn_here].
  - apply onLogical_expects; [exact Hty|]. apply IH.
    apply occursIn_trans with (b := TLogical name underlying toValue fromValue);
      [|exact Hty].
    apply occursIn_underlying, occursIn_here.
Qed.

End ExpectedTypes.

(** X15. Every error a call reports expects a type that occurs in the
    type of the call: the type itself, or the type of an item, a value, a
    field, a branch or an underlying type reached from it.  No error
    names a type from outside the schema being transcoded. *)
Theorem errors_expect_types_of_the_schema :
  forall inherited compare this (type : avtype) (any : value) (path : path) b,
    clone inherited compare this type any path = Ok b ->
    Forall (fun e => occursIn (errExpectedType e) type) (errors b).
Proof.
  intros inherited compare this type any path b Hclone.
  exact (clone_expects inherited compare this type type (occursIn_here type) any path b
           Hclone).
Qed.

Lemma errors_expect_types_of_the_schema_witness :
  Forall (fun e => occursIn (errExpectedType e) twoFieldRecord) twoProblemsErrors.
Proof.
  exact (errors_expect_types_of_the_schema Samples.inherited Samples.numCompare
           (mkCloner FROM_JSON false false) twoFieldRecord twoProblems []
           (mkBuilder VUndefined twoProblemsErrors) eq_refl).
Defined.
